(** * arm-wchar-tag: reading and patching Tag_ABI_PCS_wchar_t

    A shallow embedding of [arm-wchar-tag.c] and the properties of its
    ARM EABI attributes decoder.

    Conventions of the embedding.
    - The open file is a list of bytes together with the descriptor's
      offset; [read], [write] and [lseek] act on it as on a regular file
      opened with [O_RDWR].  What the program prints is kept, in order, in
      the [out] component.
    - The C functions return an [int] status and pass results through
      pointers; here they return the status together with the new values
      of the objects they were given by pointer.
    - [off_t] and [size_t] are the 64-bit types of an LP64 host; every
      cursor of the program is bounded by a 32-bit section size plus a
      small constant, so their arithmetic is written in [Z] without
      wrap-around.  [int], [char] and [unsigned long] conversions are
      written out.
    - The host is little-endian: the ELF structures and the subsection
      length are filled by [read] and used as they are.
    - A [read] returns fewer bytes than asked for at the end of the file
      only, and [write] succeeds; other input/output errors are left out.
    - The array [vendor_name] is never initialised by the program.  What a
      pass through the loop body that declares it finds in it is what the
      pass before left there, also across two calls of
      [parse_eabi_attr_section] (the array has the same place on the stack);
      what the first pass finds is a parameter of the embedding.
    - The C library is glibc: [sscanf] converts the digits of a [%d] as
      [strtol] does, to a [long] that saturates at [LONG_MIN] and
      [LONG_MAX], and stores that [long] converted to [int].
    - Every [while] loop takes a bound on its number of iterations and
      answers [None] when the bound is exhausted. *)

From Stdlib Require Import ZArith Lia Ascii String.
From Stdlib.Strings Require Import Byte.
From stdpp Require Import base list.

Local Open Scope string_scope.
Local Open Scope list_scope.
Local Open Scope Z_scope.

(** ** Machine integers *)

Definition byte_val (b : byte) : Z := Z.of_N (Byte.to_N b).

Definition byte_of_Z (z : Z) : byte :=
  match Byte.of_N (Z.to_N (z mod 256)) with
  | Some b => b
  | None => x00
  end.

(** Two's complement reading of the low [n] bits of [z]. *)
Definition sint (n : Z) (z : Z) : Z :=
  let m := z mod 2 ^ n in
  if m <? 2 ^ (n - 1) then m else m - 2 ^ n.

(** Conversion to [int], to [char] (signed, as on the x86 hosts the tool is
    built for) and to [unsigned long]. *)
Definition to_int (z : Z) : Z := sint 32 z.
Definition to_char (z : Z) : Z := sint 8 z.
Definition to_ulong (z : Z) : Z := z mod 2 ^ 64.

(** [x << shift] on [int] operands.  C defines the result only for
    [0 <= shift < 32] and a product that fits [int]; outside of that the
    definition follows what x86-64 code does: the count is taken modulo 32
    and the product is truncated. *)
Definition shl_int (x shift : Z) : Z := to_int (Z.shiftl x (shift mod 32)).

(** Little-endian reading of a field of a structure filled by [read]. *)
Fixpoint le_val (bs : list byte) : Z :=
  match bs with
  | [] => 0
  | b :: bs' => byte_val b + 256 * le_val bs'
  end.

(** ** The file descriptor and the console *)

Inductive arg :=
| AInt (z : Z)
| AStr (s : string).

Inductive event :=
| Printf (fmt : string) (args : list arg)
| Perror (msg : string).

Record world := World {
  file : list byte;   (* contents of the open file *)
  fpos : nat;         (* offset of the descriptor *)
  out : list event    (* console output so far *)
}.

Definition M (A : Type) : Type := world -> option (A * world).

Definition ret {A} (a : A) : M A := fun w => Some (a, w).

Definition bind {A B} (m : M A) (k : A -> M B) : M B :=
  fun w => match m w with
           | Some (a, w') => k a w'
           | None => None
           end.

Definition out_of_fuel {A} : M A := fun _ => None.

Notation "x <- m ;; k" := (bind m (fun x => k))
  (at level 100, m at next level, right associativity).
Notation "m ;;; k" := (bind m (fun _ => k))
  (at level 100, right associativity).

Definition printf (fmt : string) (args : list arg) : M unit :=
  fun w => Some (tt, World (file w) (fpos w) (out w ++ [Printf fmt args])).

Definition perror (msg : string) : M unit :=
  fun w => Some (tt, World (file w) (fpos w) (out w ++ [Perror msg])).

(** [read(fd, buf, n)]: the bytes available at the offset, at most [n] of
    them; the offset moves past them. *)
Definition read (n : nat) : M (list byte) :=
  fun w =>
    let bs := take n (drop (fpos w) (file w)) in
    Some (bs, World (file w) (fpos w + length bs) (out w)).

(** [read(fd, &byte, 1)], with [None] for a return value other than 1 (the
    end of the file). *)
Definition read_byte : M (option byte) :=
  fun w =>
    match file w !! fpos w with
    | Some b => Some (Some b, World (file w) (S (fpos w)) (out w))
    | None => Some (None, w)
    end.

(** [write(fd, &c, 1)] of one byte.  Inside the file the byte is replaced;
    at or past the end the file grows (zero-filled up to the offset). *)
Definition write_byte (c : byte) : M Z :=
  fun w =>
    let f := file w in
    let p := fpos w in
    let f' := if (p <? length f)%nat then <[p := c]> f
              else f ++ replicate (p - length f) x00 ++ [c] in
    Some (1, World f' (S p) (out w)).

(** [lseek]: fails with -1, leaving the offset, when the target is
    negative; the target may lie past the end of the file. *)
Definition lseek_to (target : Z) : M Z :=
  fun w =>
    if target <? 0 then Some (-1, w)
    else Some (target, World (file w) (Z.to_nat target) (out w)).

Definition lseek_cur (off : Z) : M Z :=
  fun w => lseek_to (Z.of_nat (fpos w) + off) w.

Definition lseek_set (off : Z) : M Z := lseek_to off.

(** ** Primitive decoders *)

Section Decoder.

(** Bound on the number of iterations of any one loop. *)
Variable fuel : nat.

(** The loop of [parse_uleb128]; [result] and [pos] stand for [*result]
    and [*pos]. *)
Fixpoint uleb128_loop (n : nat) (size : Z) (shift result pos : Z)
  : M (Z * Z * Z) :=
  if pos <? size then
    match n with
    | O => out_of_fuel
    | S n' =>
      r <- read_byte ;;
      match r with
      | None => perror "reading ULEB128" ;;; ret (1, result, pos)
      | Some byte =>
        let pos := pos + 1 in
        let result :=
          Z.lor result (to_ulong (shl_int (Z.land (byte_val byte) 0x7f) shift)) in
        if Z.land (byte_val byte) 0x80 =? 0 then ret (0, result, pos)
        else if pos >=? size then
          printf "Error: Unterminated ULEB128.\n" [] ;;; ret (1, result, pos)
        else uleb128_loop n' size (shift + 7) result pos
      end
    end
  else ret (0, result, pos).

(** [parse_uleb128(fd, &result, &pos, size)]: status, [*result], [*pos]. *)
Definition parse_uleb128 (pos size : Z) : M (Z * Z * Z) :=
  uleb128_loop fuel size 0 0 pos.

(** The buffer a string is captured in: [None] for a [NULL] pointer. *)
Definition store (result : option (list byte)) (result_size i : Z) (c : byte)
  : option (list byte) :=
  match result with
  | Some buf => if i <? result_size then Some (<[Z.to_nat i := c]> buf)
                else Some buf
  | None => None
  end.

(** The end of [parse_ntbs]: null-termination of the buffer, status 0. *)
Definition ntbs_done (result : option (list byte)) (result_size pos : Z)
  : M (Z * option (list byte) * Z) :=
  ret (0, store result result_size (result_size - 1) x00, pos).

Fixpoint ntbs_loop (n : nat) (result : option (list byte))
    (result_size size i pos : Z) : M (Z * option (list byte) * Z) :=
  if pos <? size then
    match n with
    | O => out_of_fuel
    | S n' =>
      r <- read_byte ;;
      match r with
      | None => perror "skipping NTBS\n" ;;; ret (1, result, pos)
      | Some byte =>
        let pos := pos + 1 in
        let result := store result result_size i byte in
        let i := i + 1 in
        if byte_val byte =? 0 then ntbs_done result result_size pos
        else if pos >=? size then
          printf "Error: Unterminated NTBS.\n" [] ;;; ret (1, result, pos)
        else ntbs_loop n' result result_size size i pos
      end
    end
  else ntbs_done result result_size pos.

(** [parse_ntbs(fd, result, result_size, &pos, size)]: status, the buffer
    and [*pos]. *)
Definition parse_ntbs (result : option (list byte)) (result_size pos size : Z)
  : M (Z * option (list byte) * Z) :=
  ntbs_loop fuel result result_size size 0 pos.

(** ** The "aeabi" subsection *)

(** The [do ... while (id != 0)] loop over section or symbol numbers. *)
Fixpoint ids_loop (n : nat) (sh_size pos : Z) : M (Z * Z) :=
  match n with
  | O => out_of_fuel
  | S n' =>
    r <- parse_uleb128 pos sh_size ;;
    let '(ret_, id, pos) := r in
    if negb (ret_ =? 0) then ret (ret_, pos)
    else if negb (id =? 0) then ids_loop n' sh_size pos
    else ret (0, pos)
  end.

(** [buf] of [parse_eabi_attr_aeabi_subsection]: 1024 bytes that are written
    and never read, so that their initial contents are immaterial. *)
Definition buf : list byte := replicate 1024 x00.

(** [case 18] of the switch: status and [*pos]. *)
Definition case_Tag_ABI_PCS_wchar_t (sh_size wchar_size pos : Z) : M (Z * Z) :=
  r <- parse_uleb128 pos sh_size ;;
  let '(ret_, value, pos) := r in
  if negb (ret_ =? 0) then ret (ret_, pos)
  else
    printf "Tag_ABI_PCS_wchar_t = %ld" [AInt value] ;;;
    if wchar_size >=? 0 then
      (if value >? 0x7f then
         printf "Error: Unable to patch Tag_ABI_PCS_wchar_t: old value is too big.\n" []
       else ret tt) ;;;
      o <- lseek_cur (-1) ;;
      if o =? -1 then perror "seeking to patch" ;;; ret (1, pos)
      else
        k <- write_byte (byte_of_Z wchar_size) ;;
        if negb (k =? 1) then perror "patching" ;;; ret (1, pos)
        else printf ", patched to %d\n" [AInt wchar_size] ;;; ret (0, pos)
    else printf "\n" [] ;;; ret (0, pos).

(** The body of the [switch (attr)]: status and [*pos]. *)
Definition switch_attr (attr sh_size wchar_size pos : Z) : M (Z * Z) :=
  if (attr =? 4) || (attr =? 5) || (attr =? 67) || (attr =? 32) then
    r <- parse_ntbs (Some buf) 1024 pos sh_size ;;
    let '(ret_, _, pos) := r in ret (ret_, pos)
  else if attr =? 18 then case_Tag_ABI_PCS_wchar_t sh_size wchar_size pos
  else if attr >? 32 then
    if attr mod 2 =? 0 then
      r <- parse_uleb128 pos sh_size ;;
      let '(ret_, _, pos) := r in ret (ret_, pos)
    else
      r <- parse_ntbs None 0 pos sh_size ;;
      let '(ret_, _, pos) := r in ret (ret_, pos)
  else
    r <- parse_uleb128 pos sh_size ;;
    let '(ret_, _, pos) := r in ret (ret_, pos).

(** The [while] loop over the attributes of the subsection. *)
Fixpoint attrs_loop (n : nat) (sh_size wchar_size pos : Z) : M (Z * Z) :=
  if pos <? sh_size then
    match n with
    | O => out_of_fuel
    | S n' =>
      r <- parse_uleb128 pos sh_size ;;
      let '(ret_, attr, pos) := r in
      if negb (ret_ =? 0) then ret (ret_, pos)
      else
        r <- switch_attr attr sh_size wchar_size pos ;;
        let '(ret_, pos) := r in
        if negb (ret_ =? 0) then ret (ret_, pos)
        else attrs_loop n' sh_size wchar_size pos
    end
  else ret (0, pos).

(** [parse_eabi_attr_aeabi_subsection(fd, &pos, sh_size, wchar_size)]:
    status and [*pos]. *)
Definition parse_eabi_attr_aeabi_subsection (pos sh_size wchar_size : Z)
  : M (Z * Z) :=
  if sh_size <? 1 then
    printf "Error: aeabi subsection too small.\n" [] ;;; ret (1, pos)
  else
    r <- read_byte ;;
    match r with
    | None => perror "reading aeabi subsection tag\n" ;;; ret (1, pos)
    | Some tag =>
      let pos := pos + 1 in
      r <- (if (byte_val tag =? 2) || (byte_val tag =? 3)
            then ids_loop fuel sh_size pos
            else ret (0, pos)) ;;
      let '(ret_, pos) := r in
      if negb (ret_ =? 0) then ret (ret_, pos)
      else attrs_loop fuel sh_size wchar_size pos
    end.

(** ** The attributes section *)

(** The string held by a [char] array: the bytes before the first NUL. *)
Fixpoint c_str (a : list byte) : list byte :=
  match a with
  | [] => []
  | c :: a' => if byte_val c =? 0 then [] else c :: c_str a'
  end.

(** [strcmp] on two strings given by their bytes. *)
Fixpoint strcmp (s1 s2 : list byte) : Z :=
  match s1, s2 with
  | [], [] => 0
  | c1 :: _, [] => byte_val c1
  | [], c2 :: _ => - byte_val c2
  | c1 :: r1, c2 :: r2 =>
    if byte_val c1 =? byte_val c2 then strcmp r1 r2
    else byte_val c1 - byte_val c2
  end.

(** The body of the [while (pos < sh_size)] loop over the vendor
    subsections: status, [vendor_name] and [spos].  [vendor_name] is the
    128-byte array of the loop body; the program never initialises it, and
    what an iteration finds in it is what the previous one left there. *)
Definition section_loop_body (sh_size wchar_size : Z) (vendor_name : list byte)
    (pos : Z) : M (Z * list byte * Z) :=
  if pos + 4 >? sh_size then
    printf "Error: Unexpected end of ARM attribute section\n" [] ;;;
    ret (1, vendor_name, 0)
  else
    bs <- read 4 ;;
    if negb (Z.of_nat (length bs) =? 4) then
      perror "reading subsection size" ;;; ret (1, vendor_name, 0)
    else
      let subsect_size := le_val bs in
      if pos + subsect_size >? sh_size then
        printf "Error: ARM attribute subsection outside of section bounds.\n" [] ;;;
        ret (1, vendor_name, 0)
      else
        let spos := 4 in
        r <- parse_ntbs (Some vendor_name) 128 spos subsect_size ;;
        let '(ret_, name, spos) := r in
        let vendor_name := default vendor_name name in
        if negb (ret_ =? 0) then ret (ret_, vendor_name, spos)
        else if strcmp (c_str vendor_name) (list_byte_of_string "aeabi") =? 0 then
          r <- parse_eabi_attr_aeabi_subsection spos subsect_size wchar_size ;;
          let '(ret_, spos) := r in ret (ret_, vendor_name, spos)
        else
          o <- lseek_cur (subsect_size - spos) ;;
          if negb (o =? -1) then
            perror "skipping over unknown subsection" ;;; ret (1, vendor_name, spos)
          else ret (0, vendor_name, subsect_size).

Fixpoint section_loop (n : nat) (sh_size wchar_size : Z)
    (vendor_name : list byte) (pos : Z) : M Z :=
  if pos <? sh_size then
    match n with
    | O => out_of_fuel
    | S n' =>
      r <- section_loop_body sh_size wchar_size vendor_name pos ;;
      let '(ret_, vendor_name, spos) := r in
      if negb (ret_ =? 0) then ret ret_
      else section_loop n' sh_size wchar_size vendor_name (pos + spos)
    end
  else ret 0.

(** [parse_eabi_attr_section(fd, sh_size, wchar_size)]; [vendor_name] gives
    the indeterminate initial contents of the array of that name. *)
Definition parse_eabi_attr_section (sh_size wchar_size : Z)
    (vendor_name : list byte) : M Z :=
  (if sh_size <? 1 then printf "Error: Empty ARM attributes section.\n" []
   else ret tt) ;;;
  r <- read_byte ;;
  match r with
  | None => perror "reading version" ;;; ret 1
  | Some version =>
    if negb (byte_val version =? 65) (* 'A' *) then
      printf "Error: Unknown ARM attribute section format version '%c'.\n"
             [AInt (byte_val version)] ;;;
      ret 1
    else section_loop fuel sh_size wchar_size vendor_name 1
  end.

(** The same loop and the same call with, beside the status, what they
    leave in the array [vendor_name]. *)
Fixpoint section_loop_vendor (n : nat) (sh_size wchar_size : Z)
    (vendor_name : list byte) (pos : Z) : M (Z * list byte) :=
  if pos <? sh_size then
    match n with
    | O => out_of_fuel
    | S n' =>
      r <- section_loop_body sh_size wchar_size vendor_name pos ;;
      let '(ret_, vendor_name, spos) := r in
      if negb (ret_ =? 0) then ret (ret_, vendor_name)
      else section_loop_vendor n' sh_size wchar_size vendor_name (pos + spos)
    end
  else ret (0, vendor_name).

Definition parse_eabi_attr_section_vendor (sh_size wchar_size : Z)
    (vendor_name : list byte) : M (Z * list byte) :=
  (if sh_size <? 1 then printf "Error: Empty ARM attributes section.\n" []
   else ret tt) ;;;
  r <- read_byte ;;
  match r with
  | None => perror "reading version" ;;; ret (1, vendor_name)
  | Some version =>
    if negb (byte_val version =? 65) (* 'A' *) then
      printf "Error: Unknown ARM attribute section format version '%c'.\n"
             [AInt (byte_val version)] ;;;
      ret (1, vendor_name)
    else section_loop_vendor fuel sh_size wchar_size vendor_name 1
  end.

(** ** The ELF file *)

(** Constants and layouts of <elf.h>. *)
Definition ELFMAG : list byte := [x7f; x45; x4c; x46].
Definition EM_ARM : Z := 40.
Definition SHT_ARM_ATTRIBUTES : Z := 0x70000003.
Definition sizeof_Elf32_Ehdr : nat := 52.
Definition sizeof_Elf32_Shdr : nat := 40.

(** The field of [len] bytes at offset [off] of a structure. *)
Definition field (s : list byte) (off len : nat) : Z :=
  le_val (take len (drop off s)).

Definition e_machine (ehdr : list byte) : Z := field ehdr 18 2.
Definition e_shoff (ehdr : list byte) : Z := field ehdr 32 4.
Definition e_shentsize (ehdr : list byte) : Z := field ehdr 46 2.
Definition e_shnum (ehdr : list byte) : Z := field ehdr 48 2.
Definition sh_type (shdr : list byte) : Z := field shdr 4 4.
Definition sh_offset (shdr : list byte) : Z := field shdr 16 4.
Definition sh_size (shdr : list byte) : Z := field shdr 20 4.

(** [memcmp(a, b, n) == 0]. *)
Fixpoint bytes_eqb (a b : list byte) : bool :=
  match a, b with
  | [], [] => true
  | x :: a', y :: b' => Byte.eqb x y && bytes_eqb a' b'
  | _, _ => false
  end.

(** The [for] loop over the section headers; [count] headers are left, and
    [vendor_name] is what the array of that name holds when the next
    attributes section is walked. *)
Fixpoint shdr_loop (count : nat) (wchar_size : Z) (vendor_name : list byte)
  : M Z :=
  match count with
  | O => ret 0
  | S count' =>
    shdr <- read sizeof_Elf32_Shdr ;;
    if negb (length shdr =? sizeof_Elf32_Shdr)%nat then
      perror "reading Elf32_Shdr" ;;; ret 1
    else if negb (sh_type shdr =? SHT_ARM_ATTRIBUTES) then
      shdr_loop count' wchar_size vendor_name
    else
      current_pos <- lseek_cur 0 ;;
      o <- lseek_set (sh_offset shdr) ;;
      if o =? -1 then perror "seeking to attributes section" ;;; ret 1
      else
        r <- parse_eabi_attr_section_vendor (sh_size shdr) wchar_size
                                            vendor_name ;;
        let '(ret_, vendor_name) := r in
        if negb (ret_ =? 0) then ret ret_
        else
          o <- lseek_set current_pos ;;
          if o =? -1 then perror "restoring position" ;;; ret 1
          else shdr_loop count' wchar_size vendor_name
  end.

(** [parse(fd, wchar_size)]. *)
Definition parse (wchar_size : Z) (vendor_name : list byte) : M Z :=
  ehdr <- read sizeof_Elf32_Ehdr ;;
  if negb (length ehdr =? sizeof_Elf32_Ehdr)%nat then
    perror "reading ELf32_Ehdr" ;;; ret 1
  else if negb (bytes_eqb (take 4 ehdr) ELFMAG) then
    printf "Error: Invalid ELF magic.\n" [] ;;; ret 1
  else if negb (e_machine ehdr =? EM_ARM) then
    printf "Error: Not an ARM ELF file.\n" [] ;;; ret 1
  else if e_shoff ehdr =? 0 then
    printf "Error: ELF file has no section table.\n" [] ;;; ret 1
  else if negb (e_shentsize ehdr =? Z.of_nat sizeof_Elf32_Shdr) then
    printf "Error: Section header entry size %d doesn't match sizeof(ELf32_Shdr)=%d.\n"
           [AInt (e_shentsize ehdr); AInt (Z.of_nat sizeof_Elf32_Shdr)] ;;;
    ret 1
  else
    o <- lseek_set (e_shoff ehdr) ;;
    if o =? -1 then perror "seeking to section header table" ;;; ret 1
    else shdr_loop (Z.to_nat (e_shnum ehdr)) wchar_size vendor_name.

End Decoder.

(** ** The command line *)

(** The files of the host: contents by name. *)
Definition files := string -> option (list byte).

(** What a run leaves behind: the exit status, the contents of the file if it
    was opened, and the console output. *)
Record run := Run {
  status : Z;
  opened : option (list byte);
  console : list event
}.

(** [process(filename, wchar_size)]; the [int] argument is converted to the
    [char] parameter of [parse]. *)
Definition process (fuel : nat) (fs : files) (vendor_name : list byte)
    (filename : string) (wchar_size : Z) : option run :=
  match fs filename with
  | None => Some (Run 1 None [Perror "opening file"])
  | Some contents =>
    match parse fuel (to_char wchar_size) vendor_name (World contents 0 []) with
    | Some (ret_, w) => Some (Run ret_ (Some (file w)) (out w))
    | None => None
    end
  end.

Definition is_space (c : ascii) : bool :=
  let n := N_of_ascii c in
  ((n =? 32) || ((9 <=? n) && (n <=? 13)))%N.

Definition digit_of (c : ascii) : option Z :=
  let n := N_of_ascii c in
  if ((48 <=? n) && (n <=? 57))%N then Some (Z.of_N n - 48) else None.

Fixpoint skip_space (s : string) : string :=
  match s with
  | String c s' => if is_space c then skip_space s' else s
  | EmptyString => s
  end.

(** The decimal digits at the head of [s]; [acc] is [None] until a digit has
    been seen. *)
Fixpoint scan_digits (s : string) (acc : option Z) : option Z :=
  match s with
  | String c s' =>
    match digit_of c with
    | Some d => scan_digits s' (Some (10 * default 0 acc + d))
    | None => acc
    end
  | EmptyString => acc
  end.

(** [sscanf(s, "%d", &n) == 1] with the number read, as a mathematical
    integer: white space, an optional sign, decimal digits. *)
Definition sscanf_d (s : string) : option Z :=
  match skip_space s with
  | String "-" s' => option_map Z.opp (scan_digits s' None)
  | String "+" s' => scan_digits s' None
  | s' => scan_digits s' None
  end.

(** What [sscanf] stores in [n] for the number read: the number, taken to
    the nearest [long] when it is outside the range of that type, and
    converted to [int].  (C leaves this open for a number outside [int];
    this is what glibc does.) *)
Definition to_long_sat (z : Z) : Z := Z.max (- 2 ^ 63) (Z.min z (2 ^ 63 - 1)).
Definition scanned_int (z : Z) : Z := to_int (to_long_sat z).

(** [main(argc, argv)] with [argc = length argv]. *)
Definition main (fuel : nat) (fs : files) (vendor_name : list byte)
    (argv : list string) : option run :=
  match argv with
  | [_; filename] => process fuel fs vendor_name filename (to_char (-1))
  | [_; filename; value] =>
    match sscanf_d value with
    | None =>
      Some (Run 1 None
              [Printf "Invalid Tag_ABI_PCS_wchar_t value %s.\n" [AStr value]])
    | Some v =>
      let wchar_size := scanned_int v in
      if wchar_size >? 0x7f then
        Some (Run 1 None
                [Printf "Error: We do not support patching with TAG_ABI_PCS_wchar_t %d greater than 0x7f.\n"
                        [AInt wchar_size]])
      else process fuel fs vendor_name filename (to_char wchar_size)
    end
  | _ =>
    Some (Run 1 None
            [Printf "Syntax: arm-wchar-tag [filename] [Tag_ABI_PCS_wchar_t]\n" []])
  end.

(** ** Sample inputs *)

(** Bytes written as numbers. *)
Definition bytes (l : list Z) : list byte := map byte_of_Z l.

(** [n] bytes of [z], little-endian. *)
Fixpoint le_bytes (n : nat) (z : Z) : list byte :=
  match n with
  | O => []
  | S n' => byte_of_Z z :: le_bytes n' (z / 256)
  end.

(** A minimal ARM ELF file around a section of [n] bytes: the header, the
    section at offset 52 and, after it, the one entry of the section header
    table, of type [SHT_ARM_ATTRIBUTES]. *)
Definition elf_header (n : Z) : list byte :=
  ELFMAG ++ replicate 12 x00 ++ le_bytes 2 1 ++ le_bytes 2 EM_ARM
    ++ le_bytes 4 1 ++ le_bytes 4 0 ++ le_bytes 4 0 ++ le_bytes 4 (52 + n)
    ++ le_bytes 4 0 ++ le_bytes 2 52 ++ le_bytes 2 0 ++ le_bytes 2 0
    ++ le_bytes 2 40 ++ le_bytes 2 1 ++ le_bytes 2 0.

Definition elf_section_header (n : Z) : list byte :=
  le_bytes 4 0 ++ le_bytes 4 SHT_ARM_ATTRIBUTES ++ le_bytes 4 0
    ++ le_bytes 4 0 ++ le_bytes 4 52 ++ le_bytes 4 n ++ replicate 16 x00.

Definition elf_with_section (sec : list byte) : list byte :=
  let n := Z.of_nat (length sec) in
  elf_header n ++ sec ++ elf_section_header n.

(** An attributes section with one "aeabi" subsection, whose body is the
    file indicator (1) followed by [attrs]. *)
Definition aeabi_section (attrs : list byte) : list byte :=
  bytes [65] ++ le_bytes 4 (Z.of_nat (11 + length attrs))
    ++ list_byte_of_string "aeabi" ++ bytes [0; 1] ++ attrs.

(** The host with the one file ["a.o"]. *)
Definition host (contents : list byte) : files :=
  fun name => if String.eqb name "a.o" then Some contents else None.

(** Some contents for the array [vendor_name], which the program does not
    initialise. *)
Definition junk : list byte := replicate 128 xff.

(** * Definitions for the statements *)

(** ** ULEB128 fields *)

(** A byte with the continuation bit set, and one with it clear. *)
Definition continues (b : byte) : Prop := Z.land (byte_val b) 0x80 <> 0.
Definition terminates (b : byte) : Prop := Z.land (byte_val b) 0x80 = 0.

(** What the reader has in [*result] after the bytes [bs], from [result] and
    [shift]. *)
Fixpoint uleb128_acc (shift result : Z) (bs : list byte) : Z :=
  match bs with
  | [] => result
  | b :: bs' =>
    uleb128_acc (shift + 7)
      (Z.lor result (to_ulong (shl_int (Z.land (byte_val b) 0x7f) shift))) bs'
  end.

(** The integer a ULEB128 field stands for: the sum of the low 7 bits of each
    byte, shifted left by 7 times the index of the byte. *)
Fixpoint uleb128_sum (index : Z) (bs : list byte) : Z :=
  match bs with
  | [] => 0
  | b :: bs' =>
    Z.shiftl (Z.land (byte_val b) 0x7f) (7 * index) + uleb128_sum (index + 1) bs'
  end.

Definition uleb128_value (bs : list byte) : Z := uleb128_sum 0 bs.

(** ** More sample inputs *)

(** A value of tag 18 that takes two bytes: 128. *)
Definition elf_wide_value : list byte :=
  elf_with_section (aeabi_section (bytes [18; 128; 1])).

(** A "gnu" subsection with a three-byte body, before an "aeabi" one. *)
Definition elf_unknown_vendor : list byte :=
  elf_with_section
    (bytes [65] ++ le_bytes 4 11 ++ list_byte_of_string "gnu" ++ bytes [0; 1; 2; 3]
       ++ le_bytes 4 13 ++ list_byte_of_string "aeabi" ++ bytes [0; 1; 18; 4]).

(** An "aeabi" subsection of 10 bytes: the length field and the name, and
    no body. *)
Definition elf_no_body : list byte :=
  elf_with_section
    (bytes [65] ++ le_bytes 4 10 ++ list_byte_of_string "aeabi" ++ bytes [0]).

(** Tag 18 with the value 4. *)
Definition elf_wchar_4 : list byte :=
  elf_with_section (aeabi_section (bytes [18; 4])).

(** Ten continuation bytes and the terminator 1: the field stands for
    2^70. *)
Definition uleb_2_70 : list byte :=
  bytes [128; 128; 128; 128; 128; 128; 128; 128; 128; 128; 1].

(** ** Well-formed attribute records *)

Definition nonzero (b : byte) : Prop := byte_val b <> 0.

(** The payload of an attribute as it lies in the file: the bytes of a
    string, closed by a NUL, or the bytes of a ULEB128 field. *)
Inductive payload :=
| Ntbs (s : list byte)
| Uleb (conts : list byte) (last : byte).

(** An attribute: the ULEB128 field of its tag, then its payload. *)
Record attribute := Attribute {
  tag_conts : list byte;
  tag_last : byte;
  attr_payload : payload
}.

Definition encode_payload (p : payload) : list byte :=
  match p with
  | Ntbs s => s ++ [x00]
  | Uleb conts last => conts ++ [last]
  end.

Definition encode_attribute (a : attribute) : list byte :=
  tag_conts a ++ tag_last a :: encode_payload (attr_payload a).

Definition encode_attributes (l : list attribute) : list byte :=
  flat_map encode_attribute l.

(** The tag as the reader decodes it. *)
Definition tag_of (a : attribute) : Z :=
  uleb128_acc 0 0 (tag_conts a ++ [tag_last a]).

(** How the switch of the subsection parser reads the payload of a tag. *)
Inductive kind := String_valued | Wchar_t | Integer_valued.

Definition kind_of (attr : Z) : kind :=
  if (attr =? 4) || (attr =? 5) || (attr =? 67) || (attr =? 32) then String_valued
  else if attr =? 18 then Wchar_t
  else if attr >? 32 then
    if attr mod 2 =? 0 then Integer_valued else String_valued
  else Integer_valued.

(** The payload has the form the tag calls for; the value of tag 18 is one
    byte. *)
Definition wf_payload (k : kind) (p : payload) : Prop :=
  match k, p with
  | String_valued, Ntbs s => Forall nonzero s
  | Integer_valued, Uleb conts last => Forall continues conts /\ terminates last
  | Wchar_t, Uleb [] last => terminates last
  | _, _ => False
  end.

Definition wf_attribute (a : attribute) : Prop :=
  Forall continues (tag_conts a) /\ terminates (tag_last a) /\
  wf_payload (kind_of (tag_of a)) (attr_payload a).

(** The attribute after a run with the patch request [wchar_size] (negative:
    no request): the value byte of tag 18 is replaced. *)
Definition patch_attribute (wchar_size : Z) (a : attribute) : attribute :=
  match kind_of (tag_of a) with
  | Wchar_t =>
    if wchar_size >=? 0
    then Attribute (tag_conts a) (tag_last a) (Uleb [] (byte_of_Z wchar_size))
    else a
  | _ => a
  end.

(** What a run prints for the attribute. *)
Definition report (wchar_size : Z) (a : attribute) : list event :=
  match kind_of (tag_of a), attr_payload a with
  | Wchar_t, Uleb [] last =>
    [Printf "Tag_ABI_PCS_wchar_t = %ld" [AInt (byte_val last)];
     if wchar_size >=? 0 then Printf ", patched to %d\n" [AInt wchar_size]
     else Printf "\n" []]
  | _, _ => []
  end.

(** What [parse_ntbs] has in its buffer after the bytes [bs], from the
    index [i]. *)
Fixpoint ntbs_stored (result : option (list byte)) (result_size i : Z)
    (bs : list byte) : option (list byte) :=
  match bs with
  | [] => result
  | b :: bs' => ntbs_stored (store result result_size i b) result_size (i + 1) bs'
  end.

(** ** Well-formed subsections and sections *)

(** The numbers that follow a section or symbol indicator: ULEB128 fields,
    of which the last one, and only it, is decoded as 0. *)
Inductive wf_ids : list byte -> Prop :=
| wf_ids_last conts last :
    Forall continues conts -> terminates last ->
    uleb128_acc 0 0 (conts ++ [last]) = 0 ->
    wf_ids (conts ++ [last])
| wf_ids_more conts last ids :
    Forall continues conts -> terminates last ->
    uleb128_acc 0 0 (conts ++ [last]) <> 0 ->
    wf_ids ids ->
    wf_ids (conts ++ last :: ids).

(** The body of an "aeabi" subsection: the indicator byte, the numbers that
    follow it when it is 2 (section) or 3 (symbol), and the attributes. *)
Record subsection := Subsection {
  indicator : byte;
  ids : list byte;
  attrs : list attribute
}.

Definition encode_body (s : subsection) : list byte :=
  indicator s :: ids s ++ encode_attributes (attrs s).

(** The subsection in the file: its length, which counts the length field
    and the name, the name "aeabi" and the body. *)
Definition encode_subsection (s : subsection) : list byte :=
  le_bytes 4 (Z.of_nat (10 + length (encode_body s)))
    ++ list_byte_of_string "aeabi" ++ x00 :: encode_body s.

Definition wf_subsection (s : subsection) : Prop :=
  (if (byte_val (indicator s) =? 2) || (byte_val (indicator s) =? 3)
   then wf_ids (ids s) else ids s = []) /\
  Forall wf_attribute (attrs s) /\
  Z.of_nat (10 + length (encode_body s)) < 2 ^ 32.

(** An attributes section: the version 'A' and the subsections. *)
Definition encode_section (l : list subsection) : list byte :=
  byte_of_Z 65 :: flat_map encode_subsection l.

Definition patch_subsection (wchar_size : Z) (s : subsection) : subsection :=
  Subsection (indicator s) (ids s) (map (patch_attribute wchar_size) (attrs s)).

(** What a run prints for a section. *)
Definition report_section (wchar_size : Z) (l : list subsection) : list event :=
  flat_map (fun s => flat_map (report wchar_size) (attrs s)) l.

(** The array [vendor_name] once the name "aeabi" has been read into it. *)
Definition vendor_after (vendor_name : list byte) : list byte :=
  default vendor_name
    (store (ntbs_stored (Some vendor_name) 128 0
                        (list_byte_of_string "aeabi" ++ [x00]))
           128 127 x00).

(** An attribute whose tag is not 18. *)
Definition no_wchar_t (a : attribute) : Prop := tag_of a <> 18.

(** The subsections [l1 ++ s :: l2] in which the attribute that follows the
    attributes [al1] of [s] is tag 18 with the one-byte value [c]. *)
Definition with_wchar_t (l1 : list subsection) (ind : byte) (nums : list byte)
    (al1 : list attribute) (tc : list byte) (tl : byte) (c : byte)
    (al2 : list attribute) (l2 : list subsection) : list subsection :=
  l1 ++ Subsection ind nums (al1 ++ Attribute tc tl (Uleb [] c) :: al2) :: l2.

(** The offset of that value byte from the start of the section: the version
    byte, the subsections before, the length field, name and indicator of
    the subsection, the numbers, the attributes before and the tag. *)
Definition value_offset (l1 : list subsection) (nums : list byte)
    (al1 : list attribute) (tc : list byte) : nat :=
  1 + length (flat_map encode_subsection l1) + 10 + 1 + length nums
    + length (encode_attributes al1) + length tc + 1.

(** Tag 18 with the value 4 written in two bytes, 0x84 0x00. *)
Definition elf_padded_value : list byte :=
  elf_with_section (aeabi_section (bytes [18; 132; 0])).

(** ** Definitions for the further properties *)

(** The outcome of [parse_ntbs] without the buffer: status, cursor, world. *)
Definition ntbs_outcome (x : option (Z * option (list byte) * Z * world))
  : option (Z * Z * world) :=
  match x with
  | Some (r, _, pos, w) => Some (r, pos, w)
  | None => None
  end.

(** The contents [f'] are [f] with some bytes overwritten by the replacement
    value [c], if that is one (not negative): same size, and every byte is
    the old one or [c]. *)
Definition rewrites (c : Z) (f f' : list byte) : Prop :=
  length f' = length f /\
  forall i : nat, f' !! i = f !! i \/ (0 <= c /\ f' !! i = Some (byte_of_Z c)).

(** The descriptor is inside the file or at its end. *)
Definition within (w : world) : Prop := (fpos w <= length (file w))%nat.

(** A subsection of the vendor [name] in the file: its length, the name,
    closed by a NUL, and its body. *)
Definition encode_vendor_subsection (name body : list byte) : list byte :=
  le_bytes 4 (Z.of_nat (5 + length name + length body))
    ++ name ++ x00 :: body.

(** What a run without request prints for a section in which the value of
    every tag 18 is [c]: the value, once for each of them. *)
Definition reads_back (c : Z) (l : list subsection) : list event :=
  flat_map
    (fun s =>
       flat_map
         (fun a =>
            if tag_of a =? 18
            then [Printf "Tag_ABI_PCS_wchar_t = %ld" [AInt c]; Printf "\n" []]
            else [])
         (attrs s))
    l.

(** Two "aeabi" subsections: for the file, a CPU name and tag 18 with the
    value 4; for the section 1, tag 18 with the value 2 and tag 6 with the
    value 10. *)
Definition sample_subsections : list subsection :=
  [Subsection (byte_of_Z 1) []
     [Attribute [] (byte_of_Z 5) (Ntbs (list_byte_of_string "7-A"));
      Attribute [] (byte_of_Z 18) (Uleb [] (byte_of_Z 4))];
   Subsection (byte_of_Z 2) (bytes [1; 0])
     [Attribute [] (byte_of_Z 18) (Uleb [] (byte_of_Z 2));
      Attribute [] (byte_of_Z 6) (Uleb [] (byte_of_Z 10))]].

(** ** The layout of an ELF file *)

(** [f] starts with the header of an ARM ELF file whose section header
    table, of [n] entries, is at the offset [shoff]. *)
Definition arm_elf (f : list byte) (shoff n : nat) : Prop :=
  let ehdr := take sizeof_Elf32_Ehdr f in
  length ehdr = sizeof_Elf32_Ehdr /\
  bytes_eqb (take 4 ehdr) ELFMAG = true /\
  e_machine ehdr = EM_ARM /\
  e_shoff ehdr = Z.of_nat shoff /\ shoff <> 0%nat /\
  e_shentsize ehdr = Z.of_nat sizeof_Elf32_Shdr /\
  e_shnum ehdr = Z.of_nat n.

(** A section as the program sees it: its header and, for a section of type
    [SHT_ARM_ATTRIBUTES], the "aeabi" subsections that it holds. *)
Definition elf_section : Type := list byte * option (list subsection).

(** The bytes of an attributes section in the file: offset and length. *)
Definition extent (s : elf_section) : option (nat * nat) :=
  match s with
  | (h, Some l) => Some (Z.to_nat (sh_offset h), length (encode_section l))
  | (_, None) => None
  end.

(** The header is one, and the file holds the subsections where the header
    of an attributes section says. *)
Definition describes (f : list byte) (s : elf_section) : Prop :=
  length (fst s) = sizeof_Elf32_Shdr /\
  match s with
  | (h, None) => sh_type h <> SHT_ARM_ATTRIBUTES
  | (h, Some l) =>
    sh_type h = SHT_ARM_ATTRIBUTES /\ Forall wf_subsection l /\
    sh_size h = Z.of_nat (length (encode_section l)) /\
    take (length (encode_section l)) (drop (Z.to_nat (sh_offset h)) f)
      = encode_section l
  end.

(** Two ranges of bytes, given by offset and length, that do not overlap. *)
Definition apart (a b : nat * nat) : Prop :=
  (fst a + snd a <= fst b \/ fst b + snd b <= fst a)%nat.

(** Every attributes section lies apart from the headers that follow its
    own in the table and from the attributes sections of those headers; [p]
    is the offset of the first header. *)
Fixpoint apart_from_rest (p : nat) (secs : list elf_section) : Prop :=
  match secs with
  | [] => True
  | s :: rest =>
    match extent s with
    | Some r =>
      apart r (p + sizeof_Elf32_Shdr, sizeof_Elf32_Shdr * length rest)%nat /\
      Forall (fun s' => match extent s' with
                        | Some r' => apart r r'
                        | None => True
                        end) rest
    | None => True
    end /\
    apart_from_rest (p + sizeof_Elf32_Shdr) rest
  end.

(** The bytes [s] written over [f] at the offset [off]. *)
Definition splice (f : list byte) (off : nat) (s : list byte) : list byte :=
  take off f ++ s ++ drop (off + length s) f.

(** The file after a run with the request [wchar_size]: every attributes
    section with its subsections patched. *)
Definition patched_file (wchar_size : Z) (secs : list elf_section)
    (f : list byte) : list byte :=
  fold_left
    (fun f s =>
       match s with
       | (h, Some l) =>
         splice f (Z.to_nat (sh_offset h))
                (encode_section (map (patch_subsection wchar_size) l))
       | (_, None) => f
       end)
    secs f.

(** What a run prints for the file: the reports of its attributes sections,
    in the order of the section header table. *)
Definition report_file (wchar_size : Z) (secs : list elf_section)
  : list event :=
  flat_map (fun s : elf_section =>
              match snd s with
              | Some l => report_section wchar_size l
              | None => []
              end) secs.

(** No attributes section is larger than the bound on the iterations. *)
Definition sections_within (fuel : nat) (secs : list elf_section) : Prop :=
  Forall (fun s => match extent s with
                   | Some r => (snd r <= fuel)%nat
                   | None => True
                   end) secs.

(** An ARM ELF file with three sections: the header, the sample subsections
    as an attributes section at offset 52 and, behind it, the section header
    table: a null header, the header of the attributes section and the
    header of a section of another type. *)
Definition sample_header (shoff shnum : Z) : list byte :=
  ELFMAG ++ replicate 12 x00 ++ le_bytes 2 1 ++ le_bytes 2 EM_ARM
    ++ le_bytes 4 1 ++ le_bytes 4 0 ++ le_bytes 4 0 ++ le_bytes 4 shoff
    ++ le_bytes 4 0 ++ le_bytes 2 52 ++ le_bytes 2 0 ++ le_bytes 2 0
    ++ le_bytes 2 40 ++ le_bytes 2 shnum ++ le_bytes 2 0.

Definition sample_section_header (type off size : Z) : list byte :=
  le_bytes 4 0 ++ le_bytes 4 type ++ le_bytes 4 0 ++ le_bytes 4 0
    ++ le_bytes 4 off ++ le_bytes 4 size ++ replicate 16 x00.

Definition sample_sections : list elf_section :=
  let n := Z.of_nat (length (encode_section sample_subsections)) in
  [(sample_section_header 0 0 0, None);
   (sample_section_header SHT_ARM_ATTRIBUTES 52 n, Some sample_subsections);
   (sample_section_header 1 0 52, None)].

Definition sample_elf : list byte :=
  let sec := encode_section sample_subsections in
  sample_header (52 + Z.of_nat (length sec)) 3
    ++ sec ++ concat (map fst sample_sections).

(** ** Cursor and console *)

(** From [w] to [w'] the console has only grown, and a status other than 0
    has come with a message. *)
Definition reported (r : Z) (w w' : world) : Prop :=
  exists o, out w' = out w ++ o /\ (r <> 0 -> o <> []).

(** From [w] to [w'] the descriptor has moved as the cursor has from [pos]
    to [pos'], forwards. *)
Definition in_step (pos : Z) (w : world) (pos' : Z) (w' : world) : Prop :=
  Z.of_nat (fpos w') = Z.of_nat (fpos w) + (pos' - pos) /\ pos <= pos'.

(** The sections after a run with the request [wchar_size]. *)
Definition patched_sections (wchar_size : Z) (secs : list elf_section)
  : list elf_section :=
  map (fun s : elf_section =>
         match s with
         | (h, Some l) => (h, Some (map (patch_subsection wchar_size) l))
         | (h, None) => (h, None)
         end) secs.

(** What a run without request prints for a file in which the value of
    every tag 18 is [c]. *)
Definition reads_back_file (c : Z) (secs : list elf_section) : list event :=
  flat_map (fun s : elf_section =>
              match snd s with
              | Some l => reads_back c l
              | None => []
              end) secs.

(** Every attributes section lies apart from the range [b]. *)
Definition apart_from (b : nat * nat) (secs : list elf_section) : Prop :=
  Forall (fun s => match extent s with
                   | Some r => apart r b
                   | None => True
                   end) secs.

(** No two attributes sections overlap. *)
Fixpoint all_apart (secs : list elf_section) : Prop :=
  match secs with
  | [] => True
  | s :: rest =>
    match extent s with
    | Some r => apart_from r rest
    | None => True
    end /\ all_apart rest
  end.

(** The attributes sections overlap neither each other, nor the ELF header,
    nor the section header table at the offset [shoff]. *)
Definition laid_out (shoff : nat) (secs : list elf_section) : Prop :=
  all_apart secs /\
  apart_from (0, sizeof_Elf32_Ehdr)%nat secs /\
  apart_from (shoff, sizeof_Elf32_Shdr * length secs)%nat secs.

(** * Properties *)

(** ** Reading through the descriptor *)

(** [w'] is [w] after reading [k] bytes: same contents, offset [k] further. *)
Definition advanced (w w' : world) (k : Z) : Prop :=
  file w' = file w /\ Z.of_nat (fpos w') = Z.of_nat (fpos w) + k.

Lemma advanced_refl w : advanced w w 0.
Proof. split; [done | lia]. Qed.

Lemma read_byte_some w b w' :
  read_byte w = Some (Some b, w') ->
  file w !! fpos w = Some b /\ w' = World (file w) (S (fpos w)) (out w).
Proof. unfold read_byte. destruct (file w !! fpos w); naive_solver. Qed.

Lemma read_byte_none w w' :
  read_byte w = Some (None, w') -> file w !! fpos w = None /\ w' = w.
Proof. unfold read_byte. destruct (file w !! fpos w); naive_solver. Qed.

Lemma read_byte_total w : exists r w', read_byte w = Some (r, w').
Proof. unfold read_byte. destruct (file w !! fpos w); eauto. Qed.

(** Case analysis on the outcome of a [read_byte] met in a hypothesis. *)
Ltac on_read_byte H :=
  let r := fresh "r" in
  let w := fresh "w" in
  let E := fresh "E" in
  match type of H with
  | context [read_byte ?w0] =>
    destruct (read_byte w0) as [[r w]|] eqn:E; [|discriminate H];
    destruct r; [apply read_byte_some in E | apply read_byte_none in E];
    destruct E as [? ->]; simpl in H
  end.

(** ** The ULEB128 reader *)

(** The cursor and the descriptor move together, the cursor never moves
    backwards and does not cross a boundary it was inside of. *)
Lemma uleb128_loop_effect n size shift result pos w r v pos' w' :
  uleb128_loop n size shift result pos w = Some (r, v, pos', w') ->
  advanced w w' (pos' - pos) /\ pos <= pos' /\
  (pos < size -> pos' <= size) /\ (size <= pos -> pos' = pos) /\
  (r = 0 \/ r = 1) /\ (r = 0 -> pos < size -> pos < pos').
Proof.
  revert shift result pos w.
  induction n as [|n IH]; intros shift result pos w H; simpl in H;
    destruct (Z.ltb_spec pos size) as [Hlt|Hge]; try discriminate H;
    try (injection H as <- <- <- <-;
         replace (pos - pos) with 0 by lia;
         split; [apply advanced_refl | lia]).
  unfold bind in H. on_read_byte H.
  - destruct (Z.land (byte_val b) 128 =? 0).
    + injection H as <- <- <- <-. split; [split; simpl; [done | lia] | lia].
    + destruct (Z.geb_spec (pos + 1) size) as [Hend|Hin]; simpl in H.
      * injection H as <- <- <- <-. split; [split; simpl; [done | lia] | lia].
      * apply IH in H as (Ha & ? & ? & ? & ? & ?).
        split; [|lia]. destruct Ha as [Hf Hp]. simpl in Hf, Hp.
        split; [done | lia].
  - injection H as <- <- <- <-. split; [split; simpl; [done | lia] | lia].
Qed.

(** The loop ends within as many iterations as bytes are left before the
    boundary. *)
Lemma uleb128_loop_total n size shift result pos w :
  size - pos <= Z.of_nat n ->
  exists x, uleb128_loop n size shift result pos w = Some x.
Proof.
  revert shift result pos w.
  induction n as [|n IH]; intros shift result pos w Hn; simpl;
    destruct (Z.ltb_spec pos size) as [Hlt|Hge]; try lia;
    try (eexists; reflexivity).
  unfold bind. destruct (read_byte_total w) as (r & w1 & E). rewrite E.
  destruct r as [b|]; simpl; [|eexists; reflexivity].
  destruct (Z.land (byte_val b) 128 =? 0); [eexists; reflexivity|].
  destruct (Z.geb_spec (pos + 1) size); simpl; [eexists; reflexivity|].
  apply IH. lia.
Qed.

Lemma parse_uleb128_effect fuel pos size w r v pos' w' :
  parse_uleb128 fuel pos size w = Some (r, v, pos', w') ->
  advanced w w' (pos' - pos) /\ pos <= pos' /\
  (pos < size -> pos' <= size) /\ (size <= pos -> pos' = pos) /\
  (r = 0 \/ r = 1) /\ (r = 0 -> pos < size -> pos < pos').
Proof. apply uleb128_loop_effect. Qed.

Lemma parse_uleb128_total fuel pos size w :
  size - pos <= Z.of_nat fuel ->
  exists x, parse_uleb128 fuel pos size w = Some x.
Proof. apply uleb128_loop_total. Qed.

(** ** The NTBS reader *)

Lemma ntbs_loop_effect n result result_size size i pos w r name pos' w' :
  ntbs_loop n result result_size size i pos w = Some (r, name, pos', w') ->
  advanced w w' (pos' - pos) /\ pos <= pos' /\
  (pos < size -> pos' <= size) /\ (size <= pos -> pos' = pos) /\
  (r = 0 \/ r = 1).
Proof.
  revert result i pos w.
  induction n as [|n IH]; intros result i pos w H; simpl in H;
    destruct (Z.ltb_spec pos size) as [Hlt|Hge]; try discriminate H;
    try (injection H as <- <- <- <-;
         replace (pos - pos) with 0 by lia;
         split; [apply advanced_refl | lia]).
  unfold bind in H. on_read_byte H.
  - destruct (byte_val b =? 0).
    + injection H as <- <- <- <-. split; [split; simpl; [done | lia] | lia].
    + destruct (Z.geb_spec (pos + 1) size) as [Hend|Hin]; simpl in H.
      * injection H as <- <- <- <-. split; [split; simpl; [done | lia] | lia].
      * apply IH in H as (Ha & ? & ? & ? & ?).
        split; [|lia]. destruct Ha as [Hf Hp]. simpl in Hf, Hp.
        split; [done | lia].
  - injection H as <- <- <- <-. split; [split; simpl; [done | lia] | lia].
Qed.

Lemma ntbs_loop_total n result result_size size i pos w :
  size - pos <= Z.of_nat n ->
  exists x, ntbs_loop n result result_size size i pos w = Some x.
Proof.
  revert result i pos w.
  induction n as [|n IH]; intros result i pos w Hn; simpl;
    destruct (Z.ltb_spec pos size) as [Hlt|Hge]; try lia;
    try (eexists; reflexivity).
  unfold bind. destruct (read_byte_total w) as (r & w1 & E). rewrite E.
  destruct r as [b|]; simpl; [|eexists; reflexivity].
  destruct (byte_val b =? 0); [eexists; reflexivity|].
  destruct (Z.geb_spec (pos + 1) size); simpl; [eexists; reflexivity|].
  apply IH. lia.
Qed.

Lemma parse_ntbs_effect fuel result result_size pos size w r name pos' w' :
  parse_ntbs fuel result result_size pos size w = Some (r, name, pos', w') ->
  advanced w w' (pos' - pos) /\ pos <= pos' /\
  (pos < size -> pos' <= size) /\ (size <= pos -> pos' = pos) /\
  (r = 0 \/ r = 1).
Proof. apply ntbs_loop_effect. Qed.

Lemma parse_ntbs_total fuel result result_size pos size w :
  size - pos <= Z.of_nat fuel ->
  exists x, parse_ntbs fuel result result_size pos size w = Some x.
Proof. apply ntbs_loop_total. Qed.

Lemma uleb128_loop_at_end n size shift result pos w :
  size <= pos -> uleb128_loop n size shift result pos w = Some (0, result, pos, w).
Proof.
  intros H. destruct n; simpl; destruct (Z.ltb_spec pos size); (lia || done).
Qed.

(** ** The "aeabi" subsection: cursor and termination *)

Lemma ids_loop_cursor fuel n size pos w r pos' w' :
  ids_loop fuel n size pos w = Some (r, pos', w') -> pos <= pos'.
Proof.
  revert pos w. induction n as [|n IH]; intros pos w H; simpl in H;
    [discriminate H|].
  unfold bind in H.
  destruct (parse_uleb128 fuel pos size w) as [[[[r1 id] pos1] w1]|] eqn:E;
    [|discriminate H].
  apply parse_uleb128_effect in E as (_ & ? & _).
  destruct (r1 =? 0); simpl in H; [|injection H as <- <- <-; lia].
  destruct (id =? 0); simpl in H; [injection H as <- <- <-; lia|].
  apply IH in H. lia.
Qed.

Lemma ids_loop_total fuel n size pos w :
  size - pos <= Z.of_nat fuel -> size - pos < Z.of_nat n -> (1 <= n)%nat ->
  exists x, ids_loop fuel n size pos w = Some x.
Proof.
  revert pos w. induction n as [|n IH]; intros pos w Hf Hn H1; [lia|].
  simpl. unfold bind.
  destruct (Z.le_gt_cases size pos) as [Hend|Hin].
  - unfold parse_uleb128. rewrite uleb128_loop_at_end by done. simpl.
    eexists; reflexivity.
  - destruct (parse_uleb128_total fuel pos size w) as ([[[r1 id] pos1] w1] & E);
      [lia|].
    rewrite E. apply parse_uleb128_effect in E as (_ & ? & ? & _ & _ & Hp).
    destruct (Z.eqb_spec r1 0) as [->|]; simpl; [|eexists; reflexivity].
    destruct (id =? 0); simpl; [eexists; reflexivity|].
    apply IH; lia.
Qed.

Lemma case_Tag_ABI_PCS_wchar_t_cursor fuel size wchar_size pos w r pos' w' :
  case_Tag_ABI_PCS_wchar_t fuel size wchar_size pos w = Some (r, pos', w') ->
  pos <= pos'.
Proof.
  unfold case_Tag_ABI_PCS_wchar_t, bind. intros H.
  destruct (parse_uleb128 fuel pos size w) as [[[[r1 v] pos1] w1]|] eqn:E;
    [|discriminate H].
  apply parse_uleb128_effect in E as (_ & ? & _).
  destruct (r1 =? 0); simpl in H; [|injection H as <- <- <-; lia].
  destruct (wchar_size >=? 0); simpl in H; [|injection H as <- <- <-; lia].
  repeat (match type of H with
          | match ?m ?w with _ => _ end = _ =>
            destruct (m w) as [[? ?]|]; [|discriminate H]
          | (if ?c then _ else _) _ = _ => destruct c; simpl in H
          | (if ?c then _ else _) = _ => destruct c; simpl in H
          end);
    injection H as <- <- <-; lia.
Qed.

Lemma case_Tag_ABI_PCS_wchar_t_total fuel size wchar_size pos w :
  size - pos <= Z.of_nat fuel ->
  exists x, case_Tag_ABI_PCS_wchar_t fuel size wchar_size pos w = Some x.
Proof.
  intros Hf. unfold case_Tag_ABI_PCS_wchar_t, bind.
  destruct (parse_uleb128_total fuel pos size w Hf) as ([[[r1 v] pos1] w1] & ->).
  destruct (r1 =? 0); simpl; [|eexists; reflexivity].
  destruct (wchar_size >=? 0); [|eexists; reflexivity].
  unfold lseek_cur, lseek_to, write_byte, printf, perror, ret.
  repeat first [ by eexists | progress simpl
               | match goal with
                 | |- context [if ?c then _ else _] => destruct c
                 end ].
Qed.

Lemma switch_attr_cursor fuel attr size wchar_size pos w r pos' w' :
  switch_attr fuel attr size wchar_size pos w = Some (r, pos', w') ->
  pos <= pos'.
Proof.
  unfold switch_attr, bind. intros H.
  repeat match type of H with
         | (if ?c then _ else _) _ = _ => destruct c
         end;
    try (by eapply case_Tag_ABI_PCS_wchar_t_cursor);
    match type of H with
    | context [parse_ntbs ?f ?b ?n ?p ?s ?w0] =>
      destruct (parse_ntbs f b n p s w0) as [[[[r1 v] pos1] w1]|] eqn:E;
        [|discriminate H];
      apply parse_ntbs_effect in E as (_ & ? & _)
    | context [parse_uleb128 ?f ?p ?s ?w0] =>
      destruct (parse_uleb128 f p s w0) as [[[[r1 v] pos1] w1]|] eqn:E;
        [|discriminate H];
      apply parse_uleb128_effect in E as (_ & ? & _)
    end;
    injection H as <- <- <-; lia.
Qed.

Lemma switch_attr_total fuel attr size wchar_size pos w :
  size - pos <= Z.of_nat fuel ->
  exists x, switch_attr fuel attr size wchar_size pos w = Some x.
Proof.
  intros Hf. unfold switch_attr, bind.
  repeat match goal with
         | |- exists _, (if ?c then _ else _) _ = _ => destruct c
         end;
    try (by apply case_Tag_ABI_PCS_wchar_t_total);
    match goal with
    | |- context [parse_ntbs ?f ?b ?n ?p ?s ?w0] =>
      destruct (parse_ntbs_total f b n p s w0 Hf) as ([[[r1 v] pos1] w1] & ->)
    | |- context [parse_uleb128 ?f ?p ?s ?w0] =>
      destruct (parse_uleb128_total f p s w0 Hf) as ([[[r1 v] pos1] w1] & ->)
    end;
    by eexists.
Qed.

Lemma attrs_loop_cursor fuel n size wchar_size pos w r pos' w' :
  attrs_loop fuel n size wchar_size pos w = Some (r, pos', w') -> pos <= pos'.
Proof.
  revert pos w. induction n as [|n IH]; intros pos w H; simpl in H;
    destruct (Z.ltb_spec pos size); try discriminate H;
    try (injection H as <- <- <-; lia).
  unfold bind in H.
  destruct (parse_uleb128 fuel pos size w) as [[[[r1 attr] pos1] w1]|] eqn:E;
    [|discriminate H].
  apply parse_uleb128_effect in E as (_ & ? & _).
  destruct (r1 =? 0); simpl in H; [|injection H as <- <- <-; lia].
  destruct (switch_attr fuel attr size wchar_size pos1 w1)
    as [[[r2 pos2] w2]|] eqn:E2; [|discriminate H].
  apply switch_attr_cursor in E2.
  destruct (r2 =? 0); simpl in H; [|injection H as <- <- <-; lia].
  apply IH in H. lia.
Qed.

Lemma attrs_loop_total fuel n size wchar_size pos w :
  size - pos <= Z.of_nat fuel -> size - pos <= Z.of_nat n ->
  exists x, attrs_loop fuel n size wchar_size pos w = Some x.
Proof.
  revert pos w. induction n as [|n IH]; intros pos w Hf Hn; simpl;
    destruct (Z.ltb_spec pos size); try lia; try (by eexists).
  unfold bind.
  destruct (parse_uleb128_total fuel pos size w Hf) as ([[[r1 attr] pos1] w1] & E).
  rewrite E. apply parse_uleb128_effect in E as (_ & ? & ? & _ & _ & Hp).
  destruct (Z.eqb_spec r1 0) as [->|]; simpl; [|by eexists].
  destruct (switch_attr_total fuel attr size wchar_size pos1 w1)
    as ([[r2 pos2] w2] & E2); [lia|].
  rewrite E2. apply switch_attr_cursor in E2.
  destruct (r2 =? 0); simpl; [|by eexists].
  apply IH; lia.
Qed.

(** A successful run of the subsection parser has moved the cursor past the
    indicator byte at least. *)
Lemma parse_eabi_attr_aeabi_subsection_cursor fuel pos size wchar_size w r pos' w' :
  parse_eabi_attr_aeabi_subsection fuel pos size wchar_size w = Some (r, pos', w') ->
  pos <= pos' /\ (r = 0 -> pos + 1 <= pos').
Proof.
  unfold parse_eabi_attr_aeabi_subsection. intros H.
  destruct (size <? 1); [injection H as <- <- <-; lia|].
  unfold bind in H. on_read_byte H; [|injection H as <- <- <-; lia].
  match type of H with
  | match ?m with _ => _ end = _ =>
    destruct m as [[[r1 pos1] w1]|] eqn:E; [|discriminate H]
  end.
  assert (pos + 1 <= pos1) as Hp1.
  { destruct (_ || _); [by eapply ids_loop_cursor|].
    injection E as <- <- <-. lia. }
  destruct (r1 =? 0); simpl in H; [|injection H as <- <- <-; lia].
  apply attrs_loop_cursor in H. lia.
Qed.

Lemma parse_eabi_attr_aeabi_subsection_total fuel pos size wchar_size w :
  size - pos <= Z.of_nat fuel -> (1 <= fuel)%nat ->
  exists x, parse_eabi_attr_aeabi_subsection fuel pos size wchar_size w = Some x.
Proof.
  intros Hf H1. unfold parse_eabi_attr_aeabi_subsection.
  destruct (size <? 1); [by eexists|].
  unfold bind. destruct (read_byte_total w) as (r & w1 & ->).
  destruct r as [tag|]; simpl; [|by eexists].
  assert (exists x, (if (byte_val tag =? 2) || (byte_val tag =? 3)
                     then ids_loop fuel fuel size (pos + 1)
                     else ret (0, pos + 1)) w1 = Some x /\ pos + 1 <= x.1.2)
    as ([[r1 pos1] w2] & -> & Hp1).
  { destruct (_ || _).
    - destruct (ids_loop_total fuel fuel size (pos + 1) w1) as ([[r1 pos1] w2] & E);
        [lia..|].
      rewrite E. eexists; split; [done|]. by apply ids_loop_cursor in E.
    - eexists; split; [done|]. simpl. lia. }
  simpl in Hp1. destruct (r1 =? 0); simpl; [|by eexists].
  apply attrs_loop_total; lia.
Qed.

(** ** The attributes section: progress and termination *)

Lemma byte_val_range b : 0 <= byte_val b < 256.
Proof.
  unfold byte_val. pose proof (Byte.to_N_bounded b). lia.
Qed.

Lemma le_val_nonneg bs : 0 <= le_val bs.
Proof.
  induction bs as [|b bs IH]; simpl; [lia|].
  pose proof (byte_val_range b). lia.
Qed.

Lemma read_advanced k w bs w' :
  read k w = Some (bs, w') -> advanced w w' (Z.of_nat (length bs)).
Proof. intros [= <- <-]. split; simpl; [done | lia]. Qed.

(** The relative seek over an unknown subsection cannot fail: its target is
    the start of the subsection's body plus what is left of it. *)
Lemma lseek_cur_forward off w :
  0 <= Z.of_nat (fpos w) + off ->
  exists w', lseek_cur off w = Some (Z.of_nat (fpos w) + off, w').
Proof.
  intros H. unfold lseek_cur, lseek_to.
  destruct (Z.ltb_spec (Z.of_nat (fpos w) + off) 0); [lia | by eexists].
Qed.

(** An iteration that does not fail has parsed an "aeabi" subsection, and
    its cursor has passed the length field, the name's first byte and the
    indicator byte. *)
Lemma section_loop_body_progress fuel sh_size wchar_size vendor_name pos w
    r name spos w' :
  section_loop_body fuel sh_size wchar_size vendor_name pos w
    = Some (r, name, spos, w') ->
  r = 0 -> 4 <= spos.
Proof.
  unfold section_loop_body. intros H Hr.
  destruct (_ >? _); [injection H as <- <- <- <-; lia|].
  unfold bind in H. destruct (read 4 w) as [[bs w1]|] eqn:E1; [|discriminate H].
  apply read_advanced in E1 as [_ Hp1].
  destruct (Z.eqb_spec (Z.of_nat (length bs)) 4) as [Hbs|]; simpl in H;
    [|injection H as <- <- <- <-; lia].
  destruct (_ >? _); [injection H as <- <- <- <-; lia|].
  destruct (parse_ntbs fuel (Some vendor_name) 128 4 (le_val bs) w1)
    as [[[[r2 name2] spos2] w2]|] eqn:E2; [|discriminate H].
  apply parse_ntbs_effect in E2 as ([_ Hp2] & Hs2 & _).
  destruct (r2 =? 0); simpl in H; [|injection H as <- <- <- <-; lia].
  destruct (strcmp _ _ =? 0).
  - destruct (parse_eabi_attr_aeabi_subsection fuel spos2 (le_val bs) wchar_size w2)
      as [[[r3 spos3] w3]|] eqn:E3; [|discriminate H].
    apply parse_eabi_attr_aeabi_subsection_cursor in E3 as [? _].
    injection H as <- <- <- <-. lia.
  - pose proof (le_val_nonneg bs).
    destruct (lseek_cur_forward (le_val bs - spos2) w2) as (w3 & E3); [lia|].
    rewrite E3 in H.
    destruct (Z.eqb_spec (Z.of_nat (fpos w2) + (le_val bs - spos2)) (-1)); [lia|].
    simpl in H. injection H as <- <- <- <-. lia.
Qed.

(** No iteration over a subsection of another vendor succeeds: after a
    successful iteration the name in [vendor_name] is "aeabi". *)
Lemma section_loop_body_success_is_aeabi fuel sh_size wchar_size vendor_name
    pos w name spos w' :
  section_loop_body fuel sh_size wchar_size vendor_name pos w
    = Some (0, name, spos, w') ->
  strcmp (c_str name) (list_byte_of_string "aeabi") = 0.
Proof.
  unfold section_loop_body. intros H.
  destruct (_ >? _); [discriminate H|].
  unfold bind in H. destruct (read 4 w) as [[bs w1]|] eqn:E1; [|discriminate H].
  apply read_advanced in E1 as [_ Hp1].
  destruct (Z.eqb_spec (Z.of_nat (length bs)) 4) as [Hbs|]; simpl in H;
    [|discriminate H].
  destruct (_ >? _); [discriminate H|].
  destruct (parse_ntbs fuel (Some vendor_name) 128 4 (le_val bs) w1)
    as [[[[r2 name2] spos2] w2]|] eqn:E2; [|discriminate H].
  apply parse_ntbs_effect in E2 as ([_ Hp2] & Hs2 & _).
  destruct (Z.eqb_spec r2 0) as [->|]; simpl in H;
    [|injection H as ? _ _ _; lia].
  destruct (Z.eqb_spec (strcmp (c_str (default vendor_name name2))
                               (list_byte_of_string "aeabi")) 0) as [Hcmp|].
  - destruct (parse_eabi_attr_aeabi_subsection fuel spos2 (le_val bs) wchar_size w2)
      as [[[r3 spos3] w3]|]; [|discriminate H].
    by injection H as _ <- _ _.
  - pose proof (le_val_nonneg bs).
    destruct (lseek_cur_forward (le_val bs - spos2) w2) as (w3 & E3); [lia|].
    rewrite E3 in H.
    destruct (Z.eqb_spec (Z.of_nat (fpos w2) + (le_val bs - spos2)) (-1)); [lia|].
    discriminate H.
Qed.

Lemma section_loop_body_total fuel sh_size wchar_size vendor_name pos w :
  sh_size <= Z.of_nat fuel -> (1 <= fuel)%nat -> 0 <= pos ->
  exists x, section_loop_body fuel sh_size wchar_size vendor_name pos w = Some x.
Proof.
  intros Hf H1 Hpos. unfold section_loop_body.
  destruct (_ >? _); [by eexists|].
  unfold bind. destruct (read 4 w) as [[bs w1]|] eqn:E1; [|discriminate E1].
  destruct (_ =? 4); simpl; [|by eexists].
  destruct (Z.gtb_spec (pos + le_val bs) sh_size); [by eexists|].
  destruct (parse_ntbs_total fuel (Some vendor_name) 128 4 (le_val bs) w1)
    as ([[[r2 name2] spos2] w2] & E2); [lia|].
  rewrite E2. apply parse_ntbs_effect in E2 as (_ & ? & _).
  destruct (r2 =? 0); simpl; [|by eexists].
  destruct (strcmp _ _ =? 0).
  - destruct (parse_eabi_attr_aeabi_subsection_total
                fuel spos2 (le_val bs) wchar_size w2)
      as ([[r3 spos3] w3] & ->); [lia | done | by eexists].
  - unfold lseek_cur, lseek_to, perror, ret.
    repeat first [ by eexists | progress simpl
                 | match goal with
                   | |- context [if ?c then _ else _] => destruct c
                   end ].
Qed.

Lemma section_loop_total fuel n sh_size wchar_size vendor_name pos w :
  sh_size <= Z.of_nat fuel -> (1 <= fuel)%nat -> 0 <= pos ->
  sh_size - pos <= Z.of_nat n ->
  exists x, section_loop fuel n sh_size wchar_size vendor_name pos w = Some x.
Proof.
  revert vendor_name pos w.
  induction n as [|n IH]; intros vendor_name pos w Hf H1 Hpos Hn; simpl;
    destruct (Z.ltb_spec pos sh_size); try lia; try (by eexists).
  unfold bind.
  destruct (section_loop_body_total fuel sh_size wchar_size vendor_name pos w)
    as ([[[r name] spos] w1] & E); [done..|].
  rewrite E.
  destruct (Z.eqb_spec r 0) as [Hr|]; simpl; [|by eexists].
  apply section_loop_body_progress in E; [|done].
  apply IH; lia.
Qed.

(** ** Decoding well-formed fields *)

Lemma drop_cons_lookup {A} (l : list A) k x r :
  drop k l = x :: r -> l !! k = Some x /\ drop (S k) l = r.
Proof.
  intros H. split.
  - replace k with (k + 0)%nat by lia. by rewrite <- lookup_drop, H.
  - replace (S k) with (k + 1)%nat by lia. by rewrite <- drop_drop, H.
Qed.

(** On a field of continuation bytes closed by a terminator inside the
    boundary, the loop succeeds, accumulates every byte and stops after the
    terminator. *)
Lemma uleb128_loop_field n size shift result pos w conts last rest :
  Forall continues conts -> terminates last ->
  drop (fpos w) (file w) = conts ++ last :: rest ->
  pos + Z.of_nat (length conts) + 1 <= size ->
  (length conts < n)%nat ->
  uleb128_loop n size shift result pos w =
    Some (0, uleb128_acc shift result (conts ++ [last]),
          pos + Z.of_nat (length conts) + 1,
          World (file w) (fpos w + length conts + 1) (out w)).
Proof.
  intros Hc Hl. revert n shift result pos w.
  induction Hc as [|c conts Hc _ IH]; intros n shift result pos w Hd Hs Hn;
    (destruct n as [|n]; [simpl in Hn; lia|]); simpl in *;
    (destruct (Z.ltb_spec pos size); [|lia]);
    apply drop_cons_lookup in Hd as [Hb Hd];
    unfold bind, read_byte; rewrite Hb.
  - unfold terminates in Hl. rewrite Hl. simpl. unfold ret.
    do 3 f_equal; [lia | f_equal; lia].
  - unfold continues in Hc. destruct (Z.eqb_spec (Z.land (byte_val c) 128) 0);
      [done|].
    destruct (Z.geb_spec (pos + 1) size); [lia|].
    rewrite IH; simpl; [|done|lia..].
    do 3 f_equal; [f_equal; lia | f_equal; lia].
Qed.

Lemma lor_disjoint a x s :
  0 <= a < 2 ^ s -> 0 <= s -> Z.lor a (x * 2 ^ s) = a + x * 2 ^ s.
Proof.
  intros Ha Hs.
  assert (Z.land a (x * 2 ^ s) = 0) as Hd.
  { apply Z.bits_inj'. intros n Hn. rewrite Z.land_spec, Z.bits_0.
    destruct (Z.lt_ge_cases n s).
    - rewrite Z.mul_pow2_bits_low by lia. apply andb_false_r.
    - destruct (Z.eq_dec a 0) as [->|]; [by rewrite Z.bits_0|].
      rewrite (Z.bits_above_log2 a n); [done | lia |].
      apply Z.log2_lt_pow2; [lia|].
      assert (2 ^ s <= 2 ^ n) by (apply Z.pow_le_mono_r; lia). lia. }
  rewrite <- Z.lxor_lor by done. symmetry. by apply Z.add_nocarry_lxor.
Qed.

Lemma low7_range b : 0 <= Z.land (byte_val b) 0x7f <= 127.
Proof.
  change (Z.land (byte_val b) 0x7f) with (Z.land (byte_val b) (Z.ones 7)).
  rewrite Z.land_ones by lia.
  change (2 ^ 7) with 128. pose proof (Z.mod_pos_bound (byte_val b) 128). lia.
Qed.

Lemma uleb128_sum_nonneg index bs : 0 <= index -> 0 <= uleb128_sum index bs.
Proof.
  revert index. induction bs as [|b bs IH]; intros index Hi; simpl; [lia|].
  pose proof (low7_range b). pose proof (IH (index + 1)).
  rewrite Z.shiftl_mul_pow2 by lia. nia.
Qed.

Lemma sint_small n z : 0 < n -> 0 <= z < 2 ^ (n - 1) -> sint n z = z.
Proof.
  intros Hn Hz. unfold sint.
  assert (2 ^ n = 2 * 2 ^ (n - 1)) as Hp.
  { rewrite <- Z.pow_succ_r by lia. f_equal. lia. }
  rewrite Z.mod_small by lia.
  destruct (Z.ltb_spec z (2 ^ (n - 1))); lia.
Qed.

(** Where every shift stays below 32 and no product leaves [int], the
    accumulated value is the sum the field stands for. *)
Lemma uleb128_acc_sum index result bs :
  0 <= index -> 0 <= result < 2 ^ (7 * index) ->
  index + Z.of_nat (length bs) <= 5 ->
  result + uleb128_sum index bs < 2 ^ 31 ->
  uleb128_acc (7 * index) result bs = result + uleb128_sum index bs.
Proof.
  revert index result.
  induction bs as [|b bs IH]; intros index result Hi Hr Hlen Hsum; simpl;
    [lia|].
  simpl in Hlen, Hsum.
  pose proof (low7_range b) as Hb.
  pose proof (uleb128_sum_nonneg (index + 1) bs ltac:(lia)) as Hrest.
  rewrite Z.shiftl_mul_pow2 in Hsum |- * by lia.
  set (x := Z.land (byte_val b) 127) in *.
  set (s := 7 * index) in *.
  assert (0 < 2 ^ s) by (apply Z.pow_pos_nonneg; lia).
  assert (shl_int x s = x * 2 ^ s) as ->.
  { unfold shl_int, to_int. rewrite Z.mod_small by lia.
    rewrite Z.shiftl_mul_pow2 by lia. apply sint_small; [lia|].
    change (2 ^ (32 - 1)) with (2 ^ 31). nia. }
  assert (to_ulong (x * 2 ^ s) = x * 2 ^ s) as ->.
  { unfold to_ulong. apply Z.mod_small.
    assert (2 ^ 31 < 2 ^ 64) by done. nia. }
  rewrite lor_disjoint by lia.
  replace (s + 7) with (7 * (index + 1)) by lia.
  assert (2 ^ (7 * (index + 1)) = 128 * 2 ^ s) as Hp.
  { replace (7 * (index + 1)) with (s + 7) by lia.
    rewrite Z.pow_add_r by lia. lia. }
  rewrite IH; [lia | lia | nia | lia | lia].
Qed.

Lemma sint_id n z : 0 < n -> - 2 ^ (n - 1) <= z < 2 ^ (n - 1) -> sint n z = z.
Proof.
  intros Hn Hz. unfold sint.
  assert (2 ^ n = 2 * 2 ^ (n - 1)) as Hp.
  { rewrite <- Z.pow_succ_r by lia. f_equal. lia. }
  destruct (Z.neg_nonneg_cases z).
  - replace (z mod 2 ^ n) with (z + 2 ^ n).
    + destruct (Z.ltb_spec (z + 2 ^ n) (2 ^ (n - 1))); lia.
    + apply Z.mod_unique with (-1); lia.
  - rewrite Z.mod_small by lia.
    destruct (Z.ltb_spec z (2 ^ (n - 1))); lia.
Qed.

Lemma parse_uleb128_field fuel pos size pre conts last rest o :
  Forall continues conts -> terminates last ->
  pos + Z.of_nat (length conts) + 1 <= size ->
  (length conts < fuel)%nat ->
  parse_uleb128 fuel pos size (World (pre ++ conts ++ last :: rest) (length pre) o) =
    Some (0, uleb128_acc 0 0 (conts ++ [last]),
          pos + Z.of_nat (length conts) + 1,
          World (pre ++ conts ++ last :: rest) (length pre + length conts + 1) o).
Proof.
  intros Hc Hl Hs Hn. unfold parse_uleb128.
  erewrite uleb128_loop_field; [done | done | done | | done | done].
  simpl. by rewrite drop_app_length.
Qed.

(** On a string without NUL closed by a NUL inside the boundary, the loop
    succeeds and stops after the NUL. *)
Lemma ntbs_loop_string n result result_size size i pos w s rest :
  Forall nonzero s ->
  drop (fpos w) (file w) = s ++ x00 :: rest ->
  pos + Z.of_nat (length s) + 1 <= size ->
  (length s < n)%nat ->
  ntbs_loop n result result_size size i pos w =
    Some (0,
          store (ntbs_stored result result_size i (s ++ [x00]))
                result_size (result_size - 1) x00,
          pos + Z.of_nat (length s) + 1,
          World (file w) (fpos w + length s + 1) (out w)).
Proof.
  intros Hs. revert n result i pos w.
  induction Hs as [|c s Hc _ IH]; intros n result i pos w Hd Hb Hn;
    (destruct n as [|n]; [simpl in Hn; lia|]); simpl in *;
    (destruct (Z.ltb_spec pos size); [|lia]);
    apply drop_cons_lookup in Hd as [Hx Hd];
    unfold bind, read_byte; rewrite Hx.
  - simpl. unfold ntbs_done, ret. do 3 f_equal; [lia | f_equal; lia].
  - unfold nonzero in Hc. destruct (Z.eqb_spec (byte_val c) 0); [done|].
    destruct (Z.geb_spec (pos + 1) size); [lia|].
    rewrite IH; simpl; [|done|lia..].
    do 3 f_equal; [lia | f_equal; lia].
Qed.

Lemma parse_ntbs_string fuel result result_size pos size pre s rest o :
  Forall nonzero s ->
  pos + Z.of_nat (length s) + 1 <= size ->
  (length s < fuel)%nat ->
  parse_ntbs fuel result result_size pos size
      (World (pre ++ s ++ x00 :: rest) (length pre) o) =
    Some (0,
          store (ntbs_stored result result_size 0 (s ++ [x00]))
                result_size (result_size - 1) x00,
          pos + Z.of_nat (length s) + 1,
          World (pre ++ s ++ x00 :: rest) (length pre + length s + 1) o).
Proof.
  intros Hs Hb Hn. unfold parse_ntbs.
  erewrite ntbs_loop_string; [done | done | | done | done].
  simpl. by rewrite drop_app_length.
Qed.

(** ** Tag 18 with a one-byte value *)

Lemma terminates_lt b : terminates b -> byte_val b < 128.
Proof.
  destruct b; vm_compute; intros H; (reflexivity || discriminate H).
Qed.

Lemma uleb128_acc_single b : terminates b -> uleb128_acc 0 0 [b] = byte_val b.
Proof.
  intros H. apply terminates_lt in H. pose proof (byte_val_range b).
  change (uleb128_acc 0 0 [b]) with (uleb128_acc (7 * 0) 0 [b]).
  rewrite uleb128_acc_sum; simpl; rewrite ?Z.shiftl_0_r.
  - change (Z.land (byte_val b) 127) with (Z.land (byte_val b) (Z.ones 7)).
    rewrite Z.land_ones, Z.mod_small by (change (2 ^ 7) with 128; lia). lia.
  - lia.
  - lia.
  - lia.
  - pose proof (low7_range b). lia.
Qed.

Lemma insert_middle {A} (l1 l2 : list A) x y :
  <[length l1 := y]> (l1 ++ x :: l2) = l1 ++ y :: l2.
Proof.
  replace (length l1) with (length l1 + 0)%nat by lia.
  by rewrite insert_app_r.
Qed.

(** The value byte is reported and, under a patch request, replaced. *)
Lemma case_Tag_ABI_PCS_wchar_t_single fuel size wchar_size pos pre v rest o :
  terminates v -> pos + 1 <= size -> (0 < fuel)%nat ->
  case_Tag_ABI_PCS_wchar_t fuel size wchar_size pos
      (World (pre ++ v :: rest) (length pre) o) =
    Some (0, pos + 1,
          World (pre ++ (if wchar_size >=? 0 then byte_of_Z wchar_size else v) :: rest)
                (length pre + 1)
                (o ++ [Printf "Tag_ABI_PCS_wchar_t = %ld" [AInt (byte_val v)];
                       if wchar_size >=? 0
                       then Printf ", patched to %d\n" [AInt wchar_size]
                       else Printf "\n" []])).
Proof.
  intros Hv Hs Hf. unfold case_Tag_ABI_PCS_wchar_t, bind.
  pose proof (parse_uleb128_field fuel pos size pre [] v rest o) as E.
  cbn [app length] in E. rewrite E by (done || lia). clear E.
  rewrite uleb128_acc_single by done.
  pose proof (terminates_lt v Hv) as Hlt.
  simpl. destruct (wchar_size >=? 0); simpl.
  - destruct (Z.gtb_spec (byte_val v) 127); [lia|]. simpl.
    unfold lseek_cur, lseek_to. simpl.
    destruct (Z.ltb_spec (Z.of_nat (length pre + 0 + 1) + -1) 0); [lia|].
    destruct (Z.eqb_spec (Z.of_nat (length pre + 0 + 1) + -1) (-1)); [lia|].
    unfold write_byte. simpl.
    replace (Z.to_nat (Z.of_nat (length pre + 0 + 1) + -1)) with (length pre)
      by lia.
    destruct (Nat.ltb_spec (length pre) (length (pre ++ v :: rest))) as [|Hge];
      [|rewrite length_app in Hge; simpl in Hge; lia].
    rewrite insert_middle. simpl. unfold ret.
    do 3 f_equal; first [lia | by rewrite <- !app_assoc].
  - unfold ret. do 3 f_equal; first [lia | by rewrite <- !app_assoc].
Qed.

(** Under a patch request the last byte of the value is overwritten whatever
    the value is: past the message for a value above 0x7f the code goes on to
    the seek and the write. *)
Lemma case_Tag_ABI_PCS_wchar_t_field fuel size wchar_size pos pre conts last
    rest o :
  Forall continues conts -> terminates last ->
  pos + Z.of_nat (length conts) + 1 <= size -> (length conts < fuel)%nat ->
  0 <= wchar_size ->
  case_Tag_ABI_PCS_wchar_t fuel size wchar_size pos
      (World (pre ++ conts ++ last :: rest) (length pre) o) =
    Some (0, pos + Z.of_nat (length conts) + 1,
          World (pre ++ conts ++ byte_of_Z wchar_size :: rest)
                (length pre + length conts + 1)
                (o ++ [Printf "Tag_ABI_PCS_wchar_t = %ld"
                              [AInt (uleb128_acc 0 0 (conts ++ [last]))]]
                   ++ (if uleb128_acc 0 0 (conts ++ [last]) >? 0x7f
                       then [Printf "Error: Unable to patch Tag_ABI_PCS_wchar_t: old value is too big.\n" []]
                       else [])
                   ++ [Printf ", patched to %d\n" [AInt wchar_size]])).
Proof.
  intros Hc Hl Hs Hf Hw. unfold case_Tag_ABI_PCS_wchar_t, bind.
  rewrite parse_uleb128_field by done.
  set (value := uleb128_acc 0 0 (conts ++ [last])).
  change (negb (0 =? 0)) with false. cbv iota beta.
  destruct (Z.geb_spec wchar_size 0); [|lia].
  unfold printf at 1. cbn [file fpos out].
  assert (forall w1, exists o1,
            (if value >? 127
             then printf "Error: Unable to patch Tag_ABI_PCS_wchar_t: old value is too big.\n" []
             else ret tt) w1 = Some (tt, World (file w1) (fpos w1) (out w1 ++ o1)) /\
            o1 = if value >? 127
                 then [Printf "Error: Unable to patch Tag_ABI_PCS_wchar_t: old value is too big.\n" []]
                 else []) as Hmsg.
  { intros [f1 p1 o1]. destruct (value >? 127); eexists; (split; [|done]).
    - done.
    - unfold ret. by rewrite app_nil_r. }
  destruct (Hmsg (World (pre ++ conts ++ last :: rest)
                        (length pre + length conts + 1)
                        (o ++ [Printf "Tag_ABI_PCS_wchar_t = %ld" [AInt value]])))
    as (o1 & -> & Ho1).
  cbn [file fpos out]. unfold lseek_cur, lseek_to. cbn [file fpos out].
  destruct (Z.ltb_spec (Z.of_nat (length pre + length conts + 1) + -1) 0); [lia|].
  destruct (Z.eqb_spec (Z.of_nat (length pre + length conts + 1) + -1) (-1));
    [lia|].
  unfold write_byte. cbn [file fpos out].
  replace (Z.to_nat (Z.of_nat (length pre + length conts + 1) + -1))
    with (length (pre ++ conts)) by (rewrite length_app; lia).
  rewrite (app_assoc pre conts).
  destruct (Nat.ltb_spec (length (pre ++ conts))
                         (length ((pre ++ conts) ++ last :: rest))) as [|Hge];
    [|rewrite length_app in Hge; simpl in Hge; lia].
  rewrite insert_middle. change (negb (1 =? 1)) with false. cbv iota beta.
  unfold printf, ret. cbn [file fpos out]. subst o1.
  do 3 f_equal; [by rewrite <- app_assoc | rewrite length_app; lia |].
  by rewrite <- !app_assoc.
Qed.

(** ** One attribute *)

Lemma length_encode_patch wchar_size a :
  wf_attribute a ->
  length (encode_attribute (patch_attribute wchar_size a)) =
  length (encode_attribute a).
Proof.
  intros (_ & _ & Hp). unfold patch_attribute.
  destruct (kind_of (tag_of a)); try done.
  destruct (wchar_size >=? 0); [|done].
  destruct a as [tc tl [s|[|c conts] l]]; simpl in *; try done.
  unfold encode_attribute. simpl. by rewrite !length_app.
Qed.

(** Lists and lengths in normal form, and the equality of two calls of a
    loop that differ in the writing of their cursor and world. *)
Ltac norm_lists :=
  repeat progress (rewrite ?app_nil_r, ?length_app, <- ?app_assoc; simpl).

Ltac same_loop :=
  f_equal; [norm_lists; lia | f_equal; norm_lists; (done || lia)].

(** The world with the descriptor after [pre ++ xs]. *)
Lemma world_after pre xs ys p o :
  p = (length pre + length xs)%nat ->
  World (pre ++ xs ++ ys) p o = World ((pre ++ xs) ++ ys) (length (pre ++ xs)) o.
Proof. intros ->. by rewrite length_app, app_assoc. Qed.

(** The attribute loop on a well-formed attribute: the tag and its payload
    are consumed, the value of tag 18 is reported and patched, and the loop
    goes on behind the attribute. *)
Lemma attrs_loop_attribute fuel n size wchar_size pos pre a rest o :
  wf_attribute a ->
  pos + Z.of_nat (length (encode_attribute a)) <= size ->
  (length (encode_attribute a) <= fuel)%nat ->
  attrs_loop fuel (S n) size wchar_size pos
      (World (pre ++ encode_attribute a ++ rest) (length pre) o) =
    attrs_loop fuel n size wchar_size
      (pos + Z.of_nat (length (encode_attribute a)))
      (World (pre ++ encode_attribute (patch_attribute wchar_size a) ++ rest)
             (length pre + length (encode_attribute a))
             (o ++ report wchar_size a)).
Proof.
  intros (Hc & Hl & Hp) Hs Hf.
  destruct a as [tc tl p]. unfold encode_attribute in *.
  unfold patch_attribute, report, tag_of in *. simpl in Hc, Hl, Hp, Hs, Hf |- *.
  rewrite length_app in Hs, Hf. simpl in Hs, Hf.
  destruct (Z.ltb_spec pos size); [|lia].
  unfold bind. rewrite <- app_assoc. simpl.
  rewrite parse_uleb128_field by (done || lia). simpl.
  change (tl :: encode_payload p ++ rest) with ([tl] ++ encode_payload p ++ rest).
  rewrite (app_assoc tc), world_after by (rewrite length_app; simpl; lia).
  set (pre' := pre ++ tc ++ [tl]).
  assert (length pre' = (length pre + length tc + 1)%nat) as Hpre'.
  { unfold pre'. rewrite !length_app. simpl. lia. }
  set (attr := uleb128_acc 0 0 (tc ++ [tl])) in *.
  unfold switch_attr, kind_of in *.
  destruct ((attr =? 4) || (attr =? 5) || (attr =? 67) || (attr =? 32));
    [|destruct (attr =? 18);
      [|destruct (attr >? 32); [destruct (attr mod 2 =? 0)|]]];
    destruct p as [s|conts last]; simpl in Hp; try done.
  all: unfold bind; simpl encode_payload in *; rewrite ?length_app in Hs, Hf;
    simpl in Hs, Hf.
  - (* a string-valued tag of the switch *)
    rewrite <- (app_assoc s). simpl.
    rewrite parse_ntbs_string by (done || lia). simpl. subst pre'. same_loop.
  - (* tag 18 *)
    destruct conts; [|done]. simpl.
    rewrite case_Tag_ABI_PCS_wchar_t_single by (done || lia). simpl.
    subst pre'. destruct (wchar_size >=? 0); same_loop.
  - (* an even tag above 32 *)
    destruct Hp as [Hpc Hpl].
    rewrite <- (app_assoc conts). simpl.
    rewrite parse_uleb128_field by (done || lia). simpl. subst pre'. same_loop.
  - (* an odd tag above 32 *)
    rewrite <- (app_assoc s). simpl.
    rewrite parse_ntbs_string by (done || lia). simpl. subst pre'. same_loop.
  - (* another tag up to 32 *)
    destruct Hp as [Hpc Hpl].
    rewrite <- (app_assoc conts). simpl.
    rewrite parse_uleb128_field by (done || lia). simpl. subst pre'. same_loop.
Qed.

(** ** A subsection of well-formed attributes *)

Lemma length_encode_patch_attributes wchar_size l :
  Forall wf_attribute l ->
  length (encode_attributes (map (patch_attribute wchar_size) l)) =
  length (encode_attributes l).
Proof.
  induction 1 as [|a l Ha _ IH]; [done|].
  unfold encode_attributes in *. simpl. rewrite !length_app, IH.
  by rewrite length_encode_patch.
Qed.

Lemma attrs_loop_attributes fuel n size wchar_size pos pre l rest o :
  Forall wf_attribute l ->
  pos + Z.of_nat (length (encode_attributes l)) <= size ->
  (length (encode_attributes l) <= fuel)%nat ->
  attrs_loop fuel (length l + n) size wchar_size pos
      (World (pre ++ encode_attributes l ++ rest) (length pre) o) =
    attrs_loop fuel n size wchar_size
      (pos + Z.of_nat (length (encode_attributes l)))
      (World (pre ++ encode_attributes (map (patch_attribute wchar_size) l) ++ rest)
             (length pre + length (encode_attributes l))
             (o ++ flat_map (report wchar_size) l)).
Proof.
  intros Hl. revert pos pre o.
  induction Hl as [|a l Ha _ IH]; intros pos pre o Hs Hf.
  - simpl. same_loop.
  - unfold encode_attributes in *. cbn [flat_map map length Nat.add] in *.
    rewrite length_app in Hs, Hf.
    rewrite <- app_assoc, attrs_loop_attribute by (done || lia).
    rewrite world_after by (by rewrite length_encode_patch).
    rewrite IH by lia.
    rewrite length_app, length_encode_patch by done. same_loop.
Qed.

Lemma attrs_loop_attributes_le fuel n size wchar_size pos pre l rest o :
  Forall wf_attribute l ->
  pos + Z.of_nat (length (encode_attributes l)) <= size ->
  (length (encode_attributes l) <= fuel)%nat -> (length l <= n)%nat ->
  attrs_loop fuel n size wchar_size pos
      (World (pre ++ encode_attributes l ++ rest) (length pre) o) =
    attrs_loop fuel (n - length l) size wchar_size
      (pos + Z.of_nat (length (encode_attributes l)))
      (World (pre ++ encode_attributes (map (patch_attribute wchar_size) l) ++ rest)
             (length pre + length (encode_attributes l))
             (o ++ flat_map (report wchar_size) l)).
Proof.
  intros Hl Hs Hf Hn.
  rewrite <- attrs_loop_attributes by done. f_equal. lia.
Qed.

Lemma attrs_loop_end fuel n size wchar_size pos w :
  size <= pos -> attrs_loop fuel n size wchar_size pos w = Some (0, pos, w).
Proof.
  intros H. destruct n; simpl; destruct (Z.ltb_spec pos size); (lia || done).
Qed.

Lemma ids_loop_ids fuel n size pos pre l rest o :
  wf_ids l ->
  pos + Z.of_nat (length l) <= size ->
  (length l <= fuel)%nat -> (length l <= n)%nat ->
  ids_loop fuel n size pos (World (pre ++ l ++ rest) (length pre) o) =
    Some (0, pos + Z.of_nat (length l),
          World (pre ++ l ++ rest) (length pre + length l) o).
Proof.
  intros Hl. revert n pos pre.
  induction Hl as [conts last Hc Ht Hz|conts last l Hc Ht Hnz _ IH];
    intros n pos pre Hs Hf Hn; rewrite length_app in Hs, Hf, Hn;
    simpl in Hs, Hf, Hn; (destruct n as [|n]; [lia|]); simpl; unfold bind;
    rewrite <- app_assoc; simpl;
    rewrite parse_uleb128_field by (done || lia).
  - rewrite Hz. simpl. unfold ret. do 3 f_equal; norm_lists; (done || lia).
  - destruct (Z.eqb_spec (uleb128_acc 0 0 (conts ++ [last])) 0); [done|]. simpl.
    change (last :: l ++ rest) with ([last] ++ l ++ rest).
    rewrite (app_assoc conts), world_after by (rewrite length_app; simpl; lia).
    rewrite IH by lia. do 3 f_equal; norm_lists; (done || lia).
Qed.

Lemma read_byte_middle pre x rest o :
  read_byte (World (pre ++ x :: rest) (length pre) o) =
    Some (Some x, World (pre ++ x :: rest) (S (length pre)) o).
Proof. unfold read_byte. simpl. by rewrite list_lookup_middle. Qed.

Lemma length_encode_attributes_ge l :
  (length l <= length (encode_attributes l))%nat.
Proof.
  induction l as [|a l IH]; [done|].
  unfold encode_attributes, encode_attribute in *. simpl.
  rewrite !length_app. simpl. lia.
Qed.

Lemma length_encode_body_patch wchar_size s :
  wf_subsection s ->
  length (encode_body (patch_subsection wchar_size s)) = length (encode_body s).
Proof.
  intros (_ & Ha & _). unfold encode_body. simpl.
  by rewrite !length_app, length_encode_patch_attributes.
Qed.

(** The subsection parser on a well-formed body that fills the subsection. *)
Lemma parse_eabi_attr_aeabi_subsection_body fuel pos size wchar_size
    pre s rest o :
  wf_subsection s -> 0 <= pos ->
  size = pos + Z.of_nat (length (encode_body s)) ->
  (length (encode_body s) <= fuel)%nat ->
  parse_eabi_attr_aeabi_subsection fuel pos size wchar_size
      (World (pre ++ encode_body s ++ rest) (length pre) o) =
    Some (0, size,
          World (pre ++ encode_body (patch_subsection wchar_size s) ++ rest)
                (length pre + length (encode_body s))
                (o ++ flat_map (report wchar_size) (attrs s))).
Proof.
  intros (Hi & Ha & _) Hpos -> Hf.
  destruct s as [tag l al]. unfold encode_body in *. simpl in Hi, Ha, Hf |- *.
  rewrite length_app in Hf |- *.
  unfold parse_eabi_attr_aeabi_subsection.
  destruct (Z.ltb_spec (pos + Z.of_nat (S (length l + length (encode_attributes al)))) 1);
    [lia|].
  unfold bind. rewrite read_byte_middle.
  change (tag :: (l ++ encode_attributes al) ++ rest)
    with ([tag] ++ (l ++ encode_attributes al) ++ rest).
  rewrite world_after by (simpl; lia).
  rewrite <- (app_assoc l).
  match goal with
  | |- match (if ?c then _ else _) _ with _ => _ end = _ =>
    assert ((if c then
               ids_loop fuel fuel
                 (pos + Z.of_nat (S (length l + length (encode_attributes al))))
                 (pos + 1)
             else ret (0, pos + 1))
              (World ((pre ++ [tag]) ++ l ++ encode_attributes al ++ rest)
                     (length (pre ++ [tag])) o) =
            Some (0, pos + 1 + Z.of_nat (length l),
                  World ((pre ++ [tag]) ++ l ++ encode_attributes al ++ rest)
                        (length (pre ++ [tag]) + length l) o)) as ->
  end.
  { destruct (_ || _).
    - rewrite ids_loop_ids by (done || lia). done.
    - subst l. unfold ret. do 3 f_equal; simpl; lia. }
  change (negb (0 =? 0)) with false. cbv iota beta.
  rewrite world_after by done.
  pose proof (length_encode_attributes_ge al) as Hal.
  rewrite attrs_loop_attributes_le by (done || lia).
  rewrite attrs_loop_end by lia.
  do 3 f_equal; norm_lists; (done || lia).
Qed.

(** ** A section of well-formed subsections *)

Lemma byte_val_of_Z z : byte_val (byte_of_Z z) = z mod 256.
Proof.
  unfold byte_val, byte_of_Z.
  pose proof (Z.mod_pos_bound z 256 ltac:(lia)) as Hz.
  destruct (Byte.of_N (Z.to_N (z mod 256))) as [b|] eqn:E.
  - apply Byte.to_of_N in E. rewrite E. lia.
  - apply Byte.of_N_None_iff in E. lia.
Qed.

Lemma le_val_le_bytes n z :
  0 <= z < 256 ^ Z.of_nat n -> le_val (le_bytes n z) = z.
Proof.
  revert z. induction n as [|n IH]; intros z Hz.
  - simpl in *. lia.
  - simpl le_bytes. simpl le_val. rewrite byte_val_of_Z.
    rewrite Nat2Z.inj_succ, Z.pow_succ_r in Hz by lia.
    rewrite IH.
    + pose proof (Z.div_mod z 256). lia.
    + split; [apply Z.div_pos; lia|].
      apply Z.div_lt_upper_bound; lia.
Qed.

Lemma length_le_bytes n z : length (le_bytes n z) = n.
Proof. revert z. induction n as [|n IH]; intros z; simpl; [done|]. by rewrite IH. Qed.

Lemma read_middle k pre bs rest o :
  length bs = k ->
  read k (World (pre ++ bs ++ rest) (length pre) o) =
    Some (bs, World (pre ++ bs ++ rest) (length pre + k) o).
Proof.
  intros <-. unfold read. simpl.
  by rewrite drop_app_length, take_app_length.
Qed.

Lemma length_vendor_after v : length (vendor_after v) = length v.
Proof.
  unfold vendor_after, store. simpl.
  repeat (destruct (_ <? _); simpl); by rewrite ?length_insert.
Qed.

Lemma vendor_after_aeabi v :
  (6 <= length v)%nat ->
  strcmp (c_str (vendor_after v)) (list_byte_of_string "aeabi") = 0.
Proof.
  intros H. do 6 (destruct v as [|? v]; [simpl in H; lia|]).
  unfold vendor_after. vm_compute store.
  reflexivity.
Qed.

Lemma length_encode_subsection s :
  length (encode_subsection s) = (10 + length (encode_body s))%nat.
Proof.
  unfold encode_subsection. rewrite !length_app, length_le_bytes. simpl. lia.
Qed.

Lemma length_encode_subsection_patch wchar_size s :
  wf_subsection s ->
  length (encode_subsection (patch_subsection wchar_size s)) =
  length (encode_subsection s).
Proof.
  intros H. by rewrite !length_encode_subsection, length_encode_body_patch.
Qed.

(** One iteration of the walker on a well-formed "aeabi" subsection. *)
Lemma section_loop_body_subsection fuel sh_size wchar_size vendor_name pos
    pre s rest o :
  wf_subsection s -> 0 <= pos ->
  pos + Z.of_nat (length (encode_subsection s)) <= sh_size ->
  (length (encode_subsection s) <= fuel)%nat ->
  (6 <= length vendor_name)%nat ->
  section_loop_body fuel sh_size wchar_size vendor_name pos
      (World (pre ++ encode_subsection s ++ rest) (length pre) o) =
    Some (0, vendor_after vendor_name,
          Z.of_nat (length (encode_subsection s)),
          World (pre ++ encode_subsection (patch_subsection wchar_size s) ++ rest)
                (length pre + length (encode_subsection s))
                (o ++ flat_map (report wchar_size) (attrs s))).
Proof.
  intros Hwf Hpos Hs Hf Hv.
  pose proof Hwf as (_ & _ & Hlen).
  pose proof (length_encode_body_patch wchar_size s Hwf) as Hpatch.
  rewrite length_encode_subsection in Hs, Hf |- *.
  unfold section_loop_body.
  destruct (Z.gtb_spec (pos + 4) sh_size); [lia|].
  unfold bind, encode_subsection.
  set (L := Z.of_nat (10 + length (encode_body s))) in *.
  rewrite <- (app_assoc (le_bytes 4 L)).
  rewrite read_middle by apply length_le_bytes.
  rewrite length_le_bytes.
  change (negb (Z.of_nat 4 =? 4)) with false. cbv iota beta.
  rewrite le_val_le_bytes by (change (256 ^ Z.of_nat 4) with (2 ^ 32); lia).
  destruct (Z.gtb_spec (pos + L) sh_size); [lia|].
  unfold bind.
  rewrite world_after by (by rewrite length_le_bytes).
  rewrite <- (app_assoc (list_byte_of_string "aeabi")).
  change ((x00 :: encode_body s) ++ rest)
    with (x00 :: encode_body s ++ rest).
  rewrite parse_ntbs_string;
    [|repeat constructor; by vm_compute | simpl; lia | simpl; lia].
  fold (vendor_after vendor_name).
  change (default vendor_name
            (store (ntbs_stored (Some vendor_name) 128 0
                                (list_byte_of_string "aeabi" ++ [x00]))
                   128 (128 - 1) x00))
    with (vendor_after vendor_name).
  change (negb (0 =? 0)) with false. cbv iota beta.
  rewrite vendor_after_aeabi by done.
  change (0 =? 0) with true. cbv iota beta.
  change (x00 :: encode_body s ++ rest) with ([x00] ++ encode_body s ++ rest).
  rewrite (app_assoc (list_byte_of_string "aeabi")).
  rewrite world_after by (simpl; lia).
  change (length (list_byte_of_string "aeabi")) with 5%nat.
  rewrite parse_eabi_attr_aeabi_subsection_body by (done || (unfold L; lia)).
  unfold ret. do 3 f_equal.
  - rewrite Hpatch. fold L. norm_lists. done.
  - norm_lists. rewrite ?length_le_bytes. simpl. lia.
Qed.

Lemma section_loop_end fuel n sh_size wchar_size vendor_name pos w :
  sh_size <= pos ->
  section_loop fuel n sh_size wchar_size vendor_name pos w = Some (0, w).
Proof.
  intros H. destruct n; simpl; destruct (Z.ltb_spec pos sh_size); (lia || done).
Qed.

Lemma length_encode_subsections_patch wchar_size l :
  Forall wf_subsection l ->
  length (flat_map encode_subsection (map (patch_subsection wchar_size) l)) =
  length (flat_map encode_subsection l).
Proof.
  induction 1 as [|s l Hs _ IH]; [done|]. cbn [flat_map map].
  by rewrite !length_app, IH, length_encode_subsection_patch.
Qed.

Lemma length_encode_subsections_ge l :
  (length l <= length (flat_map encode_subsection l))%nat.
Proof.
  induction l as [|s l IH]; [done|]. cbn [flat_map length].
  rewrite length_app, length_encode_subsection. lia.
Qed.

(** The walker's loop on well-formed "aeabi" subsections. *)
Lemma section_loop_subsections fuel n sh_size wchar_size vendor_name pos
    pre l rest o :
  Forall wf_subsection l -> 0 <= pos ->
  pos + Z.of_nat (length (flat_map encode_subsection l)) <= sh_size ->
  (length (flat_map encode_subsection l) <= fuel)%nat ->
  (length l <= n)%nat -> (6 <= length vendor_name)%nat ->
  exists vendor_name',
    section_loop fuel n sh_size wchar_size vendor_name pos
        (World (pre ++ flat_map encode_subsection l ++ rest) (length pre) o) =
      section_loop fuel (n - length l) sh_size wchar_size vendor_name'
        (pos + Z.of_nat (length (flat_map encode_subsection l)))
        (World (pre ++ flat_map encode_subsection
                         (map (patch_subsection wchar_size) l) ++ rest)
               (length pre + length (flat_map encode_subsection l))
               (o ++ report_section wchar_size l)).
Proof.
  intros Hl. revert n vendor_name pos pre o.
  induction Hl as [|s l Hs _ IH]; intros n vendor_name pos pre o Hpos Hb Hf Hn Hv.
  - exists vendor_name. simpl. rewrite Nat.sub_0_r. same_loop.
  - cbn [flat_map map length] in *. rewrite length_app in Hb, Hf.
    pose proof (length_encode_subsection s) as Hlen.
    destruct n as [|n]; [lia|].
    destruct (IH n (vendor_after vendor_name)
                 (pos + Z.of_nat (length (encode_subsection s)))
                 (pre ++ encode_subsection (patch_subsection wchar_size s))
                 (o ++ flat_map (report wchar_size) (attrs s)))
      as (v' & E); [lia | lia | lia | lia | by rewrite length_vendor_after |].
    exists v'. cbn [section_loop].
    destruct (Z.ltb_spec pos sh_size); [|lia].
    unfold bind at 1. rewrite <- app_assoc.
    rewrite section_loop_body_subsection by (done || lia).
    change (negb (0 =? 0)) with false. cbv iota beta.
    rewrite world_after by (by rewrite length_encode_subsection_patch).
    rewrite E. rewrite length_app, length_encode_subsection_patch by done.
    unfold report_section. cbn [flat_map]. same_loop.
Qed.

(** The walker on a section of well-formed "aeabi" subsections: it succeeds,
    prints the value of every tag 18 and, under a patch request, has
    replaced every value byte of tag 18 and nothing else. *)
Lemma parse_eabi_attr_section_subsections fuel wchar_size vendor_name
    pre l rest o :
  Forall wf_subsection l ->
  (length (encode_section l) <= fuel)%nat ->
  (6 <= length vendor_name)%nat ->
  parse_eabi_attr_section fuel (Z.of_nat (length (encode_section l)))
      wchar_size vendor_name
      (World (pre ++ encode_section l ++ rest) (length pre) o) =
    Some (0,
          World (pre ++ encode_section (map (patch_subsection wchar_size) l) ++ rest)
                (length pre + length (encode_section l))
                (o ++ report_section wchar_size l)).
Proof.
  intros Hl Hf Hv. unfold encode_section in *. cbn [length] in *.
  unfold parse_eabi_attr_section.
  destruct (Z.ltb_spec (Z.of_nat (S (length (flat_map encode_subsection l)))) 1);
    [lia|].
  unfold bind, ret. cbn [app]. rewrite read_byte_middle.
  change (negb (byte_val (byte_of_Z 65) =? 65)) with false. cbv iota beta.
  change (byte_of_Z 65 :: flat_map encode_subsection l ++ rest)
    with ([byte_of_Z 65] ++ flat_map encode_subsection l ++ rest).
  rewrite world_after by (simpl; lia).
  pose proof (length_encode_subsections_ge l).
  destruct (section_loop_subsections fuel fuel
              (Z.of_nat (S (length (flat_map encode_subsection l))))
              wchar_size vendor_name 1 (pre ++ [byte_of_Z 65]) l rest o)
    as (v' & ->); [done | lia | lia | lia | lia | done |].
  rewrite section_loop_end by lia.
  do 2 f_equal. f_equal; norm_lists; (done || lia).
Qed.

(** ** The patched section *)

Lemma terminates_byte_of_Z z : 0 <= z <= 0x7f -> terminates (byte_of_Z z).
Proof.
  intros Hz. unfold terminates. rewrite byte_val_of_Z, Z.mod_small by lia.
  apply Z.bits_inj'. intros n Hn. rewrite Z.land_spec, Z.bits_0.
  change 0x80 with (2 ^ 7). rewrite Z.pow2_bits_eqb by lia.
  destruct (Z.eqb_spec 7 n) as [<-|]; [|apply andb_false_r].
  rewrite andb_true_r. apply Z.testbit_false; [lia|].
  rewrite Z.div_small; [done|]. change (2 ^ 7) with 128. lia.
Qed.

Lemma tag_of_patch wchar_size a :
  tag_of (patch_attribute wchar_size a) = tag_of a.
Proof.
  unfold patch_attribute. destruct (kind_of (tag_of a)); try done.
  by destruct (wchar_size >=? 0).
Qed.

Lemma wf_patch_attribute wchar_size a :
  0 <= wchar_size <= 0x7f -> wf_attribute a ->
  wf_attribute (patch_attribute wchar_size a).
Proof.
  intros Hw (Hc & Hl & Hp). unfold wf_attribute.
  rewrite tag_of_patch. unfold patch_attribute.
  destruct (kind_of (tag_of a)) eqn:Hk; try done.
  destruct (wchar_size >=? 0); [|done]. simpl.
  split; [done|]. split; [done|]. by apply terminates_byte_of_Z.
Qed.

Lemma wf_patch_subsection wchar_size s :
  0 <= wchar_size <= 0x7f -> wf_subsection s ->
  wf_subsection (patch_subsection wchar_size s).
Proof.
  intros Hw Hs. pose proof (length_encode_body_patch wchar_size s Hs) as Hlen.
  destruct Hs as (Hi & Ha & Hb). unfold wf_subsection. rewrite Hlen.
  split; [done|]. split; [|done]. simpl.
  apply Forall_fmap. eapply Forall_impl; [exact Ha|].
  intros a. by apply wf_patch_attribute.
Qed.

Lemma kind_of_wchar_t attr : kind_of attr = Wchar_t <-> attr = 18.
Proof.
  unfold kind_of. split.
  - destruct (_ || _); [done|].
    destruct (Z.eqb_spec attr 18); [done|].
    destruct (attr >? 32); [|done]. by destruct (attr mod 2 =? 0).
  - by intros ->.
Qed.

Lemma patch_attribute_other wchar_size a :
  no_wchar_t a -> patch_attribute wchar_size a = a.
Proof.
  unfold no_wchar_t, patch_attribute. intros H.
  destruct (kind_of (tag_of a)) eqn:E; try done.
  by apply kind_of_wchar_t in E.
Qed.

Lemma report_other wchar_size a : no_wchar_t a -> report wchar_size a = [].
Proof.
  unfold no_wchar_t, report. intros H.
  destruct (kind_of (tag_of a)) eqn:E; try done.
  by apply kind_of_wchar_t in E.
Qed.

Lemma patch_attributes_other wchar_size l :
  Forall no_wchar_t l -> map (patch_attribute wchar_size) l = l.
Proof.
  induction 1 as [|a l Ha _ IH]; [done|]. simpl.
  by rewrite IH, patch_attribute_other.
Qed.

Lemma report_attributes_other wchar_size l :
  Forall no_wchar_t l -> flat_map (report wchar_size) l = [].
Proof.
  induction 1 as [|a l Ha _ IH]; [done|]. simpl.
  by rewrite IH, report_other.
Qed.

Lemma patch_subsections_other wchar_size l :
  Forall (fun s => Forall no_wchar_t (attrs s)) l ->
  map (patch_subsection wchar_size) l = l.
Proof.
  induction 1 as [|s l Hs _ IH]; [done|]. simpl. rewrite IH.
  unfold patch_subsection. rewrite patch_attributes_other by done.
  by destruct s.
Qed.

Lemma report_section_other wchar_size l :
  Forall (fun s => Forall no_wchar_t (attrs s)) l ->
  report_section wchar_size l = [].
Proof.
  induction 1 as [|s l Hs _ IH]; [done|]. unfold report_section in *. simpl.
  by rewrite IH, report_attributes_other.
Qed.

Lemma encode_attributes_app l1 l2 :
  encode_attributes (l1 ++ l2) = encode_attributes l1 ++ encode_attributes l2.
Proof. unfold encode_attributes. by rewrite flat_map_app. Qed.

Lemma encode_attributes_wchar_t al1 tc tl c al2 :
  encode_attributes (al1 ++ Attribute tc tl (Uleb [] c) :: al2) =
  encode_attributes al1 ++ tc ++ tl :: c :: encode_attributes al2.
Proof.
  rewrite encode_attributes_app. f_equal.
  unfold encode_attributes. cbn [flat_map]. unfold encode_attribute at 1.
  simpl. by rewrite <- app_assoc.
Qed.

Lemma encode_subsection_wchar_t ind nums al1 tc tl c al2 :
  encode_subsection
    (Subsection ind nums (al1 ++ Attribute tc tl (Uleb [] c) :: al2)) =
  le_bytes 4 (Z.of_nat (13 + length nums + length (encode_attributes al1)
                        + length tc + length (encode_attributes al2)))
    ++ list_byte_of_string "aeabi" ++ x00 :: ind :: nums
    ++ encode_attributes al1 ++ tc ++ tl :: c :: encode_attributes al2.
Proof.
  unfold encode_subsection, encode_body. cbn [indicator ids attrs].
  rewrite encode_attributes_wchar_t. f_equal.
  f_equal. f_equal. cbn [length]. rewrite !length_app. cbn [length]. lia.
Qed.

(** The section around the value byte of its tag 18: what precedes and what
    follows that byte does not depend on it. *)
Lemma encode_section_with_wchar_t l1 ind nums al1 tc tl al2 l2 :
  exists X Y,
    length X = value_offset l1 nums al1 tc /\
    forall c,
      encode_section (with_wchar_t l1 ind nums al1 tc tl c al2 l2) = X ++ c :: Y.
Proof.
  set (L := Z.of_nat (13 + length nums + length (encode_attributes al1)
                      + length tc + length (encode_attributes al2))).
  exists (byte_of_Z 65 :: flat_map encode_subsection l1 ++ le_bytes 4 L
            ++ list_byte_of_string "aeabi" ++ x00 :: ind :: nums
            ++ encode_attributes al1 ++ tc ++ [tl]),
         (encode_attributes al2 ++ flat_map encode_subsection l2).
  split.
  - unfold value_offset. cbn [length]. rewrite !length_app, length_le_bytes.
    cbn [length]. rewrite !length_app.
    change (length (list_byte_of_string "aeabi")) with 5%nat. simpl. lia.
  - intros c. unfold encode_section, with_wchar_t.
    rewrite flat_map_app. cbn [flat_map].
    rewrite encode_subsection_wchar_t. fold L.
    cbn [app]. f_equal.
    repeat progress (rewrite <- ?app_assoc, <- ?app_comm_cons; cbn [app]).
    done.
Qed.

Lemma patch_attribute_readonly wchar_size a :
  wchar_size < 0 -> patch_attribute wchar_size a = a.
Proof.
  intros H. unfold patch_attribute. destruct (kind_of (tag_of a)); try done.
  destruct (Z.geb_spec wchar_size 0); [lia | done].
Qed.

Lemma patch_subsections_readonly wchar_size l :
  wchar_size < 0 -> map (patch_subsection wchar_size) l = l.
Proof.
  intros H. induction l as [|s l IH]; [done|]. simpl. rewrite IH. f_equal.
  unfold patch_subsection. destruct s as [ind nums al]. simpl. f_equal.
  induction al as [|a al IHa]; [done|]. simpl.
  by rewrite IHa, patch_attribute_readonly.
Qed.

(** With one tag 18 in the section, a run under a patch request replaces
    its value byte. *)
Lemma patch_with_wchar_t wchar_size l1 ind nums al1 tc tl v al2 l2 :
  uleb128_acc 0 0 (tc ++ [tl]) = 18 -> 0 <= wchar_size ->
  Forall (fun s => Forall no_wchar_t (attrs s)) (l1 ++ l2) ->
  Forall no_wchar_t (al1 ++ al2) ->
  map (patch_subsection wchar_size) (with_wchar_t l1 ind nums al1 tc tl v al2 l2) =
  with_wchar_t l1 ind nums al1 tc tl (byte_of_Z wchar_size) al2 l2.
Proof.
  intros Htag Hw Hl Hal. apply Forall_app in Hl as [Hl1 Hl2].
  apply Forall_app in Hal as [Hal1 Hal2].
  unfold with_wchar_t. rewrite map_app. cbn [map].
  rewrite !patch_subsections_other by done. do 2 f_equal.
  unfold patch_subsection. cbn [indicator ids attrs]. f_equal.
  rewrite map_app. cbn [map]. rewrite !patch_attributes_other by done.
  do 2 f_equal. unfold patch_attribute, tag_of. cbn [tag_conts tag_last].
  rewrite Htag. cbn. destruct (Z.geb_spec wchar_size 0); [done | lia].
Qed.

(** ... and reports the old value, as any run does. *)
Lemma report_with_wchar_t wchar_size l1 ind nums al1 tc tl v al2 l2 :
  uleb128_acc 0 0 (tc ++ [tl]) = 18 ->
  Forall (fun s => Forall no_wchar_t (attrs s)) (l1 ++ l2) ->
  Forall no_wchar_t (al1 ++ al2) ->
  report_section wchar_size (with_wchar_t l1 ind nums al1 tc tl v al2 l2) =
    [Printf "Tag_ABI_PCS_wchar_t = %ld" [AInt (byte_val v)];
     if wchar_size >=? 0 then Printf ", patched to %d\n" [AInt wchar_size]
     else Printf "\n" []].
Proof.
  intros Htag Hl Hal. apply Forall_app in Hl as [Hl1 Hl2].
  apply Forall_app in Hal as [Hal1 Hal2].
  unfold with_wchar_t, report_section. rewrite flat_map_app. cbn [flat_map].
  fold (report_section wchar_size l1). fold (report_section wchar_size l2).
  rewrite !report_section_other by done. cbn [attrs app].
  rewrite app_nil_r, flat_map_app. cbn [flat_map].
  rewrite !report_attributes_other by done. cbn [app]. rewrite app_nil_r.
  unfold report, tag_of. cbn [tag_conts tag_last attr_payload].
  by rewrite Htag.
Qed.

(** ** What a walk leaves in the array of the vendor name *)

Lemma store_length result result_size i c :
  option_map length (store result result_size i c) = option_map length result.
Proof.
  destruct result as [b|]; [|done]. unfold store.
  destruct (i <? result_size); simpl; by rewrite ?length_insert.
Qed.

Lemma ntbs_loop_length n result result_size size i pos w r name pos' w' :
  ntbs_loop n result result_size size i pos w = Some (r, name, pos', w') ->
  option_map length name = option_map length result.
Proof.
  revert result i pos w.
  induction n as [|n IH]; intros result i pos w H; simpl in H;
    destruct (pos <? size); try discriminate H;
    try (injection H as <- <- <- <-; apply store_length).
  unfold bind in H. on_read_byte H.
  - destruct (byte_val b =? 0).
    + injection H as <- <- <- <-. by rewrite !store_length.
    + destruct (pos + 1 >=? size); simpl in H.
      * injection H as <- <- <- <-. apply store_length.
      * apply IH in H. by rewrite H, store_length.
  - by injection H as <- <- <- <-.
Qed.

Lemma section_loop_body_length fuel sh_size wchar_size vendor_name pos w
    r name spos w' :
  section_loop_body fuel sh_size wchar_size vendor_name pos w
    = Some (r, name, spos, w') ->
  length name = length vendor_name.
Proof.
  unfold section_loop_body. intros H.
  destruct (_ >? _); [by injection H as <- <- <- <-|].
  unfold bind in H. destruct (read 4 w) as [[bs w1]|]; [|discriminate H].
  destruct (negb _); [by injection H as <- <- <- <-|].
  destruct (_ >? _); [by injection H as <- <- <- <-|].
  destruct (parse_ntbs fuel (Some vendor_name) 128 4 (le_val bs) w1)
    as [[[[r2 name2] spos2] w2]|] eqn:E2; [|discriminate H].
  apply ntbs_loop_length in E2.
  destruct name2 as [b|]; [|discriminate E2]. injection E2 as E2.
  cbn [default] in H.
  destruct (negb (r2 =? 0)); [by injection H as <- <- <- <-|].
  destruct (strcmp _ _ =? 0).
  - destruct (parse_eabi_attr_aeabi_subsection fuel spos2 (le_val bs)
                wchar_size w2) as [[[r3 spos3] w3]|]; [|discriminate H].
    by injection H as <- <- <- <-.
  - destruct (lseek_cur (le_val bs - spos2) w2) as [[o w3]|];
      [|discriminate H].
    destruct (negb (o =? -1)); by injection H as <- <- <- <-.
Qed.

(** The loop with the array is the loop, and the array keeps its size. *)
Lemma section_loop_vendor_spec fuel n sh_size wchar_size vendor_name pos w :
  match section_loop_vendor fuel n sh_size wchar_size vendor_name pos w with
  | Some (r, name, w') =>
    section_loop fuel n sh_size wchar_size vendor_name pos w = Some (r, w') /\
    length name = length vendor_name
  | None =>
    section_loop fuel n sh_size wchar_size vendor_name pos w = None
  end.
Proof.
  revert vendor_name pos w.
  induction n as [|n IH]; intros vendor_name pos w; simpl;
    destruct (pos <? sh_size); try done.
  unfold bind.
  destruct (section_loop_body fuel sh_size wchar_size vendor_name pos w)
    as [[[[r1 name] spos] w1]|] eqn:E; [|done].
  apply section_loop_body_length in E.
  destruct (negb (r1 =? 0)); [done|].
  specialize (IH name (pos + spos) w1).
  destruct (section_loop_vendor fuel n sh_size wchar_size name (pos + spos) w1)
    as [[[r2 name2] w2]|]; [|done].
  destruct IH as [-> Hlen]. split; [done | congruence].
Qed.

Lemma parse_eabi_attr_section_vendor_spec fuel sh_size wchar_size vendor_name w :
  match parse_eabi_attr_section_vendor fuel sh_size wchar_size vendor_name w with
  | Some (r, name, w') =>
    parse_eabi_attr_section fuel sh_size wchar_size vendor_name w
      = Some (r, w') /\
    length name = length vendor_name
  | None =>
    parse_eabi_attr_section fuel sh_size wchar_size vendor_name w = None
  end.
Proof.
  unfold parse_eabi_attr_section_vendor, parse_eabi_attr_section, bind.
  destruct (if sh_size <? 1 then _ else _) as [[[] w0]|]; [|done].
  destruct (read_byte w0) as [[[version|] w1]|]; [| done | done].
  destruct (negb _); [done|].
  apply section_loop_vendor_spec.
Qed.

(** A result of the call is a result of the call with the array. *)
Lemma parse_eabi_attr_section_vendor_result fuel sh_size wchar_size
    vendor_name w r w' :
  parse_eabi_attr_section fuel sh_size wchar_size vendor_name w
    = Some (r, w') ->
  exists name,
    parse_eabi_attr_section_vendor fuel sh_size wchar_size vendor_name w
      = Some (r, name, w') /\
    length name = length vendor_name.
Proof.
  intros H.
  pose proof (parse_eabi_attr_section_vendor_spec fuel sh_size wchar_size
                vendor_name w) as Hs.
  destruct (parse_eabi_attr_section_vendor fuel sh_size wchar_size
              vendor_name w) as [[[r2 name] w2]|].
  - destruct Hs as [Hs Hlen]. rewrite Hs in H. injection H as <- <-.
    by exists name.
  - congruence.
Qed.

Lemma parse_eabi_attr_section_vendor_status fuel sh_size wchar_size
    vendor_name w r name w' :
  parse_eabi_attr_section_vendor fuel sh_size wchar_size vendor_name w
    = Some (r, name, w') ->
  parse_eabi_attr_section fuel sh_size wchar_size vendor_name w
    = Some (r, w') /\
  length name = length vendor_name.
Proof.
  intros H.
  pose proof (parse_eabi_attr_section_vendor_spec fuel sh_size wchar_size
                vendor_name w) as Hs.
  by rewrite H in Hs.
Qed.

(** ** The integer that is scanned *)

Lemma scanned_int_id v : - 2 ^ 31 <= v < 2 ^ 31 -> scanned_int v = v.
Proof.
  intros H. unfold scanned_int, to_long_sat, to_int.
  rewrite Z.min_l, Z.max_r by lia.
  apply sint_id; [lia|]. change (2 ^ (32 - 1)) with (2 ^ 31). lia.
Qed.

(** ** The whole program on a minimal ELF file *)

Lemma elf_header_fields n :
  length (elf_header n) = 52%nat /\
  bytes_eqb (take 4 (elf_header n)) ELFMAG = true /\
  e_machine (elf_header n) = EM_ARM /\
  e_shoff (elf_header n) = le_val (le_bytes 4 (52 + n)) /\
  e_shentsize (elf_header n) = 40 /\
  e_shnum (elf_header n) = 1.
Proof. repeat split; by vm_compute. Qed.

Lemma elf_section_header_fields n :
  length (elf_section_header n) = 40%nat /\
  sh_type (elf_section_header n) = SHT_ARM_ATTRIBUTES /\
  sh_offset (elf_section_header n) = 52 /\
  sh_size (elf_section_header n) = le_val (le_bytes 4 n).
Proof. repeat split; by vm_compute. Qed.

(** [parse] on the minimal ELF file around a section: the one section header
    leads to the section, and a successful walk that keeps the size of the
    section ends the run with status 0. *)
Lemma parse_elf_with_section fuel wchar_size vendor_name sec sec' o p o' :
  length sec' = length sec ->
  Z.of_nat (length sec) + 52 < 2 ^ 32 ->
  parse_eabi_attr_section fuel (Z.of_nat (length sec)) wchar_size vendor_name
      (World (elf_header (Z.of_nat (length sec)) ++ sec
                ++ elf_section_header (Z.of_nat (length sec))) 52 o) =
    Some (0, World (elf_header (Z.of_nat (length sec)) ++ sec'
                      ++ elf_section_header (Z.of_nat (length sec))) p o') ->
  parse fuel wchar_size vendor_name (World (elf_with_section sec) 0 o) =
    Some (0, World (elf_with_section sec') (52 + length sec + 40) o').
Proof.
  intros Hlen Hn Hwalk. unfold elf_with_section. rewrite Hlen.
  set (n := Z.of_nat (length sec)) in *.
  destruct (elf_header_fields n) as (Hh & Hmag & Hmach & Hoff & Hent & Hnum).
  destruct (elf_section_header_fields n) as (Hs & Htype & Hso & Hsize).
  rewrite le_val_le_bytes in Hoff, Hsize
    by (change (256 ^ Z.of_nat 4) with (2 ^ 32); lia).
  unfold parse, bind.
  change (World (elf_header n ++ sec ++ elf_section_header n) 0 o)
    with (World ([] ++ elf_header n ++ sec ++ elf_section_header n)
                (length (@nil byte)) o).
  rewrite read_middle by done. cbn [app length].
  change (0 + sizeof_Elf32_Ehdr)%nat with sizeof_Elf32_Ehdr.
  rewrite Hh, Hmag, Hmach, Hoff, Hent, Hnum.
  change (negb (52 =? sizeof_Elf32_Ehdr)%nat) with false.
  change (negb true) with false.
  change (negb (EM_ARM =? EM_ARM)) with false.
  change (negb (40 =? Z.of_nat sizeof_Elf32_Shdr)) with false.
  cbv iota beta.
  destruct (Z.eqb_spec (52 + n) 0); [lia|].
  unfold lseek_set, lseek_to at 1. cbn [file fpos out].
  destruct (Z.ltb_spec (52 + n) 0); [lia|].
  destruct (Z.eqb_spec (52 + n) (-1)); [lia|].
  change (Z.to_nat 1) with 1%nat. cbn [shdr_loop]. unfold bind.
  assert (World (elf_header n ++ sec ++ elf_section_header n)
                (Z.to_nat (52 + n)) o =
          World ((elf_header n ++ sec) ++ elf_section_header n ++ [])
                (length (elf_header n ++ sec)) o) as ->.
  { rewrite app_nil_r, <- app_assoc. f_equal.
    rewrite length_app, Hh. unfold n. lia. }
  rewrite read_middle by done. rewrite Hs, Htype, Hso, Hsize.
  change (negb (40 =? sizeof_Elf32_Shdr)%nat) with false.
  change (negb (SHT_ARM_ATTRIBUTES =? SHT_ARM_ATTRIBUTES)) with false.
  cbv iota beta.
  unfold lseek_cur, lseek_set, lseek_to. cbn [file fpos out].
  set (current_pos :=
         Z.of_nat (length (elf_header n ++ sec) + sizeof_Elf32_Shdr) + 0).
  assert (current_pos = 52 + n + 40) as Hcur.
  { unfold current_pos. rewrite length_app, Hh. unfold sizeof_Elf32_Shdr, n. lia. }
  destruct (Z.ltb_spec current_pos 0); [lia|].
  change (52 <? 0) with false. cbv iota beta.
  change (52 =? -1) with false. cbv iota beta. cbn [file fpos out].
  change (Z.to_nat 52) with 52%nat.
  rewrite app_nil_r, <- app_assoc.
  apply parse_eabi_attr_section_vendor_result in Hwalk as (name & Hwalk & _).
  rewrite Hwalk.
  change (negb (0 =? 0)) with false. cbv iota beta. cbn [file fpos out].
  destruct (Z.eqb_spec current_pos (-1)); [lia|].
  cbn [shdr_loop]. unfold ret. do 3 f_equal. unfold n in Hcur. lia.
Qed.

Lemma length_encode_section_patch wchar_size l :
  Forall wf_subsection l ->
  length (encode_section (map (patch_subsection wchar_size) l)) =
  length (encode_section l).
Proof.
  intros H. unfold encode_section. cbn [length].
  by rewrite length_encode_subsections_patch.
Qed.

Lemma parse_well_formed_elf fuel wchar_size vendor_name l :
  Forall wf_subsection l ->
  (length (encode_section l) <= fuel)%nat ->
  (6 <= length vendor_name)%nat ->
  Z.of_nat (length (encode_section l)) + 52 < 2 ^ 32 ->
  parse fuel wchar_size vendor_name
      (World (elf_with_section (encode_section l)) 0 []) =
    Some (0,
          World (elf_with_section
                   (encode_section (map (patch_subsection wchar_size) l)))
                (52 + length (encode_section l) + 40)
                (report_section wchar_size l)).
Proof.
  intros Hl Hf Hv Hn.
  eapply parse_elf_with_section; [by apply length_encode_section_patch | done |].
  change 52%nat with (length (elf_header (Z.of_nat (length (encode_section l))))).
  by rewrite parse_eabi_attr_section_subsections.
Qed.

(** A run of the program with a patch request on the minimal ELF file
    around a section of well-formed "aeabi" subsections. *)
Lemma main_patches_well_formed_elf fuel vendor_name prog value wchar_size l :
  Forall wf_subsection l ->
  sscanf_d value = Some wchar_size -> 0 <= wchar_size <= 0x7f ->
  (length (encode_section l) <= fuel)%nat ->
  (6 <= length vendor_name)%nat ->
  Z.of_nat (length (encode_section l)) + 52 < 2 ^ 32 ->
  main fuel (host (elf_with_section (encode_section l))) vendor_name
       [prog; "a.o"; value] =
    Some (Run 0
            (Some (elf_with_section
                     (encode_section (map (patch_subsection wchar_size) l))))
            (report_section wchar_size l)).
Proof.
  intros Hl Hscan Hw Hf Hv Hn. unfold main. rewrite Hscan.
  rewrite scanned_int_id by lia.
  destruct (Z.gtb_spec wchar_size 127); [lia|].
  unfold process, host. cbn [String.eqb Ascii.eqb Bool.eqb].
  unfold to_char.
  rewrite !(sint_id 8 wchar_size) by (change (2 ^ (8 - 1)) with 128; lia).
  by rewrite parse_well_formed_elf.
Qed.

(** A run of the program without request on such a file. *)
Lemma main_reads_well_formed_elf fuel vendor_name prog l :
  Forall wf_subsection l ->
  (length (encode_section l) <= fuel)%nat ->
  (6 <= length vendor_name)%nat ->
  Z.of_nat (length (encode_section l)) + 52 < 2 ^ 32 ->
  main fuel (host (elf_with_section (encode_section l))) vendor_name
       [prog; "a.o"] =
    Some (Run 0 (Some (elf_with_section (encode_section l)))
            (report_section (-1) l)).
Proof.
  intros Hl Hf Hv Hn. unfold main, process, host.
  cbn [String.eqb Ascii.eqb Bool.eqb].
  change (to_char (to_char (-1))) with (-1).
  rewrite parse_well_formed_elf by done. simpl.
  by rewrite patch_subsections_readonly.
Qed.

(** * The claims *)

(** C1 (the code departs from the claim).  The claim: when tag 18 is decoded
    with a value above 0x7f and a patch is requested, the patch is refused
    and the file is left as it was.  The program prints the refusal and goes
    on to the seek and the write: on a file whose tag 18 has the two-byte
    value 128, a request to patch to 0 ends with status 0, the last byte of
    the value overwritten (the value now reads 0) and "patched to 0"
    printed. *)
Theorem wide_value_is_overwritten :
  main 100 (host elf_wide_value) junk ["arm-wchar-tag"; "a.o"; "0"] =
    Some (Run 0
            (Some (elf_with_section (aeabi_section (bytes [18; 128; 0]))))
            [Printf "Tag_ABI_PCS_wchar_t = %ld" [AInt 128];
             Printf "Error: Unable to patch Tag_ABI_PCS_wchar_t: old value is too big.\n" [];
             Printf ", patched to %d\n" [AInt 0]]).
Proof. vm_compute. reflexivity. Qed.

(** C2 (the code departs from the claim).  The claim: a subsection of
    another vendor is skipped by a relative seek and the walk goes on.  The
    test on the seek is inverted: the walk stops with status 1 when the seek
    has succeeded.  On a file with a "gnu" subsection before the "aeabi" one
    the run fails after the seek, and the value of tag 18 in the "aeabi"
    subsection is never reported. *)
Theorem unknown_vendor_stops_the_walk :
  main 100 (host elf_unknown_vendor) junk ["arm-wchar-tag"; "a.o"] =
    Some (Run 1 (Some elf_unknown_vendor)
            [Perror "skipping over unknown subsection"]).
Proof. vm_compute. reflexivity. Qed.

(** C3 (the code departs from the claim).  The claim: the subsection cursor
    never exceeds the declared subsection size, the read of the indicator
    byte included.  The guard before that read tests the size of the
    subsection, not what is left of it: for an "aeabi" subsection of 10
    bytes, which its length field and name fill, the parser is entered with
    the cursor at 10, reads the byte that follows the section in the file
    and returns success with the cursor at 11; the whole run ends with
    status 0. *)
Theorem indicator_read_crosses_the_boundary :
  parse_eabi_attr_aeabi_subsection 100 10 10 (to_char (-1))
      (World elf_no_body 63 []) =
    Some (0, 11, World elf_no_body 64 []) /\
  (exists name,
     section_loop_body 100 11 (to_char (-1)) junk 1 (World elf_no_body 53 []) =
       Some (0, name, 11, World elf_no_body 64 [])) /\
  main 100 (host elf_no_body) junk ["arm-wchar-tag"; "a.o"] =
    Some (Run 0 (Some elf_no_body) []).
Proof.
  split; [vm_compute; reflexivity|].
  split; [eexists; vm_compute; reflexivity | vm_compute; reflexivity].
Qed.




(** C5 (the code departs from the claim).  The claim: whenever the boundary
    is reached before a terminator byte, also when the cursor is at the
    boundary on entry, the reader reports a truncation error.  Entered with
    the cursor at or past the boundary, the reader reads nothing and returns
    success with the value 0. *)
Theorem uleb128_at_boundary_succeeds fuel pos size w :
  size <= pos -> parse_uleb128 fuel pos size w = Some (0, 0, pos, w).
Proof. apply uleb128_loop_at_end. Qed.

(** The reader entered at the boundary 5 of a subsection. *)
Lemma uleb128_at_boundary_succeeds_witness :
  parse_uleb128 100 5 5 (World elf_wchar_4 57 []) =
    Some (0, 0, 5, World elf_wchar_4 57 []).
Proof. apply uleb128_at_boundary_succeeds. lia. Defined.

(** C6, counterexample.  Ten continuation bytes and the terminator 1, all
    inside the boundary, stand for 2^70, more than an unsigned long holds;
    the reader returns 64. *)
Lemma uleb128_value_not_always_exact :
  Forall continues (take 10 uleb_2_70) /\
  uleb_2_70 !! 10%nat = Some (byte_of_Z 1) /\
  terminates (byte_of_Z 1) /\
  uleb128_value uleb_2_70 = 2 ^ 70 /\
  parse_uleb128 100 0 11 (World uleb_2_70 0 []) =
    Some (0, 64, 11, World uleb_2_70 11 []).
Proof.
  split; [repeat constructor; by vm_compute|].
  repeat split; by vm_compute.
Qed.

(** C6, as amended.  For every field of N continuation bytes followed by a
    terminator byte, all inside the boundary, the reader returns success,
    advances the cursor and the descriptor by exactly N+1 and leaves the
    file as it was; when N <= 4 and the sum of the bytes' low 7 bits, each
    shifted left by 7 times its index, is below 2^31, the integer returned
    is exactly that sum. *)
Theorem uleb128_field_decoded fuel pos size w conts last rest :
  Forall continues conts -> terminates last ->
  drop (fpos w) (file w) = conts ++ last :: rest ->
  pos + Z.of_nat (length conts) + 1 <= size ->
  (length conts < fuel)%nat ->
  exists v,
    parse_uleb128 fuel pos size w =
      Some (0, v, pos + Z.of_nat (length conts) + 1,
            World (file w) (fpos w + length conts + 1) (out w)) /\
    ((length conts <= 4)%nat -> uleb128_value (conts ++ [last]) < 2 ^ 31 ->
     v = uleb128_value (conts ++ [last])).
Proof.
  intros Hc Hl Hd Hs Hn. eexists. split.
  - by eapply uleb128_loop_field.
  - intros H4 Hv. unfold uleb128_value in *.
    rewrite (uleb128_acc_sum 0 0); [lia | lia | simpl; lia | | lia].
    rewrite length_app. simpl. lia.
Qed.

(** The three bytes E5 8E 26 stand for 624485. *)
Lemma uleb128_field_decoded_witness :
  exists v,
    parse_uleb128 100 0 3 (World (bytes [229; 142; 38]) 0 []) =
      Some (0, v, 3, World (bytes [229; 142; 38]) 3 []) /\
    v = 624485.
Proof.
  destruct (uleb128_field_decoded 100 0 3 (World (bytes [229; 142; 38]) 0 [])
              (bytes [229; 142]) (byte_of_Z 38) [])
    as (v & Hrun & Hv).
  - repeat constructor; by vm_compute.
  - by vm_compute.
  - reflexivity.
  - simpl. lia.
  - simpl. lia.
  - exists v. split; [exact Hrun|].
    rewrite Hv; [by vm_compute | simpl; lia | by vm_compute].
Defined.

(** C7, counterexample.  Tag 18 is decoded with the value 4, which fits
    0x7f but is written in the two bytes 0x84 0x00.  Patching to 1 succeeds
    and overwrites the second byte; the next decode reports 132, not 1. *)
Lemma padded_value_breaks_round_trip :
  main 100 (host elf_padded_value) junk ["arm-wchar-tag"; "a.o"; "1"] =
    Some (Run 0
            (Some (elf_with_section (aeabi_section (bytes [18; 132; 1]))))
            [Printf "Tag_ABI_PCS_wchar_t = %ld" [AInt 4];
             Printf ", patched to %d\n" [AInt 1]]) /\
  main 100 (host (elf_with_section (aeabi_section (bytes [18; 132; 1]))))
       junk ["arm-wchar-tag"; "a.o"] =
    Some (Run 0
            (Some (elf_with_section (aeabi_section (bytes [18; 132; 1]))))
            [Printf "Tag_ABI_PCS_wchar_t = %ld" [AInt 132]; Printf "\n" []]).
Proof. split; vm_compute; reflexivity. Qed.

(** C7, as amended.  Take a file that holds, anywhere, an attributes
    section of well-formed "aeabi" subsections in which tag 18 occurs once,
    with its value [v] written in one byte, at offset [i] of the file.  The
    walker run on that section with a patch request 0 <= v' <= 0x7f succeeds,
    reports [v] and overwrites exactly the byte at [i] with v': the file has
    the same size and every other byte is as before.  A following run
    without request on the patched file succeeds and reports v'. *)
Theorem wchar_t_patch_round_trip fuel wchar_size vendor_name vendor_name'
    pre post o o' l1 ind nums al1 tc tl v al2 l2 :
  let l := with_wchar_t l1 ind nums al1 tc tl v al2 l2 in
  let sec := encode_section l in
  let f := pre ++ sec ++ post in
  let i := (length pre + value_offset l1 nums al1 tc)%nat in
  let f' := <[i := byte_of_Z wchar_size]> f in
  Forall wf_subsection l ->
  uleb128_acc 0 0 (tc ++ [tl]) = 18 ->
  Forall (fun s => Forall no_wchar_t (attrs s)) (l1 ++ l2) ->
  Forall no_wchar_t (al1 ++ al2) ->
  0 <= wchar_size <= 0x7f ->
  (length sec <= fuel)%nat ->
  (6 <= length vendor_name)%nat -> (6 <= length vendor_name')%nat ->
  f !! i = Some v /\
  parse_eabi_attr_section fuel (Z.of_nat (length sec)) wchar_size vendor_name
      (World f (length pre) o) =
    Some (0, World f' (length pre + length sec)
               (o ++ [Printf "Tag_ABI_PCS_wchar_t = %ld" [AInt (byte_val v)];
                      Printf ", patched to %d\n" [AInt wchar_size]])) /\
  parse_eabi_attr_section fuel (Z.of_nat (length sec)) (to_char (-1)) vendor_name'
      (World f' (length pre) o') =
    Some (0, World f' (length pre + length sec)
               (o' ++ [Printf "Tag_ABI_PCS_wchar_t = %ld" [AInt wchar_size];
                       Printf "\n" []])) /\
  length f' = length f /\
  (forall j, j <> i -> f' !! j = f !! j).
Proof.
  intros l sec f i f' Hwf Htag Hl Hal Hw Hfuel Hv Hv'.
  destruct (encode_section_with_wchar_t l1 ind nums al1 tc tl al2 l2)
    as (X & Y & HX & HXY).
  set (c := byte_of_Z wchar_size).
  set (l' := with_wchar_t l1 ind nums al1 tc tl c al2 l2).
  assert (map (patch_subsection wchar_size) l = l') as Hpatch
    by (apply patch_with_wchar_t; (done || lia)).
  assert (f = (pre ++ X) ++ v :: Y ++ post) as Hf.
  { unfold f, sec, l. rewrite HXY, <- !app_assoc. done. }
  assert (i = length (pre ++ X)) as Hi
    by (unfold i; rewrite length_app; lia).
  assert (f' = pre ++ encode_section l' ++ post) as Hf'.
  { unfold f', l'. rewrite Hf, Hi, insert_middle, HXY, <- !app_assoc. done. }
  assert (length (encode_section l') = length sec) as Hlen.
  { unfold l', sec, l. rewrite !HXY, !length_app. done. }
  split; [by rewrite Hf, Hi, list_lookup_middle|].
  split; [|split; [|split]].
  - unfold f, sec. rewrite parse_eabi_attr_section_subsections by done.
    rewrite Hpatch, <- Hf'. unfold l.
    rewrite report_with_wchar_t by done.
    destruct (Z.geb_spec wchar_size 0); [done | lia].
  - rewrite Hf', <- Hlen.
    rewrite parse_eabi_attr_section_subsections.
    + rewrite patch_subsections_readonly by done. unfold l'.
      rewrite report_with_wchar_t by done. unfold c.
      rewrite byte_val_of_Z, Z.mod_small by lia. done.
    + rewrite <- Hpatch. apply Forall_fmap.
      eapply Forall_impl; [exact Hwf|]. intros s. by apply wf_patch_subsection.
    + by rewrite Hlen.
    + done.
  - unfold f'. apply length_insert.
  - intros j Hj. unfold f'. by apply list_lookup_insert_ne.
Qed.

(** The sample file, tag 18 = 4, patched to 0 and read again. *)
Lemma wchar_t_patch_round_trip_witness :
  parse_eabi_attr_section 100 14 0 junk (World elf_wchar_4 52 []) =
    Some (0, World (elf_with_section (aeabi_section (bytes [18; 0]))) 66
               [Printf "Tag_ABI_PCS_wchar_t = %ld" [AInt 4];
                Printf ", patched to %d\n" [AInt 0]]) /\
  parse_eabi_attr_section 100 14 (to_char (-1)) junk
      (World (elf_with_section (aeabi_section (bytes [18; 0]))) 52 []) =
    Some (0, World (elf_with_section (aeabi_section (bytes [18; 0]))) 66
               [Printf "Tag_ABI_PCS_wchar_t = %ld" [AInt 0]; Printf "\n" []]).
Proof.
  destruct (wchar_t_patch_round_trip 100 0 junk junk
              (elf_header 14) (elf_section_header 14) [] []
              [] (byte_of_Z 1) [] [] [] (byte_of_Z 18) (byte_of_Z 4) [] [])
    as (_ & H1 & H2 & _).
  - constructor; [|constructor].
    split; [reflexivity|]. split; [|by vm_compute].
    constructor; [|constructor].
    split; [constructor|]. split; by vm_compute.
  - by vm_compute.
  - constructor.
  - constructor.
  - lia.
  - vm_compute. lia.
  - vm_compute. lia.
  - vm_compute. lia.
  - split; [exact H1 | exact H2].
Defined.

(** C8.  At every subsection of an attributes section, that is in every
    iteration of the walker's loop: if fewer than 4 bytes are left before the
    section boundary, the walker fails without reading anything; if the
    length field, added to the current position, exceeds the section size,
    the walker fails having read the 4 bytes of the length field and nothing
    of what follows it.  The file is not changed in either case. *)
Theorem subsection_bounds_checked fuel n sh_size wchar_size vendor_name pos w :
  pos < sh_size ->
  (sh_size < pos + 4 ->
   section_loop fuel (S n) sh_size wchar_size vendor_name pos w =
     Some (1, World (file w) (fpos w)
                (out w ++ [Printf "Error: Unexpected end of ARM attribute section\n" []]))) /\
  (forall bs,
     pos + 4 <= sh_size ->
     take 4 (drop (fpos w) (file w)) = bs -> length bs = 4%nat ->
     sh_size < pos + le_val bs ->
     section_loop fuel (S n) sh_size wchar_size vendor_name pos w =
       Some (1, World (file w) (fpos w + 4)
                  (out w ++ [Printf "Error: ARM attribute subsection outside of section bounds.\n" []]))).
Proof.
  intros Hpos. split.
  - intros Hend. simpl. destruct (Z.ltb_spec pos sh_size); [|lia].
    unfold bind, section_loop_body.
    destruct (Z.gtb_spec (pos + 4) sh_size); [done | lia].
  - intros bs Hroom Hbs Hlen Hout. simpl.
    destruct (Z.ltb_spec pos sh_size); [|lia].
    unfold bind, section_loop_body.
    destruct (Z.gtb_spec (pos + 4) sh_size); [lia|].
    unfold bind, read. cbv beta zeta. rewrite Hbs, Hlen. simpl.
    destruct (Z.gtb_spec (pos + le_val bs) sh_size); [done | lia].
Qed.

(** A section of 3 bytes, and a length field of 9 at position 1 of a section
    of 9 bytes. *)
Lemma subsection_bounds_checked_witness :
  section_loop 100 1 3 0 junk 1 (World (bytes [65; 9; 0]) 1 []) =
    Some (1, World (bytes [65; 9; 0]) 1
               [Printf "Error: Unexpected end of ARM attribute section\n" []]) /\
  section_loop 100 1 9 0 junk 1 (World (bytes [65; 9; 0; 0; 0; 97; 0; 1; 2]) 1 []) =
    Some (1, World (bytes [65; 9; 0; 0; 0; 97; 0; 1; 2]) 5
               [Printf "Error: ARM attribute subsection outside of section bounds.\n" []]).
Proof.
  split.
  - apply (subsection_bounds_checked 100 0 3 0 junk 1
             (World (bytes [65; 9; 0]) 1 [])); lia.
  - apply (proj2 (subsection_bounds_checked 100 0 9 0 junk 1
                    (World (bytes [65; 9; 0; 0; 0; 97; 0; 1; 2]) 1 [])
                    ltac:(lia)) (bytes [9; 0; 0; 0]));
      [lia | reflexivity | reflexivity | vm_compute; reflexivity].
Defined.

(** C9.  The walker of an attributes section terminates on every input:
    with a bound on the iterations of each loop above the section size it
    returns a status whatever the file, the offset, the section size and the
    patch request are.  Each iteration of its loop over the subsections
    either returns an error or moves the outer cursor by at least 4 bytes
    (the position within the subsection starts at 4, the size of the length
    field, and never decreases). *)
Theorem section_walk_terminates fuel sh_size wchar_size vendor_name w :
  0 <= sh_size < Z.of_nat fuel ->
  (exists x,
     parse_eabi_attr_section fuel sh_size wchar_size vendor_name w = Some x) /\
  (forall name0 pos w0 r name spos w',
     section_loop_body fuel sh_size wchar_size name0 pos w0
       = Some (r, name, spos, w') ->
     r <> 0 \/ 4 <= spos).
Proof.
  intros Hf. split.
  - unfold parse_eabi_attr_section, bind.
    destruct (if sh_size <? 1 then _ else _) as [[[] w1]|] eqn:E1.
    + destruct (read_byte_total w1) as (r & w2 & ->).
      destruct r as [version|]; simpl; [|by eexists].
      destruct (negb _); simpl; [by eexists|].
      apply section_loop_total; lia.
    + by destruct (sh_size <? 1).
  - intros name0 pos w0 r name spos w' H.
    destruct (Z.eq_dec r 0) as [Hr|]; [right | by left].
    by eapply section_loop_body_progress.
Qed.

(** The walk over the section of the sample file. *)
Lemma section_walk_terminates_witness :
  exists x, parse_eabi_attr_section 14 13 0 junk (World elf_wchar_4 52 []) = Some x.
Proof.
  apply (section_walk_terminates 14 13 0 junk (World elf_wchar_4 52 [])). lia.
Defined.



(** * Lemmas for the further properties *)

(** ** The primitive decoders *)

Lemma uleb128_loop_unterminated n size shift result pos w conts rest :
  Forall continues conts -> conts <> [] ->
  drop (fpos w) (file w) = conts ++ rest ->
  pos + Z.of_nat (length conts) = size ->
  (length conts <= n)%nat ->
  uleb128_loop n size shift result pos w =
    Some (1, uleb128_acc shift result conts, size,
          World (file w) (fpos w + length conts)
                (out w ++ [Printf "Error: Unterminated ULEB128.\n" []])).
Proof.
  intros Hc. revert n shift result pos w.
  induction Hc as [|c conts Hc Hcs IH]; intros n shift result pos w Hne Hd Hs Hn;
    [done|].
  destruct n as [|n]; [simpl in Hn; lia|]. simpl in Hs, Hn |- *.
  destruct (Z.ltb_spec pos size); [|lia].
  apply drop_cons_lookup in Hd as [Hb Hd].
  unfold bind, read_byte. rewrite Hb.
  unfold continues in Hc.
  destruct (Z.eqb_spec (Z.land (byte_val c) 128) 0); [done|].
  destruct conts as [|c' conts].
  - destruct (Z.geb_spec (pos + 1) size); [|simpl in Hs; lia].
    simpl. unfold printf, ret. simpl. do 3 f_equal; [lia | f_equal; lia].
  - destruct (Z.geb_spec (pos + 1) size); [simpl in Hs; lia|].
    rewrite IH; [|done|done|simpl in *; lia|simpl in *; lia].
    simpl. do 3 f_equal. f_equal. lia.
Qed.

Lemma uleb128_loop_short_read n size shift result pos w conts :
  Forall continues conts ->
  drop (fpos w) (file w) = conts ->
  pos + Z.of_nat (length conts) < size ->
  (length conts < n)%nat ->
  uleb128_loop n size shift result pos w =
    Some (1, uleb128_acc shift result conts, pos + Z.of_nat (length conts),
          World (file w) (fpos w + length conts)
                (out w ++ [Perror "reading ULEB128"])).
Proof.
  intros Hc. revert n shift result pos w.
  induction Hc as [|c conts Hc Hcs IH]; intros n shift result pos w Hd Hs Hn;
    (destruct n as [|n]; [simpl in Hn; lia|]); simpl in Hs, Hn |- *;
    (destruct (Z.ltb_spec pos size); [|lia]); unfold bind, read_byte.
  - assert (file w !! fpos w = None) as ->.
    { apply lookup_ge_None. apply drop_nil_inv in Hd. lia. }
    simpl. unfold perror, ret. simpl. do 3 f_equal; [lia | f_equal; lia].
  - apply drop_cons_lookup in Hd as [Hb Hd]. rewrite Hb.
    unfold continues in Hc.
    destruct (Z.eqb_spec (Z.land (byte_val c) 128) 0); [done|].
    destruct (Z.geb_spec (pos + 1) size); [lia|].
    rewrite IH; [|done|lia|lia].
    simpl. do 3 f_equal; [lia | f_equal; lia].
Qed.

Lemma ntbs_loop_unterminated n result result_size size i pos w s rest :
  Forall nonzero s -> s <> [] ->
  drop (fpos w) (file w) = s ++ rest ->
  pos + Z.of_nat (length s) = size ->
  (length s <= n)%nat ->
  ntbs_outcome (ntbs_loop n result result_size size i pos w) =
    Some (1, size,
          World (file w) (fpos w + length s)
                (out w ++ [Printf "Error: Unterminated NTBS.\n" []])).
Proof.
  intros Hs. revert n result i pos w.
  induction Hs as [|c s Hc Hcs IH]; intros n result i pos w Hne Hd Hb Hn;
    [done|].
  destruct n as [|n]; [simpl in Hn; lia|]. simpl in Hb, Hn |- *.
  destruct (Z.ltb_spec pos size); [|lia].
  apply drop_cons_lookup in Hd as [Hx Hd].
  unfold bind, read_byte. rewrite Hx.
  unfold nonzero in Hc. destruct (Z.eqb_spec (byte_val c) 0); [done|].
  destruct s as [|c' s].
  - destruct (Z.geb_spec (pos + 1) size); [|simpl in Hb; lia].
    simpl. do 2 f_equal; [f_equal; lia | f_equal; lia].
  - destruct (Z.geb_spec (pos + 1) size); [simpl in Hb; lia|].
    rewrite IH; [|done|done|simpl in *; lia|simpl in *; lia].
    simpl. do 3 f_equal. lia.
Qed.

Lemma ntbs_loop_short_read n result result_size size i pos w s :
  Forall nonzero s ->
  drop (fpos w) (file w) = s ->
  pos + Z.of_nat (length s) < size ->
  (length s < n)%nat ->
  ntbs_outcome (ntbs_loop n result result_size size i pos w) =
    Some (1, pos + Z.of_nat (length s),
          World (file w) (fpos w + length s)
                (out w ++ [Perror "skipping NTBS\n"])).
Proof.
  intros Hs. revert n result i pos w.
  induction Hs as [|c s Hc Hcs IH]; intros n result i pos w Hd Hb Hn;
    (destruct n as [|n]; [simpl in Hn; lia|]); simpl in Hb, Hn |- *;
    (destruct (Z.ltb_spec pos size); [|lia]); unfold bind, read_byte.
  - assert (file w !! fpos w = None) as ->.
    { apply lookup_ge_None. apply drop_nil_inv in Hd. lia. }
    simpl. do 3 f_equal; [lia | f_equal; lia].
  - apply drop_cons_lookup in Hd as [Hx Hd]. rewrite Hx.
    unfold nonzero in Hc. destruct (Z.eqb_spec (byte_val c) 0); [done|].
    destruct (Z.geb_spec (pos + 1) size); [lia|].
    rewrite IH; [|done|lia|lia].
    simpl. do 3 f_equal; [lia | f_equal; lia].
Qed.

(** The buffer has no part in what is read. *)
Lemma ntbs_loop_outcome_buffer n result result' result_size result_size'
    size i i' pos w :
  ntbs_outcome (ntbs_loop n result result_size size i pos w) =
  ntbs_outcome (ntbs_loop n result' result_size' size i' pos w).
Proof.
  revert result result' i i' pos w.
  induction n as [|n IH]; intros result result' i i' pos w; simpl;
    (destruct (Z.ltb_spec pos size); [|done]); [done|].
  unfold bind, read_byte. destruct (file w !! fpos w) as [b|]; [|done].
  destruct (byte_val b =? 0); [done|].
  destruct (pos + 1 >=? size); [done|]. apply IH.
Qed.

(** *** The captured string *)

Lemma ntbs_stored_full b result_size i bs :
  result_size <= i -> ntbs_stored (Some b) result_size i bs = Some b.
Proof.
  revert i. induction bs as [|c bs IH]; intros i Hi; simpl; [done|].
  destruct (Z.ltb_spec i result_size); [lia|]. apply IH. lia.
Qed.

(** From index [length p] on, the bytes of [bs] fill what is left of the
    buffer, and no more. *)
Lemma ntbs_stored_fill p b bs :
  ntbs_stored (Some (p ++ b)) (Z.of_nat (length p + length b))
              (Z.of_nat (length p)) bs =
    Some (p ++ take (length b) bs ++ drop (length (take (length b) bs)) b).
Proof.
  revert p b. induction bs as [|c bs IH]; intros p b.
  - simpl. by rewrite take_nil.
  - destruct b as [|x b].
    + rewrite ntbs_stored_full by (simpl; lia). simpl.
      by rewrite !app_nil_r.
    + cbn [ntbs_stored store length].
      destruct (Z.ltb_spec (Z.of_nat (length p))
                           (Z.of_nat (length p + S (length b)))); [|lia].
      rewrite Nat2Z.id, insert_middle.
      replace (p ++ c :: b) with ((p ++ [c]) ++ b) by by rewrite <- app_assoc.
      replace (Z.of_nat (length p + S (length b)))
        with (Z.of_nat (length (p ++ [c]) + length b))
        by (rewrite length_app; simpl; lia).
      replace (Z.of_nat (length p) + 1) with (Z.of_nat (length (p ++ [c])))
        by (rewrite length_app; simpl; lia).
      rewrite IH. simpl. by rewrite <- app_assoc.
Qed.

Lemma c_str_app s r : Forall nonzero s -> c_str (s ++ x00 :: r) = s.
Proof.
  induction 1 as [|c s Hc _ IH]; [done|]. simpl.
  unfold nonzero in Hc. destruct (Z.eqb_spec (byte_val c) 0); [done|].
  by rewrite IH.
Qed.

(** The buffer of [K] bytes after a string [s] has been captured: the string,
    cut to [K - 1] bytes, and a NUL. *)
Lemma ntbs_captured b s :
  Forall nonzero s -> (0 < length b)%nat ->
  exists b',
    store (ntbs_stored (Some b) (Z.of_nat (length b)) 0 (s ++ [x00]))
          (Z.of_nat (length b)) (Z.of_nat (length b) - 1) x00 = Some b' /\
    length b' = length b /\
    c_str b' = take (length b - 1) s.
Proof.
  intros Hs Hb.
  pose proof (ntbs_stored_fill [] b (s ++ [x00])) as E.
  cbn [app length Nat.add] in E. change (Z.of_nat 0) with 0 in E. rewrite E.
  unfold store.
  destruct (Z.ltb_spec (Z.of_nat (length b) - 1) (Z.of_nat (length b))); [|lia].
  eexists. split; [done|].
  replace (Z.to_nat (Z.of_nat (length b) - 1)) with (length b - 1)%nat by lia.
  split.
  - rewrite length_insert, length_app, length_drop, length_take. lia.
  - destruct (Nat.lt_ge_cases (length s) (length b)) as [Hlt|Hge].
    + rewrite take_ge by (rewrite length_app; simpl; lia).
      rewrite <- app_assoc. simpl.
      rewrite insert_app_r_alt by lia.
      rewrite (take_ge s) by lia.
      destruct (length b - 1 - length s)%nat; simpl; by rewrite c_str_app.
    + rewrite take_app_le by lia.
      rewrite length_take, Nat.min_l by lia.
      rewrite drop_all, app_nil_r.
      destruct (length b) as [|k]; [lia|].
      replace (S k - 1)%nat with k by lia.
      destruct (lookup_lt_is_Some_2 s k) as [y Hy]; [lia|].
      rewrite (take_S_r _ _ y) by done.
      replace k with (length (take k s)) at 1 by (rewrite length_take; lia).
      rewrite insert_middle, c_str_app; [done|].
      by apply Forall_take.
Qed.

(** ** What a run does to the file *)

Lemma rewrites_refl c f : rewrites c f f.
Proof. split; [done|]. intros i. by left. Qed.

Lemma rewrites_trans c f1 f2 f3 :
  rewrites c f1 f2 -> rewrites c f2 f3 -> rewrites c f1 f3.
Proof.
  intros [H1 H2] [H3 H4]. split; [congruence|]. intros i.
  destruct (H4 i) as [->|]; [apply H2 | by right].
Qed.

Lemma rewrites_insert c f i :
  0 <= c -> rewrites c f (<[i := byte_of_Z c]> f).
Proof.
  intros Hc. split; [apply length_insert|]. intros j.
  destruct (decide (i = j)) as [<-|Hne].
  - destruct (Nat.lt_ge_cases i (length f)).
    + right. split; [done|]. by apply list_lookup_insert_eq.
    + left. by rewrite list_insert_ge.
  - left. by apply list_lookup_insert_ne.
Qed.

Lemma rewrites_readonly c f f' : c < 0 -> rewrites c f f' -> f' = f.
Proof.
  intros Hc [_ H]. apply list_eq. intros i. destruct (H i) as [|[? _]]; [done | lia].
Qed.

Lemma read_byte_within w b w' :
  read_byte w = Some (Some b, w') -> within w'.
Proof.
  intros H. apply read_byte_some in H as [Hb ->]. unfold within. simpl.
  apply lookup_lt_Some in Hb. lia.
Qed.

Lemma uleb128_loop_within n size shift result pos w r v pos' w' :
  uleb128_loop n size shift result pos w = Some (r, v, pos', w') ->
  within w -> within w'.
Proof.
  revert shift result pos w.
  induction n as [|n IH]; intros shift result pos w H Hw; simpl in H;
    destruct (Z.ltb_spec pos size); try discriminate H;
    try (by injection H as <- <- <- <-).
  unfold bind in H.
  destruct (read_byte w) as [[[b|] w1]|] eqn:E; [| |discriminate H].
  - pose proof (read_byte_within _ _ _ E) as Hw1.
    destruct (Z.land (byte_val b) 128 =? 0); [by injection H as <- <- <- <-|].
    destruct (pos + 1 >=? size); [by injection H as <- <- <- <-|].
    by eapply IH.
  - apply read_byte_none in E as [_ ->]. by injection H as <- <- <- <-.
Qed.

Lemma ntbs_loop_within n result result_size size i pos w r name pos' w' :
  ntbs_loop n result result_size size i pos w = Some (r, name, pos', w') ->
  within w -> within w'.
Proof.
  revert result i pos w.
  induction n as [|n IH]; intros result i pos w H Hw; simpl in H;
    destruct (Z.ltb_spec pos size); try discriminate H;
    try (by injection H as <- <- <- <-).
  unfold bind in H.
  destruct (read_byte w) as [[[b|] w1]|] eqn:E; [| |discriminate H].
  - pose proof (read_byte_within _ _ _ E) as Hw1.
    destruct (byte_val b =? 0); [by injection H as <- <- <- <-|].
    destruct (pos + 1 >=? size); [by injection H as <- <- <- <-|].
    by eapply IH.
  - apply read_byte_none in E as [_ ->]. by injection H as <- <- <- <-.
Qed.

(** Case 18 writes at most one byte, the replacement value, inside the
    file. *)
Lemma case_Tag_ABI_PCS_wchar_t_rewrites fuel size c pos w r pos' w' :
  case_Tag_ABI_PCS_wchar_t fuel size c pos w = Some (r, pos', w') ->
  within w ->
  (r = 0 \/ r = 1) /\ rewrites c (file w) (file w') /\ within w'.
Proof.
  unfold case_Tag_ABI_PCS_wchar_t, bind. intros H Hw.
  destruct (parse_uleb128 fuel pos size w) as [[[[r1 v] pos1] w1]|] eqn:E;
    [|discriminate H].
  pose proof (uleb128_loop_within _ _ _ _ _ _ _ _ _ _ E Hw) as Hw1.
  apply parse_uleb128_effect in E as ([Hf _] & _ & _ & _ & Hr & _).
  destruct w1 as [f1 p1 o1]. simpl in Hf. subst f1. unfold within in Hw1.
  simpl in Hw1.
  destruct (Z.eqb_spec r1 0); simpl in H.
  2: { injection H as <- <- <-. simpl.
       split; [lia|]. split; [apply rewrites_refl | done]. }
  destruct (Z.geb_spec c 0) as [Hc|Hc]; simpl in H.
  2: { injection H as <- <- <-. simpl.
       split; [lia|]. split; [apply rewrites_refl | done]. }
  assert (exists o2, (if v >? 127
                      then printf "Error: Unable to patch Tag_ABI_PCS_wchar_t: old value is too big.\n" []
                      else ret tt)
                       (World (file w) p1
                          (o1 ++ [Printf "Tag_ABI_PCS_wchar_t = %ld" [AInt v]])) =
                     Some (tt, World (file w) p1 o2)) as [o2 E2]
    by (destruct (v >? 127); by eexists).
  rewrite E2 in H. unfold lseek_cur, lseek_to in H. simpl in H.
  destruct (Z.ltb_spec (Z.of_nat p1 + -1) 0).
  - simpl in H. injection H as <- <- <-. simpl.
    split; [lia|]. split; [apply rewrites_refl | done].
  - destruct (Z.eqb_spec (Z.of_nat p1 + -1) (-1)); [lia|].
    unfold write_byte in H. simpl in H.
    destruct (Nat.ltb_spec (Z.to_nat (Z.of_nat p1 + -1)) (length (file w)));
      [|lia].
    simpl in H. injection H as <- <- <-. simpl.
    split; [lia|]. split; [by apply rewrites_insert|].
    unfold within. simpl. rewrite length_insert. lia.
Qed.

Lemma parse_uleb128_fixes fuel pos size w r v pos' w' :
  parse_uleb128 fuel pos size w = Some (r, v, pos', w') ->
  (r = 0 \/ r = 1) /\ file w' = file w /\ (within w -> within w').
Proof.
  intros H. split; [|split].
  - by apply parse_uleb128_effect in H as (_ & _ & _ & _ & ? & _).
  - by apply parse_uleb128_effect in H as ([? _] & _).
  - by eapply uleb128_loop_within.
Qed.

Lemma parse_ntbs_fixes fuel result result_size pos size w r name pos' w' :
  parse_ntbs fuel result result_size pos size w = Some (r, name, pos', w') ->
  (r = 0 \/ r = 1) /\ file w' = file w /\ (within w -> within w').
Proof.
  intros H. split; [|split].
  - by apply parse_ntbs_effect in H as (_ & _ & _ & _ & ?).
  - by apply parse_ntbs_effect in H as ([? _] & _).
  - by eapply ntbs_loop_within.
Qed.

Lemma switch_attr_rewrites fuel attr size c pos w r pos' w' :
  switch_attr fuel attr size c pos w = Some (r, pos', w') ->
  within w ->
  (r = 0 \/ r = 1) /\ rewrites c (file w) (file w') /\ within w'.
Proof.
  unfold switch_attr, bind. intros H Hw.
  repeat match type of H with
         | (if ?b then _ else _) _ = _ => destruct b
         end;
    try (by eapply case_Tag_ABI_PCS_wchar_t_rewrites);
    match type of H with
    | context [parse_ntbs ?f ?b ?n ?p ?s ?w0] =>
      destruct (parse_ntbs f b n p s w0) as [[[[r1 v] pos1] w1]|] eqn:E;
        [|discriminate H];
      apply parse_ntbs_fixes in E as (? & Hf & ?)
    | context [parse_uleb128 ?f ?p ?s ?w0] =>
      destruct (parse_uleb128 f p s w0) as [[[[r1 v] pos1] w1]|] eqn:E;
        [|discriminate H];
      apply parse_uleb128_fixes in E as (? & Hf & ?)
    end;
    injection H as <- <- <-; rewrite Hf;
    (split; [done|]; split; [apply rewrites_refl | auto]).
Qed.

Lemma attrs_loop_rewrites fuel n size c pos w r pos' w' :
  attrs_loop fuel n size c pos w = Some (r, pos', w') ->
  within w ->
  (r = 0 \/ r = 1) /\ rewrites c (file w) (file w').
Proof.
  revert pos w. induction n as [|n IH]; intros pos w H Hw; simpl in H;
    destruct (Z.ltb_spec pos size); try discriminate H;
    try (injection H as <- <- <-; split; [lia | apply rewrites_refl]).
  unfold bind in H.
  destruct (parse_uleb128 fuel pos size w) as [[[[r1 attr] pos1] w1]|] eqn:E;
    [|discriminate H].
  apply parse_uleb128_fixes in E as (Hr1 & Hf1 & Hw1).
  destruct (Z.eqb_spec r1 0); simpl in H.
  2: { injection H as <- <- <-. rewrite Hf1.
       split; [done | apply rewrites_refl]. }
  destruct (switch_attr fuel attr size c pos1 w1) as [[[r2 pos2] w2]|] eqn:E2;
    [|discriminate H].
  apply switch_attr_rewrites in E2 as (Hr2 & Hf2 & Hw2); [|auto].
  rewrite Hf1 in Hf2.
  destruct (Z.eqb_spec r2 0); simpl in H.
  2: { by injection H as <- <- <-. }
  apply IH in H as [Hr Hf]; [|done].
  split; [done|]. by eapply rewrites_trans.
Qed.

Lemma ids_loop_fixes fuel n size pos w r pos' w' :
  ids_loop fuel n size pos w = Some (r, pos', w') ->
  (r = 0 \/ r = 1) /\ file w' = file w /\ (within w -> within w').
Proof.
  revert pos w. induction n as [|n IH]; intros pos w H; simpl in H;
    [discriminate H|].
  unfold bind in H.
  destruct (parse_uleb128 fuel pos size w) as [[[[r1 id] pos1] w1]|] eqn:E;
    [|discriminate H].
  apply parse_uleb128_fixes in E as (Hr1 & Hf1 & Hw1).
  destruct (Z.eqb_spec r1 0); simpl in H; [|by injection H as <- <- <-].
  destruct (id =? 0); simpl in H.
  - injection H as <- <- <-. split; [lia | done].
  - apply IH in H as (Hr & Hf & Hw). split; [done|].
    split; [congruence | auto].
Qed.

Lemma parse_eabi_attr_aeabi_subsection_rewrites fuel pos size c w r pos' w' :
  parse_eabi_attr_aeabi_subsection fuel pos size c w = Some (r, pos', w') ->
  (r = 0 \/ r = 1) /\ rewrites c (file w) (file w').
Proof.
  unfold parse_eabi_attr_aeabi_subsection. intros H.
  destruct (size <? 1).
  { injection H as <- <- <-. split; [lia | apply rewrites_refl]. }
  unfold bind in H.
  destruct (read_byte w) as [[[tag|] w1]|] eqn:E; [| |discriminate H].
  2: { apply read_byte_none in E as [_ ->]. injection H as <- <- <-.
       split; [lia | apply rewrites_refl]. }
  pose proof (read_byte_within _ _ _ E) as Hw1.
  apply read_byte_some in E as [_ Ew1].
  assert (file w1 = file w) as Hf1 by by subst w1.
  match type of H with
  | match ?m with _ => _ end = _ =>
    destruct m as [[[r2 pos2] w2]|] eqn:E2; [|discriminate H]
  end.
  assert ((r2 = 0 \/ r2 = 1) /\ file w2 = file w1 /\ within w2)
    as (Hr2 & Hf2 & Hw2).
  { destruct (_ || _).
    - apply ids_loop_fixes in E2 as (? & ? & ?). auto.
    - injection E2 as <- <- <-. split; [lia | done]. }
  destruct (Z.eqb_spec r2 0); simpl in H.
  2: { injection H as <- <- <-. split; [done|].
       rewrite Hf2, Hf1. apply rewrites_refl. }
  apply attrs_loop_rewrites in H as [Hr Hf]; [|done].
  split; [done|]. by rewrite Hf2, Hf1 in Hf.
Qed.

Lemma section_loop_body_rewrites fuel sh_size c vendor_name pos w r name spos w' :
  section_loop_body fuel sh_size c vendor_name pos w = Some (r, name, spos, w') ->
  (r = 0 \/ r = 1) /\ rewrites c (file w) (file w').
Proof.
  unfold section_loop_body. intros H.
  destruct (_ >? _).
  { injection H as <- <- <- <-. split; [lia | apply rewrites_refl]. }
  unfold bind in H. destruct (read 4 w) as [[bs w1]|] eqn:E1; [|discriminate H].
  apply read_advanced in E1 as [Hf1 _].
  destruct (negb _).
  { injection H as <- <- <- <-. simpl. rewrite Hf1.
    split; [lia | apply rewrites_refl]. }
  destruct (_ >? _).
  { injection H as <- <- <- <-. simpl. rewrite Hf1.
    split; [lia | apply rewrites_refl]. }
  destruct (parse_ntbs fuel (Some vendor_name) 128 4 (le_val bs) w1)
    as [[[[r2 name2] spos2] w2]|] eqn:E2; [|discriminate H].
  apply parse_ntbs_fixes in E2 as (Hr2 & Hf2 & _).
  destruct (Z.eqb_spec r2 0); simpl in H.
  2: { injection H as <- <- <- <-. rewrite Hf2, Hf1.
       split; [done | apply rewrites_refl]. }
  destruct (strcmp _ _ =? 0).
  - destruct (parse_eabi_attr_aeabi_subsection fuel spos2 (le_val bs) c w2)
      as [[[r3 spos3] w3]|] eqn:E3; [|discriminate H].
    apply parse_eabi_attr_aeabi_subsection_rewrites in E3 as [Hr3 Hf3].
    injection H as <- <- <- <-. split; [done|]. by rewrite Hf2, Hf1 in Hf3.
  - unfold lseek_cur, lseek_to in H.
    destruct (_ <? 0); cbv beta iota in H; destruct (negb _);
      injection H as <- <- <- <-; simpl; rewrite Hf2, Hf1;
      (split; [lia | apply rewrites_refl]).
Qed.

Lemma section_loop_rewrites fuel n sh_size c vendor_name pos w r w' :
  section_loop fuel n sh_size c vendor_name pos w = Some (r, w') ->
  (r = 0 \/ r = 1) /\ rewrites c (file w) (file w').
Proof.
  revert vendor_name pos w.
  induction n as [|n IH]; intros vendor_name pos w H; simpl in H;
    destruct (Z.ltb_spec pos sh_size); try discriminate H;
    try (injection H as <- <-; split; [lia | apply rewrites_refl]).
  unfold bind in H.
  destruct (section_loop_body fuel sh_size c vendor_name pos w)
    as [[[[r1 name] spos] w1]|] eqn:E; [|discriminate H].
  apply section_loop_body_rewrites in E as [Hr1 Hf1].
  destruct (Z.eqb_spec r1 0); simpl in H; [|by injection H as <- <-].
  apply IH in H as [Hr Hf]. split; [done|]. by eapply rewrites_trans.
Qed.

Lemma parse_eabi_attr_section_rewrites fuel sh_size c vendor_name w r w' :
  parse_eabi_attr_section fuel sh_size c vendor_name w = Some (r, w') ->
  (r = 0 \/ r = 1) /\ rewrites c (file w) (file w').
Proof.
  unfold parse_eabi_attr_section, bind. intros H.
  destruct (if sh_size <? 1 then _ else _) as [[[] w0]|] eqn:E0;
    [|discriminate H].
  assert (file w0 = file w) as Hf0.
  { destruct (sh_size <? 1); by injection E0 as <-. }
  destruct (read_byte w0) as [[[version|] w1]|] eqn:E; [| |discriminate H].
  - apply read_byte_some in E as [_ ->].
    destruct (negb _); simpl in H.
    + injection H as <- <-. simpl. rewrite Hf0.
      split; [lia | apply rewrites_refl].
    + apply section_loop_rewrites in H. simpl in H. by rewrite Hf0 in H.
  - apply read_byte_none in E as [_ ->]. injection H as <- <-. simpl.
    rewrite Hf0. split; [lia | apply rewrites_refl].
Qed.

Lemma shdr_loop_rewrites fuel count c vendor_name w r w' :
  shdr_loop fuel count c vendor_name w = Some (r, w') ->
  (r = 0 \/ r = 1) /\ rewrites c (file w) (file w').
Proof.
  revert vendor_name w.
  induction count as [|count IH]; intros vendor_name w H; simpl in H.
  { injection H as <- <-. split; [lia | apply rewrites_refl]. }
  unfold bind in H.
  destruct (read sizeof_Elf32_Shdr w) as [[shdr w1]|] eqn:E1; [|discriminate H].
  apply read_advanced in E1 as [Hf1 _].
  destruct (negb (length shdr =? _)%nat).
  { injection H as <- <-. simpl. rewrite Hf1.
    split; [lia | apply rewrites_refl]. }
  destruct (negb (sh_type shdr =? _)).
  { apply IH in H. by rewrite Hf1 in H. }
  unfold lseek_cur, lseek_set, lseek_to in H.
  set (w2 := if Z.of_nat (fpos w1) + 0 <? 0 then _ else _) in H.
  assert (exists cur wc, w2 = Some (cur, wc) /\ file wc = file w1)
    as (cur & wc & -> & Hfc).
  { unfold w2. destruct (_ <? 0); by eexists _, _. }
  set (w3 := if sh_offset shdr <? 0 then _ else _) in H.
  assert (exists o ws, w3 = Some (o, ws) /\ file ws = file w1)
    as (o & ws & -> & Hfs).
  { unfold w3. destruct (_ <? 0); by eexists _, _. }
  destruct (o =? -1).
  { injection H as <- <-. simpl. rewrite Hfs, Hf1.
    split; [lia | apply rewrites_refl]. }
  destruct (parse_eabi_attr_section_vendor fuel (sh_size shdr) c vendor_name ws)
    as [[[r4 name4] w4]|] eqn:E4; [|discriminate H].
  apply parse_eabi_attr_section_vendor_status in E4 as [E4 _].
  apply parse_eabi_attr_section_rewrites in E4 as [Hr4 Hf4].
  rewrite Hfs, Hf1 in Hf4.
  destruct (Z.eqb_spec r4 0); simpl in H; [|by injection H as <- <-].
  set (w5 := if cur <? 0 then _ else _) in H.
  assert (exists o5 wr, w5 = Some (o5, wr) /\ file wr = file w4)
    as (o5 & wr & -> & Hfr).
  { unfold w5. destruct (_ <? 0); by eexists _, _. }
  destruct (o5 =? -1).
  { injection H as <- <-. simpl. rewrite Hfr. split; [lia | done]. }
  apply IH in H as [Hr Hf]. rewrite Hfr in Hf.
  split; [done|]. by eapply rewrites_trans.
Qed.

Lemma parse_rewrites fuel c vendor_name w r w' :
  parse fuel c vendor_name w = Some (r, w') ->
  (r = 0 \/ r = 1) /\ rewrites c (file w) (file w').
Proof.
  unfold parse, bind. intros H.
  destruct (read sizeof_Elf32_Ehdr w) as [[ehdr w1]|] eqn:E1; [|discriminate H].
  apply read_advanced in E1 as [Hf1 _].
  repeat match type of H with
         | (if ?b then _ else _) _ = _ =>
           destruct b;
             [injection H as <- <-; simpl; rewrite Hf1;
              split; [lia | apply rewrites_refl]|]
         end.
  unfold lseek_set, lseek_to in H.
  set (w2 := if e_shoff ehdr <? 0 then _ else _) in H.
  assert (exists o ws, w2 = Some (o, ws) /\ file ws = file w1)
    as (o & ws & -> & Hfs).
  { unfold w2. destruct (_ <? 0); by eexists _, _. }
  destruct (o =? -1).
  { injection H as <- <-. simpl. rewrite Hfs, Hf1.
    split; [lia | apply rewrites_refl]. }
  apply shdr_loop_rewrites in H. by rewrite Hfs, Hf1 in H.
Qed.

(** ** Termination of a run *)

Lemma le_val_bound bs : le_val bs < 256 ^ Z.of_nat (length bs).
Proof.
  induction bs as [|b bs IH]; [done|].
  cbn [le_val length]. rewrite Nat2Z.inj_succ, Z.pow_succ_r by lia.
  pose proof (byte_val_range b). lia.
Qed.

Lemma field_bound s off len : 0 <= field s off len < 256 ^ Z.of_nat len.
Proof.
  unfold field. split; [apply le_val_nonneg|].
  eapply Z.lt_le_trans; [apply le_val_bound|].
  apply Z.pow_le_mono_r; [lia|]. rewrite length_take. lia.
Qed.

Lemma parse_eabi_attr_section_total fuel sh_size wchar_size vendor_name w :
  sh_size <= Z.of_nat fuel -> (1 <= fuel)%nat ->
  exists x, parse_eabi_attr_section fuel sh_size wchar_size vendor_name w = Some x.
Proof.
  intros Hf H1. unfold parse_eabi_attr_section, bind.
  destruct (if sh_size <? 1 then _ else _) as [[[] w1]|] eqn:E1.
  - destruct (read_byte_total w1) as (r & w2 & ->).
    destruct r as [version|]; simpl; [|by eexists].
    destruct (negb _); simpl; [by eexists|].
    apply section_loop_total; lia.
  - by destruct (sh_size <? 1).
Qed.

Lemma shdr_loop_total fuel count wchar_size vendor_name w :
  2 ^ 32 <= Z.of_nat fuel ->
  exists x, shdr_loop fuel count wchar_size vendor_name w = Some x.
Proof.
  intros Hf. revert vendor_name w.
  induction count as [|count IH]; intros vendor_name w; simpl;
    [by eexists|].
  unfold bind, read.
  destruct (negb (_ =? _)%nat); [by eexists|].
  destruct (negb (_ =? _)); [apply IH|].
  unfold lseek_cur, lseek_set, lseek_to. cbn [file fpos out].
  destruct (_ <? 0); cbv beta iota;
    (destruct (_ <? 0); cbv beta iota;
     [destruct (_ =? -1); [by eexists|] | destruct (_ =? -1); [by eexists|]]);
    match goal with
    | |- context [parse_eabi_attr_section_vendor fuel ?s wchar_size
                                                 vendor_name ?w0] =>
      destruct (parse_eabi_attr_section_total fuel s wchar_size vendor_name w0)
        as ([r4 w4] & E4);
        [pose proof (field_bound (take sizeof_Elf32_Shdr
                                    (drop (fpos w) (file w))) 20 4);
         unfold sh_size; change (256 ^ Z.of_nat 4) with (2 ^ 32) in *; lia
        | lia |];
        apply parse_eabi_attr_section_vendor_result in E4 as (name4 & -> & _)
    end;
    (destruct (negb (r4 =? 0)); [by eexists|]);
    (destruct (_ <? 0); cbv beta iota;
     (destruct (_ =? -1); [by eexists | apply IH])).
Qed.

Lemma parse_total fuel wchar_size vendor_name w :
  2 ^ 32 <= Z.of_nat fuel ->
  exists x, parse fuel wchar_size vendor_name w = Some x.
Proof.
  intros Hf. unfold parse, bind, read.
  repeat match goal with
         | |- exists _, (if ?b then _ else _) _ = _ => destruct b; [by eexists|]
         end.
  unfold lseek_set, lseek_to. cbn [file fpos out].
  destruct (_ <? 0); cbv beta iota;
    (destruct (_ =? -1); [by eexists | by apply shdr_loop_total]).
Qed.

Lemma process_total fuel fs vendor_name filename wchar_size :
  2 ^ 32 <= Z.of_nat fuel ->
  exists r, process fuel fs vendor_name filename wchar_size = Some r.
Proof.
  intros Hf. unfold process. destruct (fs filename) as [contents|]; [|by eexists].
  destruct (parse_total fuel (to_char wchar_size) vendor_name
              (World contents 0 []) Hf) as ([r w] & ->).
  by eexists.
Qed.

Lemma process_rewrites fuel fs vendor_name filename c r :
  process fuel fs vendor_name filename c = Some r ->
  (status r = 0 \/ status r = 1) /\
  match opened r with
  | None => fs filename = None
  | Some f' => exists f, fs filename = Some f /\ rewrites (to_char c) f f'
  end.
Proof.
  unfold process. intros H. destruct (fs filename) as [contents|].
  - destruct (parse fuel (to_char c) vendor_name (World contents 0 []))
      as [[r1 w1]|] eqn:E; [|discriminate H].
    injection H as <-. apply parse_rewrites in E as [Hr Hf]. simpl.
    split; [done|]. by exists contents.
  - injection H as <-. simpl. split; [lia | done].
Qed.

(** ** What the primitive decoders print *)

Lemma uleb128_loop_output n size shift result pos w r v pos' w' :
  uleb128_loop n size shift result pos w = Some (r, v, pos', w') ->
  (r = 0 /\ out w' = out w) \/
  (r = 1 /\ pos' = size /\
   out w' = out w ++ [Printf "Error: Unterminated ULEB128.\n" []]) \/
  (r = 1 /\ file w' !! fpos w' = None /\
   out w' = out w ++ [Perror "reading ULEB128"]).
Proof.
  revert shift result pos w.
  induction n as [|n IH]; intros shift result pos w H; simpl in H;
    destruct (Z.ltb_spec pos size) as [Hlt|Hge]; try discriminate H;
    try (injection H as <- <- <- <-; by left).
  unfold bind in H. on_read_byte H.
  - destruct (Z.land (byte_val b) 128 =? 0).
    + injection H as <- <- <- <-. by left.
    + destruct (Z.geb_spec (pos + 1) size) as [Hend|Hin]; simpl in H.
      * injection H as <- <- <- <-. right; left. simpl.
        split; [done|]. split; [lia | done].
      * by apply IH in H.
  - injection H as <- <- <- <-. right; right. by simpl.
Qed.

Lemma ntbs_loop_output n result result_size size i pos w r name pos' w' :
  ntbs_loop n result result_size size i pos w = Some (r, name, pos', w') ->
  (r = 0 /\ out w' = out w) \/
  (r = 1 /\ pos' = size /\
   out w' = out w ++ [Printf "Error: Unterminated NTBS.\n" []]) \/
  (r = 1 /\ file w' !! fpos w' = None /\
   out w' = out w ++ [Perror "skipping NTBS\n"]).
Proof.
  revert result i pos w.
  induction n as [|n IH]; intros result i pos w H; simpl in H;
    destruct (Z.ltb_spec pos size) as [Hlt|Hge]; try discriminate H;
    try (injection H as <- <- <- <-; by left).
  unfold bind in H. on_read_byte H.
  - destruct (byte_val b =? 0).
    + injection H as <- <- <- <-. by left.
    + destruct (Z.geb_spec (pos + 1) size) as [Hend|Hin]; simpl in H.
      * injection H as <- <- <- <-. right; left. simpl.
        split; [done|]. split; [lia | done].
      * by apply IH in H.
  - injection H as <- <- <- <-. right; right. by simpl.
Qed.

(** ** Conversions *)

Lemma sint_range n z : 0 < n -> - 2 ^ (n - 1) <= sint n z < 2 ^ (n - 1).
Proof.
  intros Hn. unfold sint.
  assert (2 ^ n = 2 * 2 ^ (n - 1)) as E.
  { rewrite <- Z.pow_succ_r by lia. f_equal. lia. }
  pose proof (Z.mod_pos_bound z (2 ^ n)) as Hm.
  assert (0 < 2 ^ (n - 1)) by (apply Z.pow_pos_nonneg; lia).
  destruct (Z.ltb_spec (z mod 2 ^ n) (2 ^ (n - 1))); lia.
Qed.

Lemma to_char_idem z : to_char (to_char z) = to_char z.
Proof. unfold to_char. apply sint_id; [lia|]. apply sint_range. lia. Qed.

(** ** Subsections of other vendors *)

Lemma byte_val_inj b1 b2 : byte_val b1 = byte_val b2 -> b1 = b2.
Proof.
  unfold byte_val. intros H. apply N2Z.inj in H.
  apply (f_equal Byte.of_N) in H. rewrite !Byte.of_to_N in H. congruence.
Qed.

Lemma strcmp_eq s1 s2 :
  Forall nonzero s1 -> Forall nonzero s2 -> strcmp s1 s2 = 0 -> s1 = s2.
Proof.
  intros H1. revert s2.
  induction H1 as [|c1 s1 Hc1 _ IH]; intros s2 H2 H;
    destruct H2 as [|c2 s2 Hc2 H2]; simpl in H; unfold nonzero in *;
    try done; try lia.
  destruct (Z.eqb_spec (byte_val c1) (byte_val c2)) as [E|]; [|lia].
  apply byte_val_inj in E as ->. f_equal. by apply IH.
Qed.

Lemma nonzero_aeabi : Forall nonzero (list_byte_of_string "aeabi").
Proof. repeat constructor; by vm_compute. Qed.

(** One iteration of the walker on a subsection of another vendor: the name
    is read, the body is skipped by the seek, and the iteration fails. *)
Lemma section_loop_body_other_vendor fuel sh_size wchar_size vendor_name pos
    pre name body rest o :
  Forall nonzero name -> name <> list_byte_of_string "aeabi" ->
  (length name < 127)%nat -> length vendor_name = 128%nat ->
  0 <= pos ->
  Z.of_nat (5 + length name + length body) < 2 ^ 32 ->
  pos + Z.of_nat (5 + length name + length body) <= sh_size ->
  (length name < fuel)%nat ->
  exists b',
    section_loop_body fuel sh_size wchar_size vendor_name pos
        (World (pre ++ encode_vendor_subsection name body ++ rest)
               (length pre) o) =
      Some (1, b', Z.of_nat (5 + length name),
            World (pre ++ encode_vendor_subsection name body ++ rest)
                  (length pre + (5 + length name + length body))
                  (o ++ [Perror "skipping over unknown subsection"])).
Proof.
  intros Hname Hne Hlen Hv Hpos H32 Hs Hf.
  destruct (ntbs_captured vendor_name name Hname) as (b' & Eb & Hb' & Hstr);
    [lia|].
  rewrite Hv in Eb, Hstr. change (Z.of_nat 128) with 128 in Eb.
  rewrite take_ge in Hstr by lia.
  exists b'. unfold section_loop_body.
  destruct (Z.gtb_spec (pos + 4) sh_size); [lia|].
  unfold bind, encode_vendor_subsection.
  set (L := Z.of_nat (5 + length name + length body)) in *.
  rewrite <- (app_assoc (le_bytes 4 L)).
  rewrite read_middle by apply length_le_bytes.
  rewrite length_le_bytes.
  change (negb (Z.of_nat 4 =? 4)) with false. cbv iota beta.
  rewrite le_val_le_bytes by (change (256 ^ Z.of_nat 4) with (2 ^ 32); lia).
  destruct (Z.gtb_spec (pos + L) sh_size); [lia|].
  unfold bind.
  rewrite world_after by (by rewrite length_le_bytes).
  rewrite <- (app_assoc name).
  change ((x00 :: body) ++ rest) with (x00 :: body ++ rest).
  rewrite parse_ntbs_string; [|done | unfold L; lia | lia].
  rewrite Eb. unfold default, id.
  change (negb (0 =? 0)) with false. cbv iota beta.
  rewrite Hstr.
  destruct (Z.eqb_spec (strcmp name (list_byte_of_string "aeabi")) 0) as [E|_].
  { apply strcmp_eq in E; [done | done | apply nonzero_aeabi]. }
  unfold lseek_cur, lseek_to. cbn [file fpos out].
  match goal with
  | |- context [?t <? 0] => destruct (Z.ltb_spec t 0) as [Hneg|Hok]
  end.
  { rewrite length_app, length_le_bytes in Hneg. unfold L in Hneg. lia. }
  match goal with
  | |- context [negb (?t =? -1)] => destruct (Z.eqb_spec t (-1)); [lia|]
  end.
  unfold perror, ret. cbn [negb file fpos out].
  do 2 f_equal.
  - f_equal. lia.
  - f_equal; [by rewrite <- app_assoc|].
    rewrite length_app, length_le_bytes. unfold L. lia.
Qed.

(** ** Runs on a patched section *)

Lemma report_patched c a :
  0 <= c <= 0x7f -> wf_attribute a ->
  report (-1) (patch_attribute c a) =
    if tag_of a =? 18
    then [Printf "Tag_ABI_PCS_wchar_t = %ld" [AInt c]; Printf "\n" []]
    else [].
Proof.
  intros Hc (_ & _ & Hp).
  destruct (Z.eqb_spec (tag_of a) 18) as [E|E].
  - apply kind_of_wchar_t in E.
    unfold report. rewrite tag_of_patch. unfold patch_attribute. rewrite E.
    destruct (Z.geb_spec c 0); [|lia]. simpl.
    rewrite byte_val_of_Z, Z.mod_small by lia. done.
  - by rewrite patch_attribute_other, report_other.
Qed.

Lemma report_section_patched c l :
  0 <= c <= 0x7f -> Forall wf_subsection l ->
  report_section (-1) (map (patch_subsection c) l) = reads_back c l.
Proof.
  intros Hc Hl. unfold report_section, reads_back.
  induction Hl as [|s l (_ & Hs & _) _ IH]; [done|].
  cbn [map flat_map]. rewrite IH. f_equal.
  unfold patch_subsection. cbn [attrs].
  induction Hs as [|a al Ha _ IHa]; [done|].
  cbn [map flat_map]. by rewrite IHa, report_patched.
Qed.

Lemma patch_attribute_twice c1 c2 a :
  0 <= c2 ->
  patch_attribute c2 (patch_attribute c1 a) = patch_attribute c2 a.
Proof.
  intros Hc. unfold patch_attribute at 1 3. rewrite tag_of_patch.
  destruct (kind_of (tag_of a)) eqn:E; try (by rewrite ?patch_attribute_other
    by (unfold no_wchar_t; intros ?%kind_of_wchar_t; congruence)).
  destruct (Z.geb_spec c2 0); [|lia].
  unfold patch_attribute. rewrite E. by destruct (c1 >=? 0).
Qed.

Lemma patch_subsections_twice c1 c2 l :
  0 <= c2 ->
  map (patch_subsection c2) (map (patch_subsection c1) l) =
  map (patch_subsection c2) l.
Proof.
  intros Hc. rewrite map_map. apply map_ext. intros [ind nums al].
  unfold patch_subsection. cbn [indicator ids attrs]. f_equal.
  rewrite map_map. apply map_ext. intros a. by apply patch_attribute_twice.
Qed.

Lemma wf_patch_subsections c l :
  0 <= c <= 0x7f -> Forall wf_subsection l ->
  Forall wf_subsection (map (patch_subsection c) l).
Proof.
  intros Hc Hl. apply Forall_fmap.
  eapply Forall_impl; [exact Hl|]. intros s. by apply wf_patch_subsection.
Qed.

(** Well-formedness of subsections given by their bytes. *)
Ltac wf_ids_sample :=
  first [ apply (wf_ids_last []); [constructor | by vm_compute | by vm_compute]
        | apply (wf_ids_more [] _); [constructor | by vm_compute | by vm_compute |];
          wf_ids_sample ].

Ltac wf_attributes_sample :=
  first [ apply List.Forall_nil
        | apply List.Forall_cons;
          [split; [constructor|]; split; [by vm_compute|];
           first [by vm_compute | repeat constructor; by vm_compute]
          | wf_attributes_sample ] ].

Ltac wf_sample :=
  first [ apply List.Forall_nil
        | apply List.Forall_cons;
          [split; [first [reflexivity | wf_ids_sample]|];
           split; [wf_attributes_sample | by vm_compute]
          | wf_sample ] ].

(** The walker over well-formed "aeabi" subsections, with the size of the
    array of the vendor name. *)
Lemma section_loop_subsections_length fuel n sh_size wchar_size vendor_name pos
    pre l rest o :
  Forall wf_subsection l -> 0 <= pos ->
  pos + Z.of_nat (length (flat_map encode_subsection l)) <= sh_size ->
  (length (flat_map encode_subsection l) <= fuel)%nat ->
  (length l <= n)%nat -> (6 <= length vendor_name)%nat ->
  exists vendor_name',
    length vendor_name' = length vendor_name /\
    section_loop fuel n sh_size wchar_size vendor_name pos
        (World (pre ++ flat_map encode_subsection l ++ rest) (length pre) o) =
      section_loop fuel (n - length l) sh_size wchar_size vendor_name'
        (pos + Z.of_nat (length (flat_map encode_subsection l)))
        (World (pre ++ flat_map encode_subsection
                         (map (patch_subsection wchar_size) l) ++ rest)
               (length pre + length (flat_map encode_subsection l))
               (o ++ report_section wchar_size l)).
Proof.
  intros Hl. revert n vendor_name pos pre o.
  induction Hl as [|s l Hs _ IH]; intros n vendor_name pos pre o Hpos Hb Hf Hn Hv.
  - exists vendor_name. split; [done|]. simpl. rewrite Nat.sub_0_r. same_loop.
  - cbn [flat_map map length] in *. rewrite length_app in Hb, Hf.
    pose proof (length_encode_subsection s) as Hlen.
    destruct n as [|n]; [lia|].
    destruct (IH n (vendor_after vendor_name)
                 (pos + Z.of_nat (length (encode_subsection s)))
                 (pre ++ encode_subsection (patch_subsection wchar_size s))
                 (o ++ flat_map (report wchar_size) (attrs s)))
      as (v' & Hv' & E); [lia | lia | lia | lia | by rewrite length_vendor_after |].
    exists v'. split; [by rewrite Hv', length_vendor_after|].
    cbn [section_loop].
    destruct (Z.ltb_spec pos sh_size); [|lia].
    unfold bind at 1. rewrite <- app_assoc.
    rewrite section_loop_body_subsection by (done || lia).
    change (negb (0 =? 0)) with false. cbv iota beta.
    rewrite world_after by (by rewrite length_encode_subsection_patch).
    rewrite E. rewrite length_app, length_encode_subsection_patch by done.
    unfold report_section. cbn [flat_map]. same_loop.
Qed.

Lemma length_encode_vendor_subsection name body :
  length (encode_vendor_subsection name body) =
    (5 + length name + length body)%nat.
Proof.
  unfold encode_vendor_subsection.
  rewrite !length_app, length_le_bytes. simpl. lia.
Qed.

Lemma parse_eabi_attr_section_other_vendor fuel sh_size wchar_size vendor_name
    pre l name body rest o :
  Forall wf_subsection l ->
  Forall nonzero name -> name <> list_byte_of_string "aeabi" ->
  (length name < 127)%nat -> length vendor_name = 128%nat ->
  Z.of_nat (length (encode_vendor_subsection name body)) < 2 ^ 32 ->
  Z.of_nat (length (encode_section l)
            + length (encode_vendor_subsection name body)) <= sh_size ->
  (length (encode_section l) + length name <= fuel)%nat ->
  parse_eabi_attr_section fuel sh_size wchar_size vendor_name
      (World (pre ++ encode_section l
                  ++ encode_vendor_subsection name body ++ rest)
             (length pre) o) =
    Some (1,
          World (pre ++ encode_section (map (patch_subsection wchar_size) l)
                     ++ encode_vendor_subsection name body ++ rest)
                (length pre + length (encode_section l)
                 + length (encode_vendor_subsection name body))
                (o ++ report_section wchar_size l
                   ++ [Perror "skipping over unknown subsection"])).
Proof.
  intros Hl Hname Hne Hlen Hv H32 Hs Hf.
  rewrite length_encode_vendor_subsection in *.
  unfold encode_section in *. cbn [length] in *.
  set (L := length (flat_map encode_subsection l)) in *.
  unfold parse_eabi_attr_section.
  destruct (Z.ltb_spec sh_size 1); [lia|].
  unfold bind, ret. cbn [app]. rewrite read_byte_middle.
  change (negb (byte_val (byte_of_Z 65) =? 65)) with false. cbv iota beta.
  change (byte_of_Z 65 :: flat_map encode_subsection l
            ++ encode_vendor_subsection name body ++ rest)
    with ([byte_of_Z 65] ++ flat_map encode_subsection l
            ++ encode_vendor_subsection name body ++ rest).
  rewrite world_after by (simpl; lia).
  pose proof (length_encode_subsections_ge l).
  destruct (section_loop_subsections_length fuel fuel sh_size wchar_size
              vendor_name 1 (pre ++ [byte_of_Z 65]) l
              (encode_vendor_subsection name body ++ rest) o)
    as (v' & Hv' & ->); [done | lia | fold L; lia | fold L; lia | lia | lia |].
  fold L.
  destruct (fuel - length l)%nat as [|n] eqn:En; [lia|].
  cbn [section_loop].
  destruct (Z.ltb_spec (1 + Z.of_nat L) sh_size); [|lia].
  unfold bind.
  assert (World
            ((pre ++ [byte_of_Z 65])
               ++ flat_map encode_subsection (map (patch_subsection wchar_size) l)
               ++ encode_vendor_subsection name body ++ rest)
            (length (pre ++ [byte_of_Z 65]) + L)
            (o ++ report_section wchar_size l) =
          World
            (((pre ++ [byte_of_Z 65])
                ++ flat_map encode_subsection
                            (map (patch_subsection wchar_size) l))
               ++ encode_vendor_subsection name body ++ rest)
            (length ((pre ++ [byte_of_Z 65])
                       ++ flat_map encode_subsection
                                   (map (patch_subsection wchar_size) l)))
            (o ++ report_section wchar_size l)) as ->.
  { f_equal; [by rewrite <- !app_assoc|].
    rewrite (length_app (pre ++ [byte_of_Z 65])).
    by rewrite length_encode_subsections_patch. }
  destruct (section_loop_body_other_vendor fuel sh_size wchar_size v'
              (1 + Z.of_nat L)
              ((pre ++ [byte_of_Z 65])
                 ++ flat_map encode_subsection
                             (map (patch_subsection wchar_size) l))
              name body rest (o ++ report_section wchar_size l))
    as (b' & ->); [done | done | done | congruence | lia | lia | lia | lia |].
  change (negb (1 =? 0)) with true. cbv iota beta.
  unfold ret. do 2 f_equal. f_equal.
  - by rewrite <- !app_assoc.
  - rewrite !length_app, length_encode_subsections_patch by done.
    fold L. simpl. lia.
  - by rewrite <- app_assoc.
Qed.

(** ** Ranges of bytes in a file *)

Lemma take_drop_inside {A} (f : list A) a s :
  take (length s) (drop a f) = s -> s <> [] ->
  (a + length s <= length f)%nat.
Proof.
  intros H Hs. apply (f_equal length) in H.
  rewrite length_take, length_drop in H.
  destruct s; [done|]. cbn [length] in *. lia.
Qed.

Lemma take_drop_split {A} (f : list A) a s :
  take (length s) (drop a f) = s ->
  f = take a f ++ s ++ drop (a + length s) f.
Proof.
  intros H. rewrite <- (drop_drop f (length s) a).
  rewrite <- H at 1. by rewrite !take_drop.
Qed.

Lemma splice_same f a s : take (length s) (drop a f) = s -> splice f a s = f.
Proof. intros H. unfold splice. by rewrite <- take_drop_split. Qed.

Lemma lookup_splice_outside f a s i :
  (a + length s <= length f)%nat ->
  (i < a \/ a + length s <= i)%nat ->
  splice f a s !! i = f !! i.
Proof.
  intros Hin Hi. unfold splice.
  assert (length (take a f) = a) as Hlen by (rewrite length_take; lia).
  destruct Hi as [Hi|Hi].
  - rewrite lookup_app_l by lia. rewrite lookup_take.
    destruct (decide (i < a)%nat); [done | lia].
  - rewrite lookup_app_r by lia. rewrite lookup_app_r by lia.
    rewrite lookup_drop. f_equal. lia.
Qed.

Lemma take_drop_splice f a s b n :
  (a + length s <= length f)%nat ->
  apart (a, length s) (b, n) ->
  take n (drop b (splice f a s)) = take n (drop b f).
Proof.
  intros Hin Hap. unfold apart in Hap. simpl in Hap.
  apply list_eq. intros i. rewrite !lookup_take.
  destruct (decide (i < n)%nat); [|done].
  rewrite !lookup_drop. apply lookup_splice_outside; [done | lia].
Qed.

Lemma table_head {A} (f : list A) p k n h c :
  take (k * S n) (drop p f) = h ++ c -> length h = k ->
  take k (drop p f) = h /\ take (k * n) (drop (p + k) f) = c.
Proof.
  intros H Hh. split.
  - replace k with (k `min` (k * S n))%nat at 1 by lia.
    rewrite <- take_take, H. by apply take_app_length'.
  - rewrite <- drop_drop, take_drop_commute.
    replace (k + k * n)%nat with (k * S n)%nat by lia.
    rewrite H. by apply drop_app_length'.
Qed.

(** ** The section header table *)

Lemma length_encode_section_pos l : (0 < length (encode_section l))%nat.
Proof. unfold encode_section. simpl. lia. Qed.

Lemma describes_splice f a s sec :
  (a + length s <= length f)%nat ->
  match extent sec with
  | Some r' => apart (a, length s) r'
  | None => True
  end ->
  describes f sec -> describes (splice f a s) sec.
Proof.
  intros Hin Hap [Hh Hd]. split; [done|].
  destruct sec as [h [l|]]; [|done].
  destruct Hd as (Ht & Hwf & Hsz & Hf). simpl in Hap.
  repeat (split; [done|]).
  by rewrite take_drop_splice.
Qed.

(** The loop over the section headers on a table of described sections:
    the sections of other types are passed over, each attributes section is
    walked and the descriptor is put back behind its header. *)
Lemma shdr_loop_sections fuel wchar_size vendor_name secs f p o :
  Forall (describes f) secs ->
  take (sizeof_Elf32_Shdr * length secs) (drop p f) = concat (map fst secs) ->
  (0 <= wchar_size -> wchar_size <= 0x7f /\ apart_from_rest p secs) ->
  Forall (fun s => match extent s with
                   | Some r => (snd r <= fuel)%nat
                   | None => True
                   end) secs ->
  (6 <= length vendor_name)%nat ->
  shdr_loop fuel (length secs) wchar_size vendor_name (World f p o) =
    Some (0, World (patched_file wchar_size secs f)
                   (p + sizeof_Elf32_Shdr * length secs)
                   (o ++ report_file wchar_size secs)).
Proof.
  intros Hd. revert vendor_name p o.
  induction secs as [|[h d] secs IH] in f, Hd |- *;
    intros vendor_name p o Htab Hap Hfuel Hv.
  { simpl. unfold ret. do 3 f_equal; [lia | by rewrite app_nil_r]. }
  apply Forall_cons_1 in Hd as [[Hh Hhd] Hd].
  apply Forall_cons_1 in Hfuel as [Hfh Hfuel].
  cbn [fst] in Hh. cbn [length map concat fst] in Htab.
  apply table_head in Htab as [Hread Htab]; [|done].
  cbn [length shdr_loop]. unfold bind, read. cbn [file fpos out].
  rewrite Hread, Hh.
  change (negb (sizeof_Elf32_Shdr =? sizeof_Elf32_Shdr)%nat) with false.
  cbv iota beta.
  assert ((p + sizeof_Elf32_Shdr + sizeof_Elf32_Shdr * length secs)%nat =
          (p + sizeof_Elf32_Shdr * S (length secs))%nat) as Hpos by lia.
  destruct d as [l|].
  - destruct Hhd as (Ht & Hwf & Hsz & Hsec).
    rewrite Ht.
    change (negb (SHT_ARM_ATTRIBUTES =? SHT_ARM_ATTRIBUTES)) with false.
    cbv iota beta.
    unfold lseek_cur, lseek_set, lseek_to. cbn [file fpos out].
    pose proof (field_bound h 16 4) as [Hoff _]. fold (sh_offset h) in Hoff.
    destruct (Z.ltb_spec (Z.of_nat (p + sizeof_Elf32_Shdr) + 0) 0); [lia|].
    destruct (Z.ltb_spec (sh_offset h) 0); [lia|].
    destruct (Z.eqb_spec (sh_offset h) (-1)); [lia|].
    cbn [file fpos out].
    set (a := Z.to_nat (sh_offset h)) in *.
    pose proof (length_encode_section_pos l) as Hlpos.
    assert (a + length (encode_section l) <= length f)%nat as Hin.
    { apply take_drop_inside; [done|]. intros E. rewrite E in Hlpos.
      simpl in Hlpos. lia. }
    assert (World f a o =
            World (take a f ++ encode_section l
                     ++ drop (a + length (encode_section l)) f)
                  (length (take a f)) o) as ->.
    { f_equal; [by apply take_drop_split | rewrite length_take; lia]. }
    rewrite Hsz.
    pose proof (parse_eabi_attr_section_subsections fuel wchar_size
                  vendor_name (take a f) l
                  (drop (a + length (encode_section l)) f) o Hwf Hfh Hv)
      as Hwalk.
    apply parse_eabi_attr_section_vendor_result in Hwalk
      as (name & Hwalk & Hname).
    rewrite Hwalk. rewrite <- Hname in Hv.
    change (negb (0 =? 0)) with false. cbv iota beta. cbn [file fpos out].
    destruct (Z.ltb_spec (Z.of_nat (p + sizeof_Elf32_Shdr) + 0) 0); [lia|].
    destruct (Z.eqb_spec (Z.of_nat (p + sizeof_Elf32_Shdr) + 0) (-1)); [lia|].
    replace (Z.to_nat (Z.of_nat (p + sizeof_Elf32_Shdr) + 0))
      with (p + sizeof_Elf32_Shdr)%nat by lia.
    pose proof (length_encode_section_patch wchar_size l Hwf) as Hlen.
    set (s' := encode_section (map (patch_subsection wchar_size) l)) in *.
    assert (take a f ++ s' ++ drop (a + length (encode_section l)) f
            = splice f a s') as ->.
    { unfold splice. by rewrite Hlen. }
    cbn [patched_file fold_left]. fold a. fold s'.
    fold (patched_file wchar_size secs (splice f a s')).
    unfold report_file. cbn [flat_map snd].
    fold (report_file wchar_size secs).
    rewrite (app_assoc o), <- Hpos.
    destruct (Z.le_gt_cases 0 wchar_size) as [Hc|Hc].
    + destruct (Hap Hc) as (Hc' & (Hat & Har) & Hrest). cbn [extent] in Hat, Har.
      fold a in Hat, Har. rewrite <- Hlen in Hat, Har, Hin.
      apply IH; [| |done|done|done].
      * rewrite Forall_forall in Har. apply Forall_forall. intros sec Hsec'.
        apply describes_splice; [done | by apply Har |].
        rewrite Forall_forall in Hd. by apply Hd.
      * by rewrite take_drop_splice.
    + assert (s' = encode_section l) as Es.
      { unfold s'. by rewrite patch_subsections_readonly. }
      rewrite splice_same by (by rewrite Es).
      apply IH; [done | done | lia | done | done].
  - destruct (Z.eqb_spec (sh_type h) SHT_ARM_ATTRIBUTES); [done|].
    cbn [negb patched_file fold_left].
    fold (patched_file wchar_size secs f).
    unfold report_file. cbn [flat_map snd app].
    fold (report_file wchar_size secs). rewrite <- Hpos.
    apply IH; [done | done | | done | done].
    intros Hc. destruct (Hap Hc) as (? & _ & ?). done.
Qed.

Lemma patched_file_readonly wchar_size secs f :
  wchar_size < 0 -> Forall (describes f) secs ->
  patched_file wchar_size secs f = f.
Proof.
  intros Hc Hd. induction Hd as [|[h [l|]] secs [_ Hs] _ IH]; [done| |done].
  cbn [patched_file fold_left]. rewrite patch_subsections_readonly by done.
  destruct Hs as (_ & _ & _ & Hs). by rewrite splice_same.
Qed.

(** [parse] on an ARM ELF file of described sections. *)
Lemma parse_sections fuel wchar_size vendor_name f shoff secs o :
  arm_elf f shoff (length secs) ->
  take (sizeof_Elf32_Shdr * length secs) (drop shoff f)
    = concat (map fst secs) ->
  Forall (describes f) secs ->
  (0 <= wchar_size -> wchar_size <= 0x7f /\ apart_from_rest shoff secs) ->
  sections_within fuel secs ->
  (6 <= length vendor_name)%nat ->
  parse fuel wchar_size vendor_name (World f 0 o) =
    Some (0, World (patched_file wchar_size secs f)
                   (shoff + sizeof_Elf32_Shdr * length secs)
                   (o ++ report_file wchar_size secs)).
Proof.
  intros (Hh & Hmag & Hmach & Hoff & Hnz & Hent & Hnum) Htab Hd Hap Hfuel Hv.
  unfold parse, bind, read. cbn [file fpos out]. rewrite drop_0.
  rewrite Hh, Hmag, Hmach, Hoff, Hent, Hnum.
  change (negb (sizeof_Elf32_Ehdr =? sizeof_Elf32_Ehdr)%nat) with false.
  change (negb true) with false.
  change (negb (EM_ARM =? EM_ARM)) with false.
  rewrite (Z.eqb_refl (Z.of_nat sizeof_Elf32_Shdr)).
  change (negb true) with false. cbv iota beta.
  destruct (Z.eqb_spec (Z.of_nat shoff) 0); [lia|].
  unfold lseek_set, lseek_to. cbn [file fpos out].
  destruct (Z.ltb_spec (Z.of_nat shoff) 0); [lia|].
  destruct (Z.eqb_spec (Z.of_nat shoff) (-1)); [lia|].
  rewrite !Nat2Z.id.
  by apply shdr_loop_sections.
Qed.

(** ** Cursor, descriptor and console *)

Lemma reported_out w w' : out w' = out w -> reported 0 w w'.
Proof. intros H. exists []. by rewrite app_nil_r. Qed.

Lemma reported_message r w w' e : out w' = out w ++ [e] -> reported r w w'.
Proof. intros H. by exists [e]. Qed.

Lemma reported_trans r1 r w w1 w2 :
  reported r1 w w1 -> reported r w1 w2 -> reported r w w2.
Proof.
  intros (o1 & E1 & _) (o2 & E2 & H). exists (o1 ++ o2).
  split; [by rewrite E2, E1, app_assoc|].
  intros Hr. specialize (H Hr). by destruct o1, o2.
Qed.

Lemma reported_more r w w1 w2 e :
  reported r w w1 -> out w2 = out w1 ++ [e] -> reported 1 w w2.
Proof.
  intros H E. eapply reported_trans; [exact H|]. by eapply reported_message.
Qed.

Lemma in_step_refl pos w w' : fpos w' = fpos w -> in_step pos w pos w'.
Proof. intros H. unfold in_step. rewrite H. lia. Qed.

Lemma in_step_trans pos w pos1 w1 pos2 w2 :
  in_step pos w pos1 w1 -> in_step pos1 w1 pos2 w2 -> in_step pos w pos2 w2.
Proof. unfold in_step. lia. Qed.

Lemma parse_uleb128_tracked fuel pos size w r v pos' w' :
  parse_uleb128 fuel pos size w = Some (r, v, pos', w') ->
  in_step pos w pos' w' /\ reported r w w'.
Proof.
  intros H.
  pose proof (parse_uleb128_effect _ _ _ _ _ _ _ _ H) as ([_ Hp] & Hle & _).
  split; [done|].
  apply uleb128_loop_output in H as [[-> Ho]|[(_ & _ & Ho)|(_ & _ & Ho)]].
  - by apply reported_out.
  - by eapply reported_message.
  - by eapply reported_message.
Qed.

Lemma parse_ntbs_tracked fuel result result_size pos size w r name pos' w' :
  parse_ntbs fuel result result_size pos size w = Some (r, name, pos', w') ->
  in_step pos w pos' w' /\ reported r w w'.
Proof.
  intros H.
  pose proof (parse_ntbs_effect _ _ _ _ _ _ _ _ _ _ H) as ([_ Hp] & Hle & _).
  split; [done|].
  apply ntbs_loop_output in H as [[-> Ho]|[(_ & _ & Ho)|(_ & _ & Ho)]].
  - by apply reported_out.
  - by eapply reported_message.
  - by eapply reported_message.
Qed.

Lemma case_Tag_ABI_PCS_wchar_t_tracked fuel size c pos w r pos' w' :
  case_Tag_ABI_PCS_wchar_t fuel size c pos w = Some (r, pos', w') ->
  in_step pos w pos' w' /\ reported r w w'.
Proof.
  unfold case_Tag_ABI_PCS_wchar_t, bind. intros H.
  destruct (parse_uleb128 fuel pos size w) as [[[[r1 v] pos1] w1]|] eqn:E;
    [|discriminate H].
  apply parse_uleb128_tracked in E as [Hs Hr].
  destruct (Z.eqb_spec r1 0) as [->|]; simpl in H;
    [|by injection H as <- <- <-].
  unfold printf, perror, ret, lseek_cur, lseek_to, write_byte in H.
  cbn [file fpos out] in H.
  destruct (c >=? 0).
  - destruct (v >? 127); cbn [file fpos out] in H;
      (destruct (Z.ltb_spec (Z.of_nat (fpos w1) + -1) 0);
       cbn [file fpos out] in H;
       [change (-1 =? -1) with true in H; cbv iota beta in H
       |destruct (Z.eqb_spec (Z.of_nat (fpos w1) + -1) (-1)); [lia|];
        cbn [file fpos out] in H;
        change (negb (1 =? 1)) with false in H; cbv iota beta in H];
       cbn [file fpos out] in H; injection H as <- <- <-;
       (split;
        [destruct Hs; split; cbn [fpos]; lia
        |eapply reported_trans; [exact Hr|];
         eexists; split; [cbn [out]; rewrite <- ?app_assoc; reflexivity|];
         intros _; discriminate])).
  - injection H as <- <- <-. split; [done|].
    eapply reported_trans; [exact Hr|].
    eexists; split; [cbn [out]; rewrite <- ?app_assoc; reflexivity|].
    intros _; discriminate.
Qed.

Lemma switch_attr_tracked fuel attr size c pos w r pos' w' :
  switch_attr fuel attr size c pos w = Some (r, pos', w') ->
  in_step pos w pos' w' /\ reported r w w'.
Proof.
  unfold switch_attr, bind, ret. intros H.
  repeat match type of H with
         | (if ?b then _ else _) _ = _ => destruct b
         end;
    try (by eapply case_Tag_ABI_PCS_wchar_t_tracked);
    match type of H with
    | match ?m with _ => _ end = _ =>
      destruct m as [[[[r1 v] pos1] w1]|] eqn:E; [|discriminate H]
    end;
    injection H as <- <- <-;
    first [by eapply parse_ntbs_tracked | by eapply parse_uleb128_tracked].
Qed.

Lemma attrs_loop_tracked fuel n size c pos w r pos' w' :
  attrs_loop fuel n size c pos w = Some (r, pos', w') ->
  in_step pos w pos' w' /\ reported r w w'.
Proof.
  revert pos w. induction n as [|n IH]; intros pos w H; simpl in H;
    destruct (pos <? size); try discriminate H;
    try (injection H as <- <- <-;
         split; [by apply in_step_refl | by apply reported_out]).
  unfold bind in H.
  destruct (parse_uleb128 fuel pos size w) as [[[[r1 attr] pos1] w1]|] eqn:E;
    [|discriminate H].
  apply parse_uleb128_tracked in E as [Hs1 Hr1].
  destruct (Z.eqb_spec r1 0) as [->|]; simpl in H;
    [|by injection H as <- <- <-].
  destruct (switch_attr fuel attr size c pos1 w1) as [[[r2 pos2] w2]|] eqn:E2;
    [|discriminate H].
  apply switch_attr_tracked in E2 as [Hs2 Hr2].
  pose proof (in_step_trans _ _ _ _ _ _ Hs1 Hs2) as Hs.
  pose proof (reported_trans _ _ _ _ _ Hr1 Hr2) as Hr.
  destruct (Z.eqb_spec r2 0) as [->|]; simpl in H;
    [|by injection H as <- <- <-].
  apply IH in H as [Hs3 Hr3].
  split; [by eapply in_step_trans | by eapply reported_trans].
Qed.

Lemma ids_loop_tracked fuel n size pos w r pos' w' :
  ids_loop fuel n size pos w = Some (r, pos', w') ->
  in_step pos w pos' w' /\ reported r w w'.
Proof.
  revert pos w. induction n as [|n IH]; intros pos w H; simpl in H;
    [discriminate H|].
  unfold bind in H.
  destruct (parse_uleb128 fuel pos size w) as [[[[r1 id] pos1] w1]|] eqn:E;
    [|discriminate H].
  apply parse_uleb128_tracked in E as [Hs1 Hr1].
  destruct (Z.eqb_spec r1 0) as [->|]; simpl in H;
    [|by injection H as <- <- <-].
  destruct (id =? 0); simpl in H.
  - by injection H as <- <- <-.
  - apply IH in H as [Hs Hr].
    split; [by eapply in_step_trans | by eapply reported_trans].
Qed.

Lemma parse_eabi_attr_aeabi_subsection_tracked fuel pos size c w r pos' w' :
  parse_eabi_attr_aeabi_subsection fuel pos size c w = Some (r, pos', w') ->
  in_step pos w pos' w' /\ reported r w w' /\ (r = 0 -> pos < pos').
Proof.
  unfold parse_eabi_attr_aeabi_subsection. intros H.
  destruct (size <? 1).
  { injection H as <- <- <-.
    split; [by apply in_step_refl|]. split; [|done].
    by eapply reported_message. }
  unfold bind in H.
  destruct (read_byte w) as [[[tag|] w1]|] eqn:E; [| |discriminate H].
  2: { apply read_byte_none in E as [_ ->]. injection H as <- <- <-.
       split; [by apply in_step_refl|]. split; [|done].
       by eapply reported_message. }
  apply read_byte_some in E as [_ Ew1].
  assert (in_step pos w (pos + 1) w1 /\ reported 0 w w1) as [Hs1 Hr1].
  { subst w1. split; [unfold in_step; simpl; lia | by apply reported_out]. }
  match type of H with
  | match ?m with _ => _ end = _ =>
    destruct m as [[[r2 pos2] w2]|] eqn:E2; [|discriminate H]
  end.
  assert (in_step (pos + 1) w1 pos2 w2 /\ reported r2 w1 w2) as [Hs2 Hr2].
  { destruct (_ || _).
    - by eapply ids_loop_tracked.
    - injection E2 as <- <- <-.
      split; [by apply in_step_refl | by apply reported_out]. }
  pose proof (in_step_trans _ _ _ _ _ _ Hs1 Hs2) as Hs.
  pose proof (reported_trans _ _ _ _ _ Hr1 Hr2) as Hr.
  destruct (Z.eqb_spec r2 0) as [->|]; simpl in H.
  2: { injection H as <- <- <-. done. }
  apply attrs_loop_tracked in H as [Hs3 Hr3].
  split; [by eapply in_step_trans|]. split; [by eapply reported_trans|].
  intros _. destruct Hs2, Hs3. lia.
Qed.

Lemma section_loop_body_tracked fuel sh_size c vendor_name pos w r name spos w' :
  section_loop_body fuel sh_size c vendor_name pos w = Some (r, name, spos, w') ->
  reported r w w' /\
  (r = 0 -> Z.of_nat (fpos w') = Z.of_nat (fpos w) + spos /\ 4 < spos).
Proof.
  unfold section_loop_body. intros H.
  destruct (_ >? _).
  { injection H as <- <- <- <-. split; [by eapply reported_message | done]. }
  unfold bind, read in H. cbn [file fpos out] in H.
  set (bs := take 4 (drop (fpos w) (file w))) in *.
  destruct (Z.eqb_spec (Z.of_nat (length bs)) 4) as [Hbs|]; cbn [negb] in H.
  2: { injection H as <- <- <- <-. split; [by eapply reported_message | done]. }
  destruct (_ >? _).
  { injection H as <- <- <- <-. split; [by eapply reported_message | done]. }
  match type of H with
  | match ?m with _ => _ end = _ =>
    destruct m as [[[[r2 name2] spos2] w2]|] eqn:E2; [|discriminate H]
  end.
  apply parse_ntbs_tracked in E2 as [[Hp2 Hle2] Hr2].
  cbn [fpos] in Hp2.
  assert (reported r2 w w2) as Hr2'.
  { destruct Hr2 as (o2 & Ho2 & Hn2). by exists o2. }
  destruct (Z.eqb_spec r2 0) as [->|]; simpl in H.
  2: { by injection H as <- <- <- <-. }
  destruct (strcmp _ _ =? 0).
  - match type of H with
    | match ?m with _ => _ end = _ =>
      destruct m as [[[r3 spos3] w3]|] eqn:E3; [|discriminate H]
    end.
    apply parse_eabi_attr_aeabi_subsection_tracked in E3
      as ([Hp3 Hle3] & Hr3 & Hlt3).
    injection H as <- <- <- <-.
    split; [by eapply reported_trans|].
    intros Hr. specialize (Hlt3 Hr). lia.
  - unfold lseek_cur, lseek_to in H. pose proof (le_val_nonneg bs).
    destruct (Z.ltb_spec (Z.of_nat (fpos w2) + (le_val bs - spos2)) 0);
      [lia|].
    cbv beta iota in H.
    destruct (Z.eqb_spec (Z.of_nat (fpos w2) + (le_val bs - spos2)) (-1));
      [lia|].
    cbn [negb] in H. injection H as <- <- <- <-.
    split; [by eapply reported_more | done].
Qed.

Lemma section_loop_tracked fuel n sh_size c vendor_name pos w r w' :
  section_loop fuel n sh_size c vendor_name pos w = Some (r, w') ->
  reported r w w' /\
  (r = 0 ->
   exists pos', pos <= pos' /\ sh_size <= pos' /\
                Z.of_nat (fpos w') = Z.of_nat (fpos w) + (pos' - pos)).
Proof.
  revert vendor_name pos w.
  induction n as [|n IH]; intros vendor_name pos w H; simpl in H;
    destruct (Z.ltb_spec pos sh_size); try discriminate H;
    try (injection H as <- <-; split; [by apply reported_out|];
         intros _; exists pos; lia).
  unfold bind in H.
  destruct (section_loop_body fuel sh_size c vendor_name pos w)
    as [[[[r1 name] spos] w1]|] eqn:E; [|discriminate H].
  apply section_loop_body_tracked in E as [Hr1 Hs1].
  destruct (Z.eqb_spec r1 0) as [->|]; simpl in H;
    [|by injection H as <- <-].
  destruct (Hs1 eq_refl) as [Hp1 Hlt1].
  apply IH in H as [Hr Hs].
  split; [by eapply reported_trans|].
  intros Hr0. destruct (Hs Hr0) as (pos' & ? & ? & ?). exists pos'. lia.
Qed.

Lemma parse_eabi_attr_section_tracked fuel sh_size c vendor_name w r w' :
  parse_eabi_attr_section fuel sh_size c vendor_name w = Some (r, w') ->
  reported r w w' /\
  (r = 0 ->
   Z.of_nat (fpos w) + 1 <= Z.of_nat (fpos w') /\
   Z.of_nat (fpos w) + sh_size <= Z.of_nat (fpos w')).
Proof.
  unfold parse_eabi_attr_section, bind. intros H.
  destruct (if sh_size <? 1 then _ else _) as [[[] w0]|] eqn:E0;
    [|discriminate H].
  assert (reported 0 w w0 /\ fpos w0 = fpos w) as [Hr0 Hp0].
  { destruct (sh_size <? 1); injection E0 as <-;
      (split; [|done]); [by eapply reported_message | by apply reported_out]. }
  destruct (read_byte w0) as [[[version|] w1]|] eqn:E; [| |discriminate H].
  - apply read_byte_some in E as [_ ->].
    destruct (negb _); simpl in H.
    + injection H as <- <-. split; [|done]. by eapply reported_more.
    + apply section_loop_tracked in H as [Hr Hs]. cbn [fpos] in Hs.
      split.
      * eapply reported_trans; [exact Hr0|].
        destruct Hr as (o & Ho & Hn). by exists o.
      * intros Hr1. destruct (Hs Hr1) as (pos' & ? & ? & ?). lia.
  - apply read_byte_none in E as [_ ->]. injection H as <- <-.
    split; [|done]. by eapply reported_more.
Qed.

Lemma shdr_loop_reported fuel count c vendor_name w r w' :
  shdr_loop fuel count c vendor_name w = Some (r, w') -> reported r w w'.
Proof.
  revert vendor_name w.
  induction count as [|count IH]; intros vendor_name w H; simpl in H.
  { injection H as <- <-. by apply reported_out. }
  unfold bind, read in H. cbn [file fpos out] in H.
  destruct (negb (_ =? _)%nat).
  { injection H as <- <-. by eapply reported_message. }
  destruct (negb (_ =? _)).
  { apply IH in H. destruct H as (o & Ho & Hn). by exists o. }
  unfold lseek_cur, lseek_set, lseek_to in H. cbn [file fpos out] in H.
  match type of H with
  | context [if ?t <? 0 then _ else _] => destruct (t <? 0)
  end; cbv beta iota in H;
    (match type of H with
     | context [if ?t <? 0 then _ else _] => destruct (t <? 0)
     end; cbv beta iota in H;
     (destruct (_ =? -1);
      [injection H as <- <-; by eapply reported_message|]);
     match type of H with
     | context [parse_eabi_attr_section_vendor fuel ?s c vendor_name ?w0] =>
       destruct (parse_eabi_attr_section_vendor fuel s c vendor_name w0)
         as [[[r4 name4] w4]|] eqn:E4; [|discriminate H]
     end;
     apply parse_eabi_attr_section_vendor_status in E4 as [E4 _];
     apply parse_eabi_attr_section_tracked in E4 as [Hr4 _];
     (destruct (Z.eqb_spec r4 0) as [->|]; simpl in H;
      [|injection H as <- <-; destruct Hr4 as (o & Ho & Hn); by exists o]);
     repeat match type of H with
            | context [if ?t <? 0 then _ else _] =>
              destruct (t <? 0); cbv beta iota in H
            | context [if ?t =? -1 then _ else _] =>
              destruct (t =? -1); cbv beta iota in H
            end;
     first
       [injection H as <- <-; destruct Hr4 as (o & Ho & Hn);
        exists (o ++ [Perror "restoring position"]); simpl in *;
        split; [by rewrite Ho, app_assoc | by destruct o]
       |apply IH in H; destruct H as (o2 & Ho2 & Hn2);
        destruct Hr4 as (o & Ho & Hn); exists (o ++ o2); simpl in *;
        split; [by rewrite Ho2, Ho, app_assoc
               |intros Hr; specialize (Hn2 Hr); by destruct o, o2]]).
Qed.

Lemma parse_reported fuel c vendor_name w r w' :
  parse fuel c vendor_name w = Some (r, w') -> reported r w w'.
Proof.
  unfold parse, bind, read. cbn [file fpos out]. intros H.
  repeat match type of H with
         | (if ?b then _ else _) _ = _ =>
           destruct b; [injection H as <- <-; by eapply reported_message|]
         end.
  unfold lseek_set, lseek_to in H. cbn [file fpos out] in H.
  destruct (_ <? 0); cbv beta iota in H;
    (destruct (_ =? -1);
     [injection H as <- <-; by eapply reported_message|]);
    apply shdr_loop_reported in H; destruct H as (o & Ho & Hn); by exists o.
Qed.

Lemma process_reported fuel fs vendor_name filename c r :
  process fuel fs vendor_name filename c = Some r ->
  status r <> 0 -> console r <> [].
Proof.
  unfold process. intros H. destruct (fs filename) as [contents|].
  - destruct (parse fuel (to_char c) vendor_name (World contents 0 []))
      as [[r1 w1]|] eqn:E; [|discriminate H].
    injection H as <-. apply parse_reported in E as (o & Ho & Hn).
    simpl in *. intros Hr. rewrite Ho. by apply Hn.
  - by injection H as <-.
Qed.

(** ** The descriptor stays inside the file *)

Lemma attrs_loop_within fuel n size c pos w r pos' w' :
  attrs_loop fuel n size c pos w = Some (r, pos', w') ->
  within w -> within w'.
Proof.
  revert pos w. induction n as [|n IH]; intros pos w H Hw; simpl in H;
    destruct (pos <? size); try discriminate H;
    try (by injection H as <- <- <-).
  unfold bind in H.
  destruct (parse_uleb128 fuel pos size w) as [[[[r1 attr] pos1] w1]|] eqn:E;
    [|discriminate H].
  apply parse_uleb128_fixes in E as (_ & _ & Hw1). specialize (Hw1 Hw).
  destruct (negb (r1 =? 0)); [by injection H as <- <- <-|].
  destruct (switch_attr fuel attr size c pos1 w1) as [[[r2 pos2] w2]|] eqn:E2;
    [|discriminate H].
  apply switch_attr_rewrites in E2 as (_ & _ & Hw2); [|done].
  destruct (negb (r2 =? 0)); [by injection H as <- <- <-|].
  by eapply IH.
Qed.

Lemma parse_eabi_attr_aeabi_subsection_within fuel pos size c w pos' w' :
  parse_eabi_attr_aeabi_subsection fuel pos size c w = Some (0, pos', w') ->
  within w'.
Proof.
  unfold parse_eabi_attr_aeabi_subsection. intros H.
  destruct (size <? 1); [discriminate H|].
  unfold bind in H.
  destruct (read_byte w) as [[[tag|] w1]|] eqn:E; try discriminate H.
  apply read_byte_within in E.
  match type of H with
  | match ?m with _ => _ end = _ =>
    destruct m as [[[r2 pos2] w2]|] eqn:E2; [|discriminate H]
  end.
  assert (within w2) as Hw2.
  { destruct (_ || _).
    - apply ids_loop_fixes in E2 as (_ & _ & Hw2). by apply Hw2.
    - by injection E2 as <- <- <-. }
  destruct (Z.eqb_spec r2 0) as [->|]; simpl in H;
    [|injection H as ? _ _; lia].
  by eapply attrs_loop_within.
Qed.

Lemma section_loop_body_within fuel sh_size c vendor_name pos w name spos w' :
  section_loop_body fuel sh_size c vendor_name pos w = Some (0, name, spos, w') ->
  within w'.
Proof.
  unfold section_loop_body. intros H.
  destruct (_ >? _); [discriminate H|].
  unfold bind, read in H. cbn [file fpos out] in H.
  destruct (Z.eqb_spec (Z.of_nat (length (take 4 (drop (fpos w) (file w))))) 4)
    as [Hbs|]; cbn [negb] in H; [|discriminate H].
  destruct (_ >? _); [discriminate H|].
  match type of H with
  | match ?m with _ => _ end = _ =>
    destruct m as [[[[r2 name2] spos2] w2]|] eqn:E2; [|discriminate H]
  end.
  destruct (Z.eqb_spec r2 0) as [->|]; simpl in H;
    [|injection H as ? _ _ _; lia].
  destruct (strcmp _ _ =? 0).
  - match type of H with
    | match ?m with _ => _ end = _ =>
      destruct m as [[[r3 spos3] w3]|] eqn:E3; [|discriminate H]
    end.
    injection H as -> _ _ <-.
    by eapply parse_eabi_attr_aeabi_subsection_within.
  - apply parse_ntbs_effect in E2 as ([_ Hp2] & _). cbn [fpos] in Hp2.
    unfold lseek_cur, lseek_to in H.
    pose proof (le_val_nonneg (take 4 (drop (fpos w) (file w)))).
    match type of H with
    | context [if ?t <? 0 then _ else _] =>
      destruct (Z.ltb_spec t 0); [lia|]; cbv beta iota in H;
        destruct (Z.eqb_spec t (-1)); [lia|]
    end.
    discriminate H.
Qed.

Lemma section_loop_within fuel n sh_size c vendor_name pos w w' :
  section_loop fuel n sh_size c vendor_name pos w = Some (0, w') ->
  within w -> within w'.
Proof.
  revert vendor_name pos w.
  induction n as [|n IH]; intros vendor_name pos w H Hw; simpl in H;
    destruct (pos <? sh_size); try discriminate H;
    try (by injection H as <-).
  unfold bind in H.
  destruct (section_loop_body fuel sh_size c vendor_name pos w)
    as [[[[r1 name] spos] w1]|] eqn:E; [|discriminate H].
  destruct (Z.eqb_spec r1 0) as [->|]; simpl in H;
    [|injection H as ? _; lia].
  apply section_loop_body_within in E. by eapply IH.
Qed.

Lemma parse_eabi_attr_section_within fuel sh_size c vendor_name w w' :
  parse_eabi_attr_section fuel sh_size c vendor_name w = Some (0, w') ->
  within w'.
Proof.
  unfold parse_eabi_attr_section, bind. intros H.
  destruct (if sh_size <? 1 then _ else _) as [[[] w0]|] eqn:E0;
    [|discriminate H].
  destruct (read_byte w0) as [[[version|] w1]|] eqn:E; try discriminate H.
  apply read_byte_within in E.
  destruct (negb _); [discriminate H|].
  by eapply section_loop_within.
Qed.

(** ** The patched file *)

Lemma apart_sym a b : apart a b -> apart b a.
Proof. unfold apart. lia. Qed.

Lemma take_drop_splice_same f a s :
  (a + length s <= length f)%nat ->
  take (length s) (drop a (splice f a s)) = s.
Proof.
  intros H. unfold splice.
  rewrite drop_app_length' by (rewrite length_take; lia).
  by rewrite take_app_length.
Qed.

Lemma describes_inside f h l :
  describes f (h, Some l) ->
  (Z.to_nat (sh_offset h) + length (encode_section l) <= length f)%nat.
Proof.
  intros (_ & _ & _ & _ & H). apply take_drop_inside; [done|].
  pose proof (length_encode_section_pos l). intros E. rewrite E in *.
  simpl in *. lia.
Qed.

Lemma describes_spliced f c h l rest :
  describes f (h, Some l) -> apart_from (Z.to_nat (sh_offset h),
                                         length (encode_section l)) rest ->
  Forall (describes f) rest ->
  Forall (describes
            (splice f (Z.to_nat (sh_offset h))
                    (encode_section (map (patch_subsection c) l)))) rest.
Proof.
  intros Hd Hap Hrest. pose proof (describes_inside _ _ _ Hd) as Hin.
  destruct Hd as (_ & _ & Hwf & _ & _).
  pose proof (length_encode_section_patch c l Hwf) as Hlen.
  unfold apart_from in Hap. rewrite Forall_forall in Hap, Hrest.
  apply Forall_forall. intros s Hs.
  apply describes_splice; [lia | | by apply Hrest].
  rewrite Hlen. specialize (Hap s Hs).
  destruct (extent s); [by apply apart_sym | done].
Qed.

(** A run leaves every range of bytes that no attributes section overlaps
    as it was. *)
Lemma patched_file_outside c secs f b n :
  Forall (describes f) secs -> all_apart secs -> apart_from (b, n) secs ->
  take n (drop b (patched_file c secs f)) = take n (drop b f).
Proof.
  revert f. induction secs as [|[h [l|]] secs IH]; intros f Hd Hall Hap;
    [done| |].
  - apply Forall_cons_1 in Hd as [Hs Hd].
    apply Forall_cons_1 in Hap as [Hb Hap].
    destruct Hall as [Hrest Hall]. cbn [extent] in Hrest, Hb.
    cbn [patched_file fold_left].
    fold (patched_file c secs
            (splice f (Z.to_nat (sh_offset h))
                    (encode_section (map (patch_subsection c) l)))).
    rewrite IH; [| by apply describes_spliced | done | done].
    pose proof (describes_inside _ _ _ Hs) as Hin.
    destruct Hs as (_ & _ & Hwf & _ & _).
    pose proof (length_encode_section_patch c l Hwf) as Hlen.
    apply take_drop_splice; [lia | by rewrite Hlen].
  - apply Forall_cons_1 in Hd as [_ Hd].
    apply Forall_cons_1 in Hap as [_ Hap].
    destruct Hall as [_ Hall]. cbn [patched_file fold_left].
    by apply IH.
Qed.

(** After a run the file holds the patched subsections where the headers
    say. *)
Lemma describes_patched c secs f :
  0 <= c <= 0x7f ->
  Forall (describes f) secs -> all_apart secs ->
  Forall (describes (patched_file c secs f)) (patched_sections c secs).
Proof.
  intros Hc. revert f.
  induction secs as [|[h [l|]] secs IH]; intros f Hd Hall; [done| |].
  - apply Forall_cons_1 in Hd as [Hs Hd].
    destruct Hall as [Hrest Hall]. cbn [extent] in Hrest.
    cbn [patched_file fold_left patched_sections map].
    set (a := Z.to_nat (sh_offset h)) in *.
    set (s' := encode_section (map (patch_subsection c) l)).
    fold (patched_file c secs (splice f a s')).
    fold (patched_sections c secs).
    pose proof (describes_inside _ _ _ Hs) as Hin. fold a in Hin.
    pose proof (describes_spliced f c h l secs Hs Hrest Hd) as Hd1.
    fold a s' in Hd1.
    destruct Hs as (Hh & Ht & Hwf & Hsz & _).
    pose proof (length_encode_section_patch c l Hwf) as Hlen. fold s' in Hlen.
    apply List.Forall_cons; [|by apply IH].
    split; [done|]. split; [done|].
    split; [by apply wf_patch_subsections|].
    split; [rewrite Hsz; f_equal; symmetry; exact Hlen|].
    fold a s'.
    rewrite patched_file_outside; [| done | done |].
    + apply take_drop_splice_same. lia.
    + unfold apart_from in *. by rewrite Hlen.
  - apply Forall_cons_1 in Hd as [Hs Hd]. destruct Hall as [_ Hall].
    cbn [patched_file fold_left patched_sections map].
    apply List.Forall_cons; [done | by apply IH].
Qed.

Lemma apart_from_rest_laid_out p secs :
  all_apart secs ->
  apart_from (p, sizeof_Elf32_Shdr * length secs)%nat secs ->
  apart_from_rest p secs.
Proof.
  revert p. induction secs as [|s secs IH]; intros p Hall Hap; [done|].
  destruct Hall as [Hs Hall]. apply Forall_cons_1 in Hap as [Hb Hap].
  cbn [apart_from_rest].
  assert (apart_from (p + sizeof_Elf32_Shdr,
                      sizeof_Elf32_Shdr * length secs)%nat secs) as Hap'.
  { unfold apart_from in *. eapply Forall_impl; [exact Hap|].
    intros s' Hs'. cbv beta in Hs' |- *. destruct (extent s'); [|done].
    unfold apart, sizeof_Elf32_Shdr in *. cbn [fst snd length] in *. lia. }
  split; [|by apply IH].
  destruct (extent s) as [r|]; [|done].
  split.
  - unfold apart, sizeof_Elf32_Shdr in *. cbn [fst snd length] in *. lia.
  - unfold apart_from in Hs. eapply Forall_impl; [exact Hs|].
    intros s' Hs'. cbv beta in Hs' |- *.
    destruct (extent s'); [by apply apart_sym | done].
Qed.

Lemma length_patched_sections c secs :
  length (patched_sections c secs) = length secs.
Proof. apply length_map. Qed.

Lemma headers_patched_sections c secs :
  map fst (patched_sections c secs) = map fst secs.
Proof.
  unfold patched_sections. rewrite map_map. apply map_ext.
  by intros [h [l|]].
Qed.

Lemma sections_within_patched fuel c secs f :
  Forall (describes f) secs -> sections_within fuel secs ->
  sections_within fuel (patched_sections c secs).
Proof.
  unfold sections_within. intros Hd Hw.
  induction secs as [|[h [l|]] secs IH]; [done| |].
  - apply Forall_cons_1 in Hd as [(_ & _ & Hwf & _) Hd].
    apply Forall_cons_1 in Hw as [Hs Hw].
    apply List.Forall_cons; [|by apply IH].
    cbn [extent snd] in *. by rewrite length_encode_section_patch.
  - apply Forall_cons_1 in Hd as [_ Hd]. apply Forall_cons_1 in Hw as [_ Hw].
    apply List.Forall_cons; [done | by apply IH].
Qed.

Lemma report_file_patched c secs f :
  0 <= c <= 0x7f -> Forall (describes f) secs ->
  report_file (-1) (patched_sections c secs) = reads_back_file c secs.
Proof.
  intros Hc Hd. unfold report_file, reads_back_file.
  induction secs as [|[h [l|]] secs IH]; [done| |].
  - apply Forall_cons_1 in Hd as [(_ & _ & Hwf & _) Hd].
    cbn [patched_sections map flat_map snd].
    fold (patched_sections c secs).
    by rewrite IH, report_section_patched.
  - apply Forall_cons_1 in Hd as [_ Hd].
    cbn [patched_sections map flat_map snd app].
    fold (patched_sections c secs). by apply IH.
Qed.

Lemma arm_elf_patched c secs f shoff n :
  Forall (describes f) secs -> all_apart secs ->
  apart_from (0, sizeof_Elf32_Ehdr)%nat secs ->
  arm_elf f shoff n -> arm_elf (patched_file c secs f) shoff n.
Proof.
  intros Hd Hall Hap. unfold arm_elf.
  pose proof (patched_file_outside c secs f 0 sizeof_Elf32_Ehdr Hd Hall Hap)
    as E.
  rewrite !drop_0 in E. by rewrite E.
Qed.

(** * Further properties of the program *)

(** ** The ULEB128 reader *)

(** X1.  Whatever the file holds, a call of the ULEB128 reader that returns
    leaves the file as it was, moves the descriptor by exactly as many bytes
    as the cursor, never moves the cursor backwards and, entered inside the
    boundary, never moves it across.  It returns 0 having printed nothing
    (and, entered inside the boundary, having read at least one byte), or 1
    having printed one message: the truncation error, with the cursor at the
    boundary, or the read error, with the descriptor at the end of the
    file. *)
Theorem uleb128_reader_effect fuel pos size w r v pos' w' :
  parse_uleb128 fuel pos size w = Some (r, v, pos', w') ->
  file w' = file w /\
  Z.of_nat (fpos w') = Z.of_nat (fpos w) + (pos' - pos) /\
  pos <= pos' /\ (pos < size -> pos' <= size) /\
  ((r = 0 /\ out w' = out w /\ (pos < size -> pos < pos')) \/
   (r = 1 /\ pos' = size /\
    out w' = out w ++ [Printf "Error: Unterminated ULEB128.\n" []]) \/
   (r = 1 /\ file w' !! fpos w' = None /\
    out w' = out w ++ [Perror "reading ULEB128"])).
Proof.
  intros H.
  pose proof (parse_uleb128_effect _ _ _ _ _ _ _ _ H)
    as ([Hf Hp] & ? & ? & _ & _ & Hprog).
  apply uleb128_loop_output in H as [[-> Ho]|[?|?]]; auto 10.
Qed.

(** The field 0x80 0x80 in a subsection that ends after its first byte. *)
Lemma uleb128_reader_effect_witness :
  let w := World (bytes [128; 128]) 0 [] in
  let w' := World (bytes [128; 128]) 1
                  [Printf "Error: Unterminated ULEB128.\n" []] in
  file w' = file w /\
  Z.of_nat (fpos w') = Z.of_nat (fpos w) + (1 - 0) /\
  0 <= 1 /\ (0 < 1 -> 1 <= 1) /\
  ((1 = 0 /\ out w' = out w /\ (0 < 1 -> 0 < 1)) \/
   (1 = 1 /\ 1 = 1 /\
    out w' = out w ++ [Printf "Error: Unterminated ULEB128.\n" []]) \/
   (1 = 1 /\ file w' !! fpos w' = None /\
    out w' = out w ++ [Perror "reading ULEB128"])).
Proof.
  apply (uleb128_reader_effect 100 0 1 (World (bytes [128; 128]) 0 []) 1 0 1).
  reflexivity.
Defined.

(** X2.  A field of continuation bytes that runs up to the boundary is an
    error: when at least one byte lies before the boundary and every byte up
    to it has its high bit set, the reader reads them all, prints
    "Error: Unterminated ULEB128." and returns 1 with the cursor at the
    boundary. *)
Theorem uleb128_unterminated_is_an_error fuel pos size w conts rest :
  Forall continues conts -> conts <> [] ->
  drop (fpos w) (file w) = conts ++ rest ->
  pos + Z.of_nat (length conts) = size ->
  (length conts <= fuel)%nat ->
  parse_uleb128 fuel pos size w =
    Some (1, uleb128_acc 0 0 conts, size,
          World (file w) (fpos w + length conts)
                (out w ++ [Printf "Error: Unterminated ULEB128.\n" []])).
Proof. apply uleb128_loop_unterminated. Qed.

(** Two continuation bytes before the boundary, a terminator behind it. *)
Lemma uleb128_unterminated_is_an_error_witness :
  parse_uleb128 100 3 5 (World (bytes [7; 129; 130; 1]) 1 []) =
    Some (1, uleb128_acc 0 0 (bytes [129; 130]), 5,
          World (bytes [7; 129; 130; 1]) 3
                [Printf "Error: Unterminated ULEB128.\n" []]).
Proof.
  apply (uleb128_unterminated_is_an_error 100 3 5
           (World (bytes [7; 129; 130; 1]) 1 []) (bytes [129; 130]) (bytes [1]));
    [by repeat constructor | done | reflexivity | reflexivity | simpl; lia].
Defined.

(** X3.  When the file ends inside a field, before the boundary, the reader
    reads the continuation bytes that are left, fails on the next read,
    prints the read error and returns 1; the cursor has moved past the bytes
    that were read. *)
Theorem uleb128_short_read_is_an_error fuel pos size w conts :
  Forall continues conts ->
  drop (fpos w) (file w) = conts ->
  pos + Z.of_nat (length conts) < size ->
  (length conts < fuel)%nat ->
  parse_uleb128 fuel pos size w =
    Some (1, uleb128_acc 0 0 conts, pos + Z.of_nat (length conts),
          World (file w) (fpos w + length conts)
                (out w ++ [Perror "reading ULEB128"])).
Proof. apply uleb128_loop_short_read. Qed.

(** A file that ends after one continuation byte. *)
Lemma uleb128_short_read_is_an_error_witness :
  parse_uleb128 100 3 9 (World (bytes [7; 129]) 1 []) =
    Some (1, uleb128_acc 0 0 (bytes [129]), 3 + 1,
          World (bytes [7; 129]) 2 [Perror "reading ULEB128"]).
Proof.
  apply (uleb128_short_read_is_an_error 100 3 9
           (World (bytes [7; 129]) 1 []) (bytes [129]));
    [by repeat constructor | reflexivity | simpl; lia | simpl; lia].
Defined.

(** ** The string reader *)

(** X4.  Whatever the file holds, a call of the string reader that returns
    leaves the file as it was, moves the descriptor by exactly as many bytes
    as the cursor, never moves the cursor backwards and, entered inside the
    boundary, never moves it across.  It returns 0 having printed nothing,
    or 1 having printed one message: the truncation error, with the cursor
    at the boundary, or the read error, with the descriptor at the end of
    the file. *)
Theorem ntbs_reader_effect fuel result result_size pos size w r name pos' w' :
  parse_ntbs fuel result result_size pos size w = Some (r, name, pos', w') ->
  file w' = file w /\
  Z.of_nat (fpos w') = Z.of_nat (fpos w) + (pos' - pos) /\
  pos <= pos' /\ (pos < size -> pos' <= size) /\
  ((r = 0 /\ out w' = out w) \/
   (r = 1 /\ pos' = size /\
    out w' = out w ++ [Printf "Error: Unterminated NTBS.\n" []]) \/
   (r = 1 /\ file w' !! fpos w' = None /\
    out w' = out w ++ [Perror "skipping NTBS\n"])).
Proof.
  intros H.
  pose proof (parse_ntbs_effect _ _ _ _ _ _ _ _ _ _ H)
    as ([Hf Hp] & ? & ? & _ & _).
  apply ntbs_loop_output in H. auto 10.
Qed.

(** The string "ab" in a file that ends before its NUL. *)
Lemma ntbs_reader_effect_witness :
  let w := World (bytes [97; 98]) 0 [] in
  let w' := World (bytes [97; 98]) 2 [Perror "skipping NTBS\n"] in
  file w' = file w /\
  Z.of_nat (fpos w') = Z.of_nat (fpos w) + (2 - 0) /\
  0 <= 2 /\ (0 < 9 -> 2 <= 9) /\
  ((1 = 0 /\ out w' = out w) \/
   (1 = 1 /\ 2 = 9 /\
    out w' = out w ++ [Printf "Error: Unterminated NTBS.\n" []]) \/
   (1 = 1 /\ file w' !! fpos w' = None /\
    out w' = out w ++ [Perror "skipping NTBS\n"])).
Proof.
  apply (ntbs_reader_effect 100 None 0 0 9 (World (bytes [97; 98]) 0 [])
           1 None 2).
  reflexivity.
Defined.

(** X5.  A string that runs up to the boundary without a NUL is an error:
    when at least one byte lies before the boundary and no byte up to it is
    0, the reader reads them all, prints "Error: Unterminated NTBS." and
    returns 1 with the cursor at the boundary, whether it captures the
    string or not. *)
Theorem ntbs_unterminated_is_an_error fuel result result_size pos size w s rest :
  Forall nonzero s -> s <> [] ->
  drop (fpos w) (file w) = s ++ rest ->
  pos + Z.of_nat (length s) = size ->
  (length s <= fuel)%nat ->
  ntbs_outcome (parse_ntbs fuel result result_size pos size w) =
    Some (1, size,
          World (file w) (fpos w + length s)
                (out w ++ [Printf "Error: Unterminated NTBS.\n" []])).
Proof. apply ntbs_loop_unterminated. Qed.

(** The bytes "ab" before the boundary, the NUL behind it. *)
Lemma ntbs_unterminated_is_an_error_witness :
  ntbs_outcome (parse_ntbs 100 None 0 3 5 (World (bytes [7; 97; 98; 0]) 1 [])) =
    Some (1, 5,
          World (bytes [7; 97; 98; 0]) 3
                [Printf "Error: Unterminated NTBS.\n" []]).
Proof.
  apply (ntbs_unterminated_is_an_error 100 None 0 3 5
           (World (bytes [7; 97; 98; 0]) 1 []) (bytes [97; 98]) (bytes [0]));
    [by repeat constructor | done | reflexivity | reflexivity | simpl; lia].
Defined.

(** X6.  When the file ends inside a string, before the boundary, the reader
    reads the bytes that are left, fails on the next read, prints the read
    error and returns 1; the cursor has moved past the bytes that were
    read. *)
Theorem ntbs_short_read_is_an_error fuel result result_size pos size w s :
  Forall nonzero s ->
  drop (fpos w) (file w) = s ->
  pos + Z.of_nat (length s) < size ->
  (length s < fuel)%nat ->
  ntbs_outcome (parse_ntbs fuel result result_size pos size w) =
    Some (1, pos + Z.of_nat (length s),
          World (file w) (fpos w + length s)
                (out w ++ [Perror "skipping NTBS\n"])).
Proof. apply ntbs_loop_short_read. Qed.

(** A file that ends after the bytes "ab". *)
Lemma ntbs_short_read_is_an_error_witness :
  ntbs_outcome (parse_ntbs 100 (Some buf) 1024 3 9
                  (World (bytes [7; 97; 98]) 1 [])) =
    Some (1, 3 + 2,
          World (bytes [7; 97; 98]) 3 [Perror "skipping NTBS\n"]).
Proof.
  apply (ntbs_short_read_is_an_error 100 (Some buf) 1024 3 9
           (World (bytes [7; 97; 98]) 1 []) (bytes [97; 98]));
    [by repeat constructor | reflexivity | simpl; lia | simpl; lia].
Defined.

(** X7.  A string closed by a NUL inside the boundary is captured cut to
    the buffer: called with a buffer of K > 0 bytes, the reader returns 0
    with the cursor and the descriptor past the NUL, and the buffer, still
    of K bytes, holds as a C string the first K-1 bytes of the string (the
    whole string when it is shorter). *)
Theorem ntbs_captured_cut_to_buffer fuel b pos size pre s rest o :
  Forall nonzero s -> (0 < length b)%nat ->
  pos + Z.of_nat (length s) + 1 <= size ->
  (length s < fuel)%nat ->
  exists b',
    parse_ntbs fuel (Some b) (Z.of_nat (length b)) pos size
        (World (pre ++ s ++ x00 :: rest) (length pre) o) =
      Some (0, Some b', pos + Z.of_nat (length s) + 1,
            World (pre ++ s ++ x00 :: rest) (length pre + length s + 1) o) /\
    length b' = length b /\
    c_str b' = take (length b - 1) s.
Proof.
  intros Hs Hb Hsize Hf.
  destruct (ntbs_captured b s Hs Hb) as (b' & E & Hlen & Hstr).
  exists b'. split; [|done].
  by rewrite parse_ntbs_string, E.
Qed.

(** The name "aeabi" read into buffers of 4 and of 8 bytes. *)
Lemma ntbs_captured_cut_to_buffer_witness :
  (exists b',
     parse_ntbs 100 (Some (replicate 4 xff)) 4 0 9
         (World ([] ++ list_byte_of_string "aeabi" ++ x00 :: bytes [1]) 0 []) =
       Some (0, Some b', 0 + 5 + 1,
             World ([] ++ list_byte_of_string "aeabi" ++ x00 :: bytes [1])
                   (0 + 5 + 1) []) /\
     length b' = 4%nat /\
     c_str b' = list_byte_of_string "aea") /\
  (exists b',
     parse_ntbs 100 (Some (replicate 8 xff)) 8 0 9
         (World ([] ++ list_byte_of_string "aeabi" ++ x00 :: bytes [1]) 0 []) =
       Some (0, Some b', 0 + 5 + 1,
             World ([] ++ list_byte_of_string "aeabi" ++ x00 :: bytes [1])
                   (0 + 5 + 1) []) /\
     length b' = 8%nat /\
     c_str b' = list_byte_of_string "aeabi").
Proof.
  split.
  - apply (ntbs_captured_cut_to_buffer 100 (replicate 4 xff) 0 9 []
             (list_byte_of_string "aeabi") (bytes [1]) []);
      [by repeat constructor | simpl; lia | simpl; lia | simpl; lia].
  - apply (ntbs_captured_cut_to_buffer 100 (replicate 8 xff) 0 9 []
             (list_byte_of_string "aeabi") (bytes [1]) []);
      [by repeat constructor | simpl; lia | simpl; lia | simpl; lia].
Defined.

(** X8.  The buffer has no part in the parse: on the same file and with the
    same cursor and boundary, a call that captures the string, in a buffer
    of any size, and a call that skips it return the same status, leave the
    cursor at the same position and the file, the descriptor and the console
    in the same state. *)
Theorem ntbs_capture_and_skip_agree fuel b result_size pos size w :
  ntbs_outcome (parse_ntbs fuel (Some b) result_size pos size w) =
  ntbs_outcome (parse_ntbs fuel None 0 pos size w).
Proof. apply ntbs_loop_outcome_buffer. Qed.

(** ** A run of the program *)

(** X9.  A run without replacement value never changes the file: whatever
    the file holds and however the run ends, the file named on the command
    line has the contents it had (and is not opened if it does not
    exist). *)
Theorem run_without_value_keeps_the_file fuel fs vendor_name prog filename r :
  main fuel fs vendor_name [prog; filename] = Some r ->
  opened r = fs filename.
Proof.
  unfold main. intros H. apply process_rewrites in H as [_ H].
  destruct (opened r) as [f'|]; [|done].
  destruct H as (f & -> & H). f_equal.
  apply (rewrites_readonly (to_char (to_char (-1)))); [done | exact H].
Qed.

(** A run that fails: the file with the subsection of another vendor. *)
Lemma run_without_value_keeps_the_file_witness :
  opened (Run 1 (Some elf_unknown_vendor)
              [Perror "skipping over unknown subsection"]) =
  host elf_unknown_vendor "a.o".
Proof.
  apply (run_without_value_keeps_the_file 100 (host elf_unknown_vendor) junk
           "arm-wchar-tag" "a.o").
  vm_compute. reflexivity.
Defined.

(** X10.  A run with a replacement value only ever writes that value, in
    place: whatever the file holds and however the run ends, if the file was
    opened then the value parsed to an integer v, the file has kept its size
    and each of its bytes is the byte it was or the byte c, where c is the
    int that sscanf stores for v, converted to char as the program does; a
    byte is changed only if c is not negative.  (For v of the range of int
    the int stored is v.) *)
Theorem run_with_value_writes_only_the_value fuel fs vendor_name prog filename
    value r f' :
  main fuel fs vendor_name [prog; filename; value] = Some r ->
  opened r = Some f' ->
  exists f v,
    fs filename = Some f /\ sscanf_d value = Some v /\
    (- 2 ^ 31 <= v < 2 ^ 31 -> scanned_int v = v) /\
    length f' = length f /\
    forall i : nat,
      f' !! i = f !! i \/
      (0 <= to_char (scanned_int v) /\
       f' !! i = Some (byte_of_Z (to_char (scanned_int v)))).
Proof.
  unfold main. intros H Ho.
  destruct (sscanf_d value) as [v|]; [|by injection H as <-].
  destruct (scanned_int v >? 127); [by injection H as <-|].
  apply process_rewrites in H as [_ H]. rewrite Ho in H.
  destruct H as (f & Hf & Hlen & Hb). rewrite to_char_idem in Hb.
  exists f, v. split; [done|]. split; [done|].
  split; [apply scanned_int_id | done].
Qed.

(** The value 2 written over the value 4 of the sample file. *)
Lemma run_with_value_writes_only_the_value_witness :
  exists f v,
    host elf_wchar_4 "a.o" = Some f /\ sscanf_d "2" = Some v /\
    (- 2 ^ 31 <= v < 2 ^ 31 -> scanned_int v = v) /\
    length (elf_with_section (aeabi_section (bytes [18; 2]))) = length f /\
    forall i : nat,
      elf_with_section (aeabi_section (bytes [18; 2])) !! i = f !! i \/
      (0 <= to_char (scanned_int v) /\
       elf_with_section (aeabi_section (bytes [18; 2])) !! i =
         Some (byte_of_Z (to_char (scanned_int v)))).
Proof.
  apply (run_with_value_writes_only_the_value 100 (host elf_wchar_4) junk
           "arm-wchar-tag" "a.o" "2"
           (Run 0 (Some (elf_with_section (aeabi_section (bytes [18; 2]))))
                [Printf "Tag_ABI_PCS_wchar_t = %ld" [AInt 4];
                 Printf ", patched to %d\n" [AInt 2]]));
    [vm_compute; reflexivity | reflexivity].
Defined.

(** X11.  The exit status of a run is 0 or 1, whatever the command line and
    the file are. *)
Theorem exit_status_is_0_or_1 fuel fs vendor_name argv r :
  main fuel fs vendor_name argv = Some r -> status r = 0 \/ status r = 1.
Proof.
  unfold main. intros H.
  destruct argv as [|prog [|filename [|value [|extra argv]]]];
    try (injection H as <-; by right).
  - by apply process_rewrites in H as [H _].
  - destruct (sscanf_d value) as [v|]; [|injection H as <-; by right].
    destruct (scanned_int v >? 127); [injection H as <-; by right|].
    by apply process_rewrites in H as [H _].
Qed.

(** The run on a file that is no ELF file. *)
Lemma exit_status_is_0_or_1_witness :
  status (Run 1 (Some (bytes [1; 2; 3])) [Perror "reading ELf32_Ehdr"]) = 0 \/
  status (Run 1 (Some (bytes [1; 2; 3])) [Perror "reading ELf32_Ehdr"]) = 1.
Proof.
  apply (exit_status_is_0_or_1 100 (host (bytes [1; 2; 3])) junk
           ["arm-wchar-tag"; "a.o"]).
  vm_compute. reflexivity.
Defined.

(** X12.  The program terminates on every input: with a bound of at least
    2^32 on the iterations of each loop a run returns, whatever the command
    line and the file are (the size of a section is a 32-bit field, and
    every loop of the parsers moves a cursor towards such a size or
    fails). *)
Theorem run_terminates fuel fs vendor_name argv :
  2 ^ 32 <= Z.of_nat fuel ->
  exists r, main fuel fs vendor_name argv = Some r.
Proof.
  intros Hf. unfold main.
  destruct argv as [|prog [|filename [|value [|extra argv]]]];
    try (by eexists).
  - by apply process_total.
  - destruct (sscanf_d value) as [v|]; [|by eexists].
    destruct (scanned_int v >? 127); [by eexists|].
    by apply process_total.
Qed.

(** A run on the sample file. *)
Lemma run_terminates_witness :
  exists r,
    main (Z.to_nat (2 ^ 32)) (host elf_wchar_4) junk ["arm-wchar-tag"; "a.o"]
      = Some r.
Proof.
  apply (run_terminates (Z.to_nat (2 ^ 32)) (host elf_wchar_4) junk
           ["arm-wchar-tag"; "a.o"]).
  rewrite Z2Nat.id; [apply Z.le_refl | apply Z.pow_nonneg; lia].
Defined.

(** ** The walker on well-formed sections *)

(** X13.  On an attributes section made of any number of well-formed "aeabi"
    subsections, wherever it lies in the file, the walker returns 0 with the
    descriptor at the end of the section and prints, for every tag 18 in the
    order of the file, its value and what was done with it.  Under a patch
    request the value byte of every tag 18 is replaced by the requested
    value and no other byte of the file is touched; without request the file
    is left as it was.  The initial contents of the array that receives the
    vendor names have no influence. *)
Theorem walker_reports_and_patches_every_tag fuel wchar_size vendor_name
    pre l rest o :
  Forall wf_subsection l ->
  (length (encode_section l) <= fuel)%nat ->
  (6 <= length vendor_name)%nat ->
  parse_eabi_attr_section fuel (Z.of_nat (length (encode_section l)))
      wchar_size vendor_name
      (World (pre ++ encode_section l ++ rest) (length pre) o) =
    Some (0,
          World (pre ++ encode_section (map (patch_subsection wchar_size) l)
                     ++ rest)
                (length pre + length (encode_section l))
                (o ++ report_section wchar_size l)) /\
  (wchar_size < 0 -> map (patch_subsection wchar_size) l = l).
Proof.
  intros Hl Hf Hv. split.
  - by apply parse_eabi_attr_section_subsections.
  - intros Hc. by apply patch_subsections_readonly.
Qed.

(** The sample section, with two tags 18, patched to 1. *)
Lemma walker_reports_and_patches_every_tag_witness :
  parse_eabi_attr_section 100
      (Z.of_nat (length (encode_section sample_subsections))) 1 junk
      (World (bytes [9] ++ encode_section sample_subsections ++ bytes [8])
             (length (bytes [9])) []) =
    Some (0,
          World (bytes [9]
                   ++ encode_section (map (patch_subsection 1) sample_subsections)
                   ++ bytes [8])
                (length (bytes [9]) + length (encode_section sample_subsections))
                ([] ++ report_section 1 sample_subsections)) /\
  (1 < 0 -> map (patch_subsection 1) sample_subsections = sample_subsections).
Proof.
  apply (walker_reports_and_patches_every_tag 100 1 junk (bytes [9])
           sample_subsections (bytes [8]) []);
    [wf_sample | vm_compute; lia | vm_compute; lia].
Defined.

(** X14.  Every patched value reads back.  After a run with the request
    0 <= c <= 0x7f over a section of well-formed "aeabi" subsections, a run
    without request over the same section of the patched file returns 0,
    changes nothing and prints the value c once for every tag 18 of the
    section, whatever the values were before. *)
Theorem patched_values_read_back fuel c vendor_name vendor_name'
    pre l rest o o' :
  Forall wf_subsection l -> 0 <= c <= 0x7f ->
  (length (encode_section l) <= fuel)%nat ->
  (6 <= length vendor_name)%nat -> (6 <= length vendor_name')%nat ->
  exists f',
    parse_eabi_attr_section fuel (Z.of_nat (length (encode_section l)))
        c vendor_name
        (World (pre ++ encode_section l ++ rest) (length pre) o) =
      Some (0, World f' (length pre + length (encode_section l))
                 (o ++ report_section c l)) /\
    parse_eabi_attr_section fuel (Z.of_nat (length (encode_section l)))
        (to_char (-1)) vendor_name' (World f' (length pre) o') =
      Some (0, World f' (length pre + length (encode_section l))
                 (o' ++ reads_back c l)).
Proof.
  intros Hl Hc Hf Hv Hv'.
  exists (pre ++ encode_section (map (patch_subsection c) l) ++ rest).
  split; [by apply parse_eabi_attr_section_subsections|].
  pose proof (length_encode_section_patch c l Hl) as Hlen.
  rewrite <- Hlen.
  rewrite parse_eabi_attr_section_subsections;
    [|by apply wf_patch_subsections | by rewrite Hlen | done].
  rewrite patch_subsections_readonly by done.
  by rewrite report_section_patched.
Qed.

(** The sample section patched to 1 and read again. *)
Lemma patched_values_read_back_witness :
  exists f',
    parse_eabi_attr_section 100
        (Z.of_nat (length (encode_section sample_subsections))) 1 junk
        (World (bytes [9] ++ encode_section sample_subsections ++ bytes [8])
               (length (bytes [9])) []) =
      Some (0, World f' (length (bytes [9])
                         + length (encode_section sample_subsections))
                 ([] ++ report_section 1 sample_subsections)) /\
    parse_eabi_attr_section 100
        (Z.of_nat (length (encode_section sample_subsections)))
        (to_char (-1)) junk (World f' (length (bytes [9])) []) =
      Some (0, World f' (length (bytes [9])
                         + length (encode_section sample_subsections))
                 ([] ++ reads_back 1 sample_subsections)).
Proof.
  apply (patched_values_read_back 100 1 junk junk (bytes [9])
           sample_subsections (bytes [8]) [] []);
    [wf_sample | lia | vm_compute; lia | vm_compute; lia | vm_compute; lia].
Defined.

(** X15.  The last patch wins.  Over a section of well-formed "aeabi"
    subsections, a run with the request c1 followed by a run with the
    request c2 (both in 0..0x7f) leaves the file that a single run with the
    request c2 leaves; in particular a second run with the same request
    changes nothing. *)
Theorem last_patch_wins fuel c1 c2 vendor_name pre l rest o :
  Forall wf_subsection l -> 0 <= c1 <= 0x7f -> 0 <= c2 <= 0x7f ->
  (length (encode_section l) <= fuel)%nat ->
  (6 <= length vendor_name)%nat ->
  let size := Z.of_nat (length (encode_section l)) in
  let f := pre ++ encode_section l ++ rest in
  exists f1 f2 p o1 o2 o2',
    parse_eabi_attr_section fuel size c1 vendor_name (World f (length pre) o)
      = Some (0, World f1 p o1) /\
    parse_eabi_attr_section fuel size c2 vendor_name (World f1 (length pre) o)
      = Some (0, World f2 p o2) /\
    parse_eabi_attr_section fuel size c2 vendor_name (World f (length pre) o)
      = Some (0, World f2 p o2') /\
    (c1 = c2 -> f2 = f1).
Proof.
  intros Hl Hc1 Hc2 Hf Hv size f.
  pose proof (length_encode_section_patch c1 l Hl) as Hlen.
  exists (pre ++ encode_section (map (patch_subsection c1) l) ++ rest),
         (pre ++ encode_section (map (patch_subsection c2) l) ++ rest),
         (length pre + length (encode_section l))%nat.
  do 3 eexists. unfold size, f.
  split; [by apply parse_eabi_attr_section_subsections|].
  split; [|split; [by apply parse_eabi_attr_section_subsections|]].
  - rewrite <- Hlen.
    rewrite parse_eabi_attr_section_subsections;
      [|by apply wf_patch_subsections | by rewrite Hlen | done].
    rewrite patch_subsections_twice by lia. done.
  - by intros ->.
Qed.

(** The sample section patched to 1 and then to 3. *)
Lemma last_patch_wins_witness :
  let size := Z.of_nat (length (encode_section sample_subsections)) in
  let f := bytes [9] ++ encode_section sample_subsections ++ bytes [8] in
  exists f1 f2 p o1 o2 o2',
    parse_eabi_attr_section 100 size 1 junk (World f (length (bytes [9])) [])
      = Some (0, World f1 p o1) /\
    parse_eabi_attr_section 100 size 3 junk (World f1 (length (bytes [9])) [])
      = Some (0, World f2 p o2) /\
    parse_eabi_attr_section 100 size 3 junk (World f (length (bytes [9])) [])
      = Some (0, World f2 p o2') /\
    (1 = 3 -> f2 = f1).
Proof.
  apply (last_patch_wins 100 1 3 junk (bytes [9]) sample_subsections
           (bytes [8]) []);
    [wf_sample | lia | lia | vm_compute; lia | vm_compute; lia].
Defined.

(** X16.  The first subsection of another vendor ends the walk with an
    error.  When a section starts with well-formed "aeabi" subsections and
    goes on with a subsection, inside the section, whose name is not
    "aeabi" (a name of fewer than 127 bytes, closed by a NUL), the walker
    handles the "aeabi" subsections, reads the length and the name of the
    other one, seeks to its end, and there prints the error of the seek and
    returns 1: whatever follows that subsection is never read. *)
Theorem other_vendor_ends_the_walk fuel sh_size wchar_size vendor_name
    pre l name body rest o :
  Forall wf_subsection l ->
  Forall nonzero name -> name <> list_byte_of_string "aeabi" ->
  (length name < 127)%nat -> length vendor_name = 128%nat ->
  Z.of_nat (length (encode_vendor_subsection name body)) < 2 ^ 32 ->
  Z.of_nat (length (encode_section l)
            + length (encode_vendor_subsection name body)) <= sh_size ->
  (length (encode_section l) + length name <= fuel)%nat ->
  parse_eabi_attr_section fuel sh_size wchar_size vendor_name
      (World (pre ++ encode_section l
                  ++ encode_vendor_subsection name body ++ rest)
             (length pre) o) =
    Some (1,
          World (pre ++ encode_section (map (patch_subsection wchar_size) l)
                     ++ encode_vendor_subsection name body ++ rest)
                (length pre + length (encode_section l)
                 + length (encode_vendor_subsection name body))
                (o ++ report_section wchar_size l
                   ++ [Perror "skipping over unknown subsection"])).
Proof. apply parse_eabi_attr_section_other_vendor. Qed.

(** The sample subsections, a "gnu" subsection, and one more "aeabi"
    subsection behind it. *)
Lemma other_vendor_ends_the_walk_witness :
  parse_eabi_attr_section 100 100 (to_char (-1)) junk
      (World (bytes [9] ++ encode_section sample_subsections
                ++ encode_vendor_subsection (list_byte_of_string "gnu")
                                            (bytes [1; 2; 3])
                ++ flat_map encode_subsection sample_subsections)
             (length (bytes [9])) []) =
    Some (1,
          World (bytes [9]
                   ++ encode_section
                        (map (patch_subsection (to_char (-1))) sample_subsections)
                   ++ encode_vendor_subsection (list_byte_of_string "gnu")
                                               (bytes [1; 2; 3])
                   ++ flat_map encode_subsection sample_subsections)
                (length (bytes [9]) + length (encode_section sample_subsections)
                 + length (encode_vendor_subsection (list_byte_of_string "gnu")
                                                    (bytes [1; 2; 3])))
                ([] ++ report_section (to_char (-1)) sample_subsections
                    ++ [Perror "skipping over unknown subsection"])).
Proof.
  apply (other_vendor_ends_the_walk 100 100 (to_char (-1)) junk (bytes [9])
           sample_subsections (list_byte_of_string "gnu") (bytes [1; 2; 3])
           (flat_map encode_subsection sample_subsections) []);
    [wf_sample | by repeat constructor | by vm_compute | simpl; lia
    | reflexivity | vm_compute; reflexivity | vm_compute; by intros ?
    | vm_compute; lia].
Defined.

(** ** The section header table *)

(** X17.  A run with a replacement value patches every attributes section
    of the file.  Take an ARM ELF file whose section header table holds any
    number of headers, in any order; the sections of type
    SHT_ARM_ATTRIBUTES hold well-formed "aeabi" subsections, each at the
    offset and of the size that its header says, apart from the headers that
    follow its own and from the attributes sections of those.  A run with
    the value 0 <= v <= 0x7f ends with status 0, has passed over the headers
    of every other type, has printed the reports of the attributes sections
    in the order of the table, and leaves the file with the value byte of
    every tag 18 of every attributes section replaced by v and every other
    byte as it was. *)
Theorem run_patches_every_attributes_section fuel fs vendor_name prog filename
    value v f shoff secs :
  fs filename = Some f ->
  sscanf_d value = Some v -> 0 <= v <= 0x7f ->
  arm_elf f shoff (length secs) ->
  take (sizeof_Elf32_Shdr * length secs) (drop shoff f)
    = concat (map fst secs) ->
  Forall (describes f) secs ->
  apart_from_rest shoff secs ->
  sections_within fuel secs ->
  (6 <= length vendor_name)%nat ->
  main fuel fs vendor_name [prog; filename; value] =
    Some (Run 0 (Some (patched_file v secs f)) (report_file v secs)).
Proof.
  intros Hfs Hscan Hv Helf Htab Hd Hap Hfuel Hvn.
  unfold main. rewrite Hscan.
  rewrite scanned_int_id by lia.
  destruct (Z.gtb_spec v 127); [lia|].
  unfold process. rewrite Hfs. unfold to_char.
  rewrite !(sint_id 8 v) by (change (2 ^ (8 - 1)) with 128; lia).
  by rewrite (parse_sections fuel v vendor_name f shoff secs []).
Qed.

(** The sample file: a null header, the attributes section with two tags
    18, and a section of another type, patched to 1. *)
Lemma run_patches_every_attributes_section_witness :
  main 100 (host sample_elf) junk ["arm-wchar-tag"; "a.o"; "1"] =
    Some (Run 0 (Some (patched_file 1 sample_sections sample_elf))
              (report_file 1 sample_sections)).
Proof.
  apply (run_patches_every_attributes_section 100 (host sample_elf) junk
           "arm-wchar-tag" "a.o" "1" 1 sample_elf
           (52 + length (encode_section sample_subsections)) sample_sections).
  - reflexivity.
  - reflexivity.
  - lia.
  - repeat split; by vm_compute.
  - vm_compute. reflexivity.
  - repeat (apply List.Forall_cons || apply List.Forall_nil);
      (split; [reflexivity|]).
    + by vm_compute.
    + split; [reflexivity|]. split; [wf_sample|].
      split; vm_compute; reflexivity.
    + by vm_compute.
  - vm_compute. repeat split; try lia; repeat constructor.
  - vm_compute. repeat constructor; lia.
  - vm_compute. lia.
Defined.

(** X18.  A run without replacement value reports every attributes section
    of the file.  On an ARM ELF file whose section header table holds any
    number of headers, in any order, the sections of type
    SHT_ARM_ATTRIBUTES holding well-formed "aeabi" subsections at the offset
    and of the size that their headers say, the run ends with status 0, has
    passed over the headers of every other type, has printed the value of
    every tag 18 of every attributes section in the order of the table, and
    leaves the file as it was. *)
Theorem run_reports_every_attributes_section fuel fs vendor_name prog filename
    f shoff secs :
  fs filename = Some f ->
  arm_elf f shoff (length secs) ->
  take (sizeof_Elf32_Shdr * length secs) (drop shoff f)
    = concat (map fst secs) ->
  Forall (describes f) secs ->
  sections_within fuel secs ->
  (6 <= length vendor_name)%nat ->
  main fuel fs vendor_name [prog; filename] =
    Some (Run 0 (Some f) (report_file (-1) secs)).
Proof.
  intros Hfs Helf Htab Hd Hfuel Hvn.
  unfold main, process. rewrite Hfs.
  change (to_char (to_char (-1))) with (-1).
  rewrite (parse_sections fuel (-1) vendor_name f shoff secs [])
    by (done || lia).
  cbn [file out app]. by rewrite patched_file_readonly.
Qed.

(** The sample file read. *)
Lemma run_reports_every_attributes_section_witness :
  main 100 (host sample_elf) junk ["arm-wchar-tag"; "a.o"] =
    Some (Run 0 (Some sample_elf) (report_file (-1) sample_sections)).
Proof.
  apply (run_reports_every_attributes_section 100 (host sample_elf) junk
           "arm-wchar-tag" "a.o" sample_elf
           (52 + length (encode_section sample_subsections)) sample_sections).
  - reflexivity.
  - repeat split; by vm_compute.
  - vm_compute. reflexivity.
  - repeat (apply List.Forall_cons || apply List.Forall_nil);
      (split; [reflexivity|]).
    + by vm_compute.
    + split; [reflexivity|]. split; [wf_sample|].
      split; vm_compute; reflexivity.
    + by vm_compute.
  - vm_compute. repeat constructor; lia.
  - vm_compute. lia.
Defined.

(** ** The subsection parser *)

(** X19.  Under a patch request the last byte of the value of tag 18 is
    overwritten, whatever the value is.  For a value field of any length
    inside the subsection, case 18 of the subsection parser with a request
    c >= 0 prints the old value, for an old value above 0x7f also the
    refusal "old value is too big", and then all the same seeks back one
    byte, writes c over the last byte of the field, prints "patched to" and
    returns 0; no other byte of the file is changed. *)
Theorem tag_value_last_byte_is_overwritten fuel size wchar_size pos pre conts
    last rest o :
  Forall continues conts -> terminates last ->
  pos + Z.of_nat (length conts) + 1 <= size -> (length conts < fuel)%nat ->
  0 <= wchar_size ->
  case_Tag_ABI_PCS_wchar_t fuel size wchar_size pos
      (World (pre ++ conts ++ last :: rest) (length pre) o) =
    Some (0, pos + Z.of_nat (length conts) + 1,
          World (pre ++ conts ++ byte_of_Z wchar_size :: rest)
                (length pre + length conts + 1)
                (o ++ [Printf "Tag_ABI_PCS_wchar_t = %ld"
                              [AInt (uleb128_acc 0 0 (conts ++ [last]))]]
                   ++ (if uleb128_acc 0 0 (conts ++ [last]) >? 0x7f
                       then [Printf "Error: Unable to patch Tag_ABI_PCS_wchar_t: old value is too big.\n" []]
                       else [])
                   ++ [Printf ", patched to %d\n" [AInt wchar_size]])).
Proof. apply case_Tag_ABI_PCS_wchar_t_field. Qed.

(** The value 300, in the two bytes 0xAC 0x02, patched to 1. *)
Lemma tag_value_last_byte_is_overwritten_witness :
  case_Tag_ABI_PCS_wchar_t 100 9 1 2
      (World (bytes [1; 18] ++ bytes [172] ++ byte_of_Z 2 :: bytes [7])
             (length (bytes [1; 18])) []) =
    Some (0, 2 + Z.of_nat (length (bytes [172])) + 1,
          World (bytes [1; 18] ++ bytes [172] ++ byte_of_Z 1 :: bytes [7])
                (length (bytes [1; 18]) + length (bytes [172]) + 1)
                ([] ++ [Printf "Tag_ABI_PCS_wchar_t = %ld"
                               [AInt (uleb128_acc 0 0 (bytes [172] ++ [byte_of_Z 2]))]]
                    ++ (if uleb128_acc 0 0 (bytes [172] ++ [byte_of_Z 2]) >? 0x7f
                        then [Printf "Error: Unable to patch Tag_ABI_PCS_wchar_t: old value is too big.\n" []]
                        else [])
                    ++ [Printf ", patched to %d\n" [AInt 1]])).
Proof.
  apply (tag_value_last_byte_is_overwritten 100 9 1 2 (bytes [1; 18])
           (bytes [172]) (byte_of_Z 2) (bytes [7]) []);
    [by repeat constructor | by vm_compute | simpl; lia | simpl; lia | lia].
Defined.

(** X20.  In the parser of an "aeabi" subsection the cursor tracks the
    descriptor: whatever the file holds, when a call returns, the
    descriptor is exactly as many bytes further as the cursor is (the seek
    back and the write of a patch cancel out), the cursor has not moved
    backwards, and after a success it has moved past the indicator byte at
    least. *)
Theorem subsection_cursor_tracks_descriptor fuel pos size wchar_size w
    r pos' w' :
  parse_eabi_attr_aeabi_subsection fuel pos size wchar_size w
    = Some (r, pos', w') ->
  Z.of_nat (fpos w') = Z.of_nat (fpos w) + (pos' - pos) /\
  pos <= pos' /\ (r = 0 -> pos < pos').
Proof.
  intros H.
  apply parse_eabi_attr_aeabi_subsection_tracked in H as ([? ?] & _ & ?).
  done.
Qed.

(** The body of the subsection of the sample file, patched to 1. *)
Lemma subsection_cursor_tracks_descriptor_witness :
  Z.of_nat (fpos (World (elf_with_section (aeabi_section (bytes [18; 1]))) 66
                        [Printf "Tag_ABI_PCS_wchar_t = %ld" [AInt 4];
                         Printf ", patched to %d\n" [AInt 1]])) =
    Z.of_nat (fpos (World elf_wchar_4 63 [])) + (13 - 10) /\
  10 <= 13 /\ (0 = 0 -> 10 < 13).
Proof.
  apply (subsection_cursor_tracks_descriptor 100 10 13 1
           (World elf_wchar_4 63 []) 0 13
           (World (elf_with_section (aeabi_section (bytes [18; 1]))) 66
                  [Printf "Tag_ABI_PCS_wchar_t = %ld" [AInt 4];
                   Printf ", patched to %d\n" [AInt 1]])).
  vm_compute. reflexivity.
Defined.

(** X21.  A walk that succeeds has consumed the section, inside the file:
    whatever the file holds, when the walker of an attributes section
    returns 0, the descriptor has moved forwards by at least the size of the
    section, and by one byte at least, and it is not past the end of the
    file, which has kept its size. *)
Theorem successful_walk_consumes_the_section fuel sh_size wchar_size
    vendor_name w w' :
  parse_eabi_attr_section fuel sh_size wchar_size vendor_name w
    = Some (0, w') ->
  Z.of_nat (fpos w) + 1 <= Z.of_nat (fpos w') /\
  Z.of_nat (fpos w) + sh_size <= Z.of_nat (fpos w') /\
  (fpos w' <= length (file w'))%nat /\
  length (file w') = length (file w).
Proof.
  intros H.
  pose proof (parse_eabi_attr_section_rewrites _ _ _ _ _ _ _ H)
    as [_ [Hlen _]].
  pose proof (parse_eabi_attr_section_within _ _ _ _ _ _ H) as Hw.
  apply parse_eabi_attr_section_tracked in H as [_ H].
  destruct (H eq_refl). done.
Qed.

(** The section without body, of which the walker reads one byte more than
    its 11. *)
Lemma successful_walk_consumes_the_section_witness :
  Z.of_nat (fpos (World elf_no_body 52 [])) + 1
    <= Z.of_nat (fpos (World elf_no_body 64 [])) /\
  Z.of_nat (fpos (World elf_no_body 52 [])) + 11
    <= Z.of_nat (fpos (World elf_no_body 64 [])) /\
  (fpos (World elf_no_body 64 []) <= length (file (World elf_no_body 64 [])))%nat /\
  length (file (World elf_no_body 64 [])) =
    length (file (World elf_no_body 52 [])).
Proof.
  apply (successful_walk_consumes_the_section 100 11 (to_char (-1)) junk
           (World elf_no_body 52 []) (World elf_no_body 64 [])).
  vm_compute. reflexivity.
Defined.

(** X22.  No run fails silently: whatever the command line and the file
    are, a run that ends with a status other than 0 has printed at least
    one message. *)
Theorem failure_is_reported fuel fs vendor_name argv r :
  main fuel fs vendor_name argv = Some r ->
  status r <> 0 -> console r <> [].
Proof.
  unfold main. intros H.
  destruct argv as [|prog [|filename [|value [|extra argv]]]];
    try (injection H as <-; simpl; intros _; discriminate).
  - exact (process_reported _ _ _ _ _ _ H).
  - destruct (sscanf_d value) as [v|];
      [|injection H as <-; simpl; intros _; discriminate].
    destruct (scanned_int v >? 127);
      [injection H as <-; simpl; intros _; discriminate|].
    exact (process_reported _ _ _ _ _ _ H).
Qed.

(** A run on a file that does not exist. *)
Lemma failure_is_reported_witness :
  console (Run 1 None [Perror "opening file"]) <> [].
Proof.
  apply (failure_is_reported 100 (host elf_wchar_4) junk
           ["arm-wchar-tag"; "b.o"] (Run 1 None [Perror "opening file"]));
    [reflexivity | simpl; lia].
Defined.

(** X23.  A section that the file does not hold in full is rejected:
    whatever the file holds, when the declared size of an attributes section
    reaches past the end of the file, the walker returns 1 (with a bound on
    the iterations of each loop of at least the declared size, and of 1 at
    least), and the file has kept its size. *)
Theorem truncated_section_is_rejected fuel sh_size wchar_size vendor_name w :
  Z.of_nat (length (file w)) < Z.of_nat (fpos w) + sh_size ->
  sh_size <= Z.of_nat fuel -> (1 <= fuel)%nat ->
  exists w',
    parse_eabi_attr_section fuel sh_size wchar_size vendor_name w
      = Some (1, w') /\
    length (file w') = length (file w).
Proof.
  intros Hshort Hf H1.
  destruct (parse_eabi_attr_section_total fuel sh_size wchar_size vendor_name
              w Hf H1) as ([r w'] & H).
  exists w'.
  pose proof (parse_eabi_attr_section_rewrites _ _ _ _ _ _ _ H)
    as [Hr [Hlen _]].
  split; [|done].
  destruct Hr as [-> | ->]; [|done].
  pose proof (parse_eabi_attr_section_within _ _ _ _ _ _ H) as Hw.
  apply parse_eabi_attr_section_tracked in H as [_ Hs].
  destruct (Hs eq_refl) as [_ Hp]. unfold within in Hw. lia.
Qed.

(** The section of the sample file in a file that ends one byte before the
    end of the section. *)
Lemma truncated_section_is_rejected_witness :
  exists w',
    parse_eabi_attr_section 100 14 (to_char (-1)) junk
        (World (take 65 elf_wchar_4) 52 []) = Some (1, w') /\
    length (file w') = length (file (World (take 65 elf_wchar_4) 52 [])).
Proof.
  apply (truncated_section_is_rejected 100 14 (to_char (-1)) junk
           (World (take 65 elf_wchar_4) 52 []));
    [vm_compute; reflexivity | lia | lia].
Defined.

(** X24.  Patching and reading back, on a whole file.  Take an ARM ELF file
    whose section header table holds any number of headers, in any order,
    the sections of type SHT_ARM_ATTRIBUTES holding well-formed "aeabi"
    subsections where their headers say, and overlapping neither each
    other, nor the ELF header, nor the section header table.  A run with
    the value 0 <= v <= 0x7f ends with status 0, and a run without value on
    the file that it leaves ends with status 0, changes nothing and prints
    the value v for every tag 18 of every attributes section, in the order
    of the table. *)
Theorem patch_then_read_reports_the_value fuel fs fs' vendor_name vendor_name'
    prog prog' filename filename' value v f shoff secs :
  fs filename = Some f ->
  sscanf_d value = Some v -> 0 <= v <= 0x7f ->
  arm_elf f shoff (length secs) ->
  take (sizeof_Elf32_Shdr * length secs) (drop shoff f)
    = concat (map fst secs) ->
  Forall (describes f) secs ->
  laid_out shoff secs ->
  sections_within fuel secs ->
  (6 <= length vendor_name)%nat -> (6 <= length vendor_name')%nat ->
  fs' filename' = Some (patched_file v secs f) ->
  main fuel fs vendor_name [prog; filename; value] =
    Some (Run 0 (Some (patched_file v secs f)) (report_file v secs)) /\
  main fuel fs' vendor_name' [prog'; filename'] =
    Some (Run 0 (Some (patched_file v secs f)) (reads_back_file v secs)).
Proof.
  intros Hfs Hscan Hv Helf Htab Hd (Hall & Hhdr & Htbl) Hfuel Hvn Hvn' Hfs'.
  split.
  - unfold main. rewrite Hscan.
    rewrite scanned_int_id by lia.
    destruct (Z.gtb_spec v 127); [lia|].
    unfold process. rewrite Hfs. unfold to_char.
    rewrite !(sint_id 8 v) by (change (2 ^ (8 - 1)) with 128; lia).
    rewrite (parse_sections fuel v vendor_name f shoff secs []); try done.
    intros _. split; [lia | by apply apart_from_rest_laid_out].
  - unfold main, process. rewrite Hfs'.
    change (to_char (to_char (-1))) with (-1).
    pose proof (describes_patched v secs f Hv Hd Hall) as Hd'.
    rewrite (parse_sections fuel (-1) vendor_name' (patched_file v secs f)
               shoff (patched_sections v secs) []).
    + cbn [file out app].
      rewrite patched_file_readonly by done.
      by rewrite (report_file_patched v secs f).
    + rewrite length_patched_sections. by apply arm_elf_patched.
    + rewrite length_patched_sections, headers_patched_sections.
      by rewrite patched_file_outside.
    + done.
    + lia.
    + by eapply sections_within_patched.
    + done.
Qed.

(** The sample file patched to 1 and read again. *)
Lemma patch_then_read_reports_the_value_witness :
  main 100 (host sample_elf) junk ["arm-wchar-tag"; "a.o"; "1"] =
    Some (Run 0 (Some (patched_file 1 sample_sections sample_elf))
              (report_file 1 sample_sections)) /\
  main 100 (host (patched_file 1 sample_sections sample_elf)) junk
       ["arm-wchar-tag"; "a.o"] =
    Some (Run 0 (Some (patched_file 1 sample_sections sample_elf))
              (reads_back_file 1 sample_sections)).
Proof.
  apply (patch_then_read_reports_the_value 100 (host sample_elf)
           (host (patched_file 1 sample_sections sample_elf)) junk junk
           "arm-wchar-tag" "arm-wchar-tag" "a.o" "a.o" "1" 1 sample_elf
           (52 + length (encode_section sample_subsections)) sample_sections).
  - reflexivity.
  - reflexivity.
  - lia.
  - repeat split; by vm_compute.
  - vm_compute. reflexivity.
  - repeat (apply List.Forall_cons || apply List.Forall_nil);
      (split; [reflexivity|]).
    + by vm_compute.
    + split; [reflexivity|]. split; [wf_sample|].
      split; vm_compute; reflexivity.
    + by vm_compute.
  - vm_compute. repeat split; try lia; repeat constructor; lia.
  - vm_compute. repeat constructor; lia.
  - vm_compute. lia.
  - vm_compute. lia.
  - reflexivity.
Defined.
